(** * epub.py: TXT-to-EPUB generator, a shallow embedding

    The development follows [src/epub.py].  Python [str] values are
    sequences of Unicode code points, modelled as [list N]; the class
    [EpubGenerator] is a record threaded through its methods; file-system
    effects are state transformers on a directory tree that can raise. *)

From Stdlib Require Import List NArith Arith Bool Lia String Ascii.
From Stdlib Require Import Sorted Permutation.
Import ListNotations.

Set Implicit Arguments.
Local Open Scope N_scope.

(** ** Python strings *)

Module PyStr.

Definition char := N.
Definition pystr := list char.

(** Source literals are written as UTF-8 text and decoded to code points. *)
Definition bytes_of (s : string) : list N :=
  map N_of_ascii (list_ascii_of_string s).

Fixpoint utf8 (pending : nat) (acc : N) (bs : list N) : pystr :=
  match bs with
  | [] => []
  | b :: bs' =>
      match pending with
      | O =>
          if b <? 128 then b :: utf8 0 0 bs'
          else if b <? 224 then utf8 1 (b - 192) bs'
          else if b <? 240 then utf8 2 (b - 224) bs'
          else utf8 3 (b - 240) bs'
      | S O => (acc * 64 + (b - 128)) :: utf8 0 0 bs'
      | S p => utf8 p (acc * 64 + (b - 128)) bs'
      end
  end.

Definition u (s : string) : pystr := utf8 0 0 (bytes_of s).

(** Markup literals: the backquote stands for the double quote (code 34),
    which never has to appear inside a literal this way. *)
Definition markup (s : string) : pystr :=
  map (fun c => if c =? 96 then 34 else c) (u s).

Definition NL : char := 10.

Fixpoint str_eqb (a b : pystr) : bool :=
  match a, b with
  | [], [] => true
  | x :: a', y :: b' => (x =? y) && str_eqb a' b'
  | _, _ => false
  end.

(** Truthiness of a string: [if s:] holds for the non-empty ones. *)
Definition truthy (s : pystr) : bool :=
  match s with [] => false | _ :: _ => true end.

(** [str.isspace] on one code point (Py_UNICODE_ISSPACE); also the regex
    class [\s] on [str] patterns. *)
Definition is_space (c : char) : bool :=
  ((9 <=? c) && (c <=? 13)) || ((28 <=? c) && (c <=? 32))
  || (c =? 133) || (c =? 160) || (c =? 5760)
  || ((8192 <=? c) && (c <=? 8202))
  || (c =? 8232) || (c =? 8233) || (c =? 8239) || (c =? 8287) || (c =? 12288).

(** First code points of the runs of Unicode decimal digits (category Nd,
    Unicode 14); every run has ten digits except the mathematical ones at
    U+1D7CE, which are fifty. *)
Definition nd_starts : list N :=
  [48; 1632; 1776; 1984; 2406; 2534; 2662; 2790; 2918; 3046; 3174; 3302;
   3430; 3558; 3664; 3792; 3872; 4160; 4240; 6112; 6160; 6470; 6608; 6784;
   6800; 6992; 7088; 7232; 7248; 42528; 43216; 43264; 43472; 43504; 43600;
   44016; 65296; 66720; 68912; 69734; 69872; 69942; 70096; 70384; 70736;
   70864; 71248; 71360; 71472; 71904; 72016; 72784; 73040; 73120; 92768;
   92864; 93008; 120782; 120792; 120802; 120812; 120822; 123200; 123632;
   125264; 130032].

(** [str.isdecimal] on one code point; the regex class [\d]. *)
Definition is_digit (c : char) : bool :=
  existsb (fun s => (s <=? c) && (c <? s + 10)) nd_starts.

Fixpoint dropwhile (p : char -> bool) (s : pystr) : pystr :=
  match s with
  | [] => []
  | c :: s' => if p c then dropwhile p s' else s
  end.

Definition lstrip (s : pystr) : pystr := dropwhile is_space s.
Definition rstrip (s : pystr) : pystr := rev (dropwhile is_space (rev s)).

(** [str.strip()] with no argument. *)
Definition strip (s : pystr) : pystr := rstrip (lstrip s).

(** [s.split(sep)] for a one-character separator: never the empty list. *)
Fixpoint split (sep : char) (s : pystr) : list pystr :=
  match s with
  | [] => [[]]
  | c :: s' =>
      if c =? sep then [] :: split sep s'
      else match split sep s' with
           | [] => [[c]]
           | l :: ls => (c :: l) :: ls
           end
  end.

(** [sep.join(parts)]. *)
Fixpoint join (sep : pystr) (parts : list pystr) : pystr :=
  match parts with
  | [] => []
  | [p] => p
  | p :: rest => p ++ sep ++ join sep rest
  end.

(** [s.startswith(p)]. *)
Fixpoint startswith (p s : pystr) : bool :=
  match p, s with
  | [], _ => true
  | _ :: _, [] => false
  | x :: p', y :: s' => (x =? y) && startswith p' s'
  end.

Definition endswith (p s : pystr) : bool := startswith (rev p) (rev s).

(** [p in s] for strings. *)
Fixpoint contains (p s : pystr) : bool :=
  startswith p s || match s with [] => false | _ :: s' => contains p s' end.

(** [str(n)] for a non-negative integer. *)
Fixpoint digits (fuel : nat) (n : N) (acc : pystr) : pystr :=
  match fuel with
  | O => acc
  | S f =>
      let acc' := (48 + n mod 10) :: acc in
      if n <? 10 then acc' else digits f (n / 10) acc'
  end.

Definition str_of_nat (n : nat) : pystr :=
  digits (S n) (N.of_nat n) [].

Arguments u : simpl never.
Arguments markup : simpl never.
Arguments str_of_nat : simpl never.

End PyStr.
Import PyStr.

(** ** Regular expressions ([re.match] on the patterns the program uses)

    Matching is by derivatives.  The zero-width assertions [^] and [$]
    depend on the position, so nullability and derivatives take the
    position's context: whether it is the start of the subject, and the
    input that remains there. *)

Module Re.

Inductive regex : Type :=
| Never                              (* matches nothing *)
| Empty                              (* the empty string *)
| Bos                                (* ^ *)
| Eos                                (* $ *)
| Lit (c : char)
| Class (p : char -> bool)
| Cat (r1 r2 : regex)
| Alt (r1 r2 : regex)
| Star (r : regex).

Definition Plus (r : regex) : regex := Cat r (Star r).
Definition Dot : regex := Class (fun c => negb (c =? NL)).

Fixpoint Str (s : pystr) : regex :=
  match s with
  | [] => Empty
  | c :: s' => Cat (Lit c) (Str s')
  end.

Fixpoint Seq (rs : list regex) : regex :=
  match rs with
  | [] => Empty
  | [r] => r
  | r :: rs' => Cat r (Seq rs')
  end.

(** [$] holds at the end and just before a final newline. *)
Definition at_eos (rest : pystr) : bool :=
  match rest with
  | [] => true
  | [c] => c =? NL
  | _ => false
  end.

Fixpoint nullable (start : bool) (rest : pystr) (r : regex) : bool :=
  match r with
  | Never => false
  | Empty => true
  | Bos => start
  | Eos => at_eos rest
  | Lit _ => false
  | Class _ => false
  | Cat r1 r2 => nullable start rest r1 && nullable start rest r2
  | Alt r1 r2 => nullable start rest r1 || nullable start rest r2
  | Star _ => true
  end.

(** Derivative by [c], the first code point of [rest]. *)
Fixpoint deriv (start : bool) (rest : pystr) (c : char) (r : regex) : regex :=
  match r with
  | Never | Empty | Bos | Eos => Never
  | Lit d => if c =? d then Empty else Never
  | Class p => if p c then Empty else Never
  | Cat r1 r2 =>
      let left := Cat (deriv start rest c r1) r2 in
      if nullable start rest r1 then Alt left (deriv start rest c r2) else left
  | Alt r1 r2 => Alt (deriv start rest c r1) (deriv start rest c r2)
  | Star r1 => Cat (deriv start rest c r1) (Star r1)
  end.

(** Does [r] match some prefix of [s], from this position? *)
Fixpoint match_here (start : bool) (r : regex) (s : pystr) : bool :=
  nullable start s r ||
  match s with
  | [] => false
  | c :: s' => match_here false (deriv start s c r) s'
  end.

(** Truth value of [re.match(pattern, s)]. *)
Definition re_match (pattern : regex) (s : pystr) : bool :=
  match_here true pattern s.

End Re.
Import Re.

(** ** pathlib and os.path (POSIX flavour) *)

Module PyPath.

Definition SEP : char := 47.
Definition DOT : char := 46.

(** [Path(p).name]: the last component, empty and [.] components dropped. *)
Definition name (p : pystr) : pystr :=
  last (filter (fun c => truthy c && negb (str_eqb c [DOT])) (split SEP p)) [].

(** [s.rfind(c)], [None] for -1. *)
Fixpoint rfind (c : char) (s : pystr) : option nat :=
  match s with
  | [] => None
  | x :: s' =>
      match rfind c s' with
      | Some i => Some (S i)
      | None => if x =? c then Some O else None
      end
  end.

(** The index of the dot that starts the suffix: [0 < i < len(name) - 1]. *)
Definition suffix_index (nm : pystr) : option nat :=
  match rfind DOT nm with
  | Some i => if (0 <? i)%nat && (S i <? List.length nm)%nat then Some i else None
  | None => None
  end.

(** [Path(p).suffix] *)
Definition suffix (p : pystr) : pystr :=
  let nm := name p in
  match suffix_index nm with
  | Some i => skipn i nm
  | None => []
  end.

(** [Path(p).stem] *)
Definition stem (p : pystr) : pystr :=
  let nm := name p in
  match suffix_index nm with
  | Some i => firstn i nm
  | None => nm
  end.

(** [os.path.join(a, b)] *)
Definition path_join (a b : pystr) : pystr :=
  if startswith [SEP] b then b
  else if negb (truthy a) || endswith [SEP] a then a ++ b
  else a ++ [SEP] ++ b.

End PyPath.
Import PyPath.

(** ** The generator: data *)

Record chapter : Type := { title : pystr; content : pystr }.

Record image : Type := { id : pystr; path : pystr; filename : pystr }.

Record EpubGenerator : Type := {
  book_id : pystr;
  chapters : list chapter;
  images : list image;
  cover_image : option image;
  book_title : pystr;
  author : pystr;
  language : pystr
}.

(** [EpubGenerator.__init__]; [uuid4] is the fresh identifier drawn there. *)
Definition __init__ (uuid4 : pystr) : EpubGenerator :=
  {| book_id := uuid4;
     chapters := [];
     images := [];
     cover_image := None;
     book_title := u "未命名小说";
     author := u "未知作者";
     language := u "zh" |}.

(** ** Text segmenter: [read_txt_file] *)

Definition cn_numerals : pystr := u "一二三四五六七八九十百千万".

Definition in_numeral_class (c : char) : bool :=
  existsb (N.eqb c) cn_numerals || is_digit c.

(** The four patterns, in the order of the source list:
    [^第[一二三四五六七八九十百千万\d]+章], [^Chapter\s*\d+],
    [^\d+\..*$], [^【.*】$]. *)
Definition chapter_patterns : list regex :=
  [ Seq [Bos; Str (u "第"); Plus (Class in_numeral_class); Str (u "章")];
    Seq [Bos; Str (u "Chapter"); Star (Class is_space); Plus (Class is_digit)];
    Seq [Bos; Plus (Class is_digit); Lit DOT; Star Dot; Eos];
    Seq [Bos; Str (u "【"); Star Dot; Str (u "】"); Eos] ].

(** The inner [for pattern in chapter_patterns] loop with its [break]. *)
Definition is_chapter_title (line : pystr) : bool :=
  existsb (fun pattern => re_match pattern line) chapter_patterns.

(** Index of the pattern at which the inner loop breaks. *)
Fixpoint first_match (ps : list regex) (line : pystr) : option nat :=
  match ps with
  | [] => None
  | p :: ps' =>
      if re_match p line then Some O
      else option_map S (first_match ps' line)
  end.

(** The local variables of the scanning loop, with [self.chapters]. *)
Record scan : Type := {
  sc_chapters : list chapter;
  current_chapter : pystr;
  chapter_title : pystr;
  chapter_count : nat
}.

(** [if current_chapter.strip(): self.chapters.append({...})] *)
Definition close_chapter (chs : list chapter) (ttl cur : pystr) : list chapter :=
  if truthy (strip cur)
  then chs ++ [{| title := ttl; content := strip cur |}]
  else chs.

(** One iteration of [for line in lines]. *)
Definition scan_line (st : scan) (raw : pystr) : scan :=
  let line := strip raw in
  if negb (truthy line) then
    {| sc_chapters := sc_chapters st;
       current_chapter := current_chapter st ++ [NL];
       chapter_title := chapter_title st;
       chapter_count := chapter_count st |}
  else if is_chapter_title line then
    {| sc_chapters :=
         close_chapter (sc_chapters st) (chapter_title st) (current_chapter st);
       current_chapter := [];
       chapter_title := line;
       chapter_count := S (chapter_count st) |}
  else
    {| sc_chapters := sc_chapters st;
       current_chapter := current_chapter st ++ line ++ [NL];
       chapter_title := chapter_title st;
       chapter_count := chapter_count st |}.

Definition scan_start (chs : list chapter) : scan :=
  {| sc_chapters := chs;
     current_chapter := [];
     chapter_title := u "前言";
     chapter_count := O |}.

Definition scan_lines (chs : list chapter) (lines : list pystr) : scan :=
  fold_left scan_line lines (scan_start chs).

(** The append after the loop, for the chapter still accumulating. *)
Definition flush (st : scan) : list chapter :=
  close_chapter (sc_chapters st) (chapter_title st) (current_chapter st).

(** Lines 50-53: the first line is the title, the rest is the text. *)
Definition take_title (old_title content0 : pystr) : pystr * pystr :=
  match split NL content0 with
  | [] => (old_title, content0)
  | first :: rest => (strip first, join [NL] rest)
  end.

(** Lines 55-58: fall back on the file's stem. *)
Definition fallback_title (ttl txt_path : pystr) : pystr :=
  if negb (truthy ttl) || str_eqb ttl (u "未命名小说") then
    let book_name := stem txt_path in
    if truthy book_name then book_name else ttl
  else ttl.

(** Lines 103-107: the chapter made when there is none. *)
Definition ensure_chapter (chs : list chapter) (ttl content1 : pystr)
  : list chapter :=
  match chs with
  | [] => [{| title := ttl; content := strip content1 |}]
  | _ :: _ => chs
  end.

(** [read_txt_file]; [content0] is the decoded text of the file at
    [txt_path]. *)
Definition read_txt_file (self : EpubGenerator) (txt_path content0 : pystr)
  : EpubGenerator :=
  let (ttl0, content1) := take_title (book_title self) content0 in
  let ttl := fallback_title ttl0 txt_path in
  let st := scan_lines (chapters self) (split NL content1) in
  {| book_id := book_id self;
     chapters := ensure_chapter (flush st) ttl content1;
     images := images self;
     cover_image := cover_image self;
     book_title := ttl;
     author := author self;
     language := language self |}.

(** ** Substitution of a pattern ([re.sub]) and the two sanitizers *)

(** Longest prefix free of [c], and what follows it. *)
Fixpoint span_not (c : char) (s : pystr) : pystr * pystr :=
  match s with
  | [] => ([], [])
  | x :: s' =>
      if x =? c then ([], s)
      else let (run, rest) := span_not c s' in (x :: run, rest)
  end.

(** Leftmost non-overlapping replacement.  [m s] tells whether the
    pattern matches at the head of [s]: the replacement text and the
    (positive) number of code points matched. *)
Fixpoint sub_from (m : pystr -> option (pystr * nat)) (skip : nat) (s : pystr)
  : pystr :=
  match s with
  | [] => []
  | c :: s' =>
      match skip with
      | S k => sub_from m k s'
      | O =>
          match m s with
          | Some (repl, n) => repl ++ sub_from m (pred n) s'
          | None => c :: sub_from m O s'
          end
      end
  end.

Definition re_sub (m : pystr -> option (pystr * nat)) (s : pystr) : pystr :=
  sub_from m O s.

Definition LT : char := 60.
Definition GT : char := 62.

(** [<[^>]+>] replaced by the empty string. *)
Definition match_tag (s : pystr) : option (pystr * nat) :=
  match s with
  | c :: t =>
      if c =? LT then
        match span_not GT t with
        | ((_ :: _) as run, _ :: _) => Some ([], 2 + List.length run)%nat
        | _ => None
        end
      else None
  | [] => None
  end.

(** The opening [div] tag, its attributes (a whitespace and what follows
    up to the closing bracket) being the optional group 1, replaced by
    [<section\1>]. *)
Definition match_div_open (s : pystr) : option (pystr * nat) :=
  if startswith (u "<div") s then
    match skipn 4 s with
    | c :: t =>
        if c =? GT then Some (u "<section>", 5%nat)
        else if is_space c then
          match span_not GT t with
          | (run, _ :: _) =>
              Some (u "<section" ++ c :: run ++ [GT], 6 + List.length run)%nat
          | (_, []) => None
          end
        else None
    | [] => None
    end
  else None.

(** [</div>] replaced by [</section>]. *)
Definition match_div_close (s : pystr) : option (pystr * nat) :=
  if startswith (u "</div>") s then Some (u "</section>", 6%nat) else None.

Definition _sanitize_content (content : pystr) : pystr :=
  let content := re_sub match_div_open content in
  let content := re_sub match_div_close content in
  content.

Definition _sanitize_title (title : pystr) : pystr :=
  let clean_title := re_sub match_tag title in
  let clean_title := strip clean_title in
  clean_title.

(** ** Ordering of strings and [list.sort] *)

(** [a <= b] on Python strings: lexicographic on code points. *)
Fixpoint str_leb (a b : pystr) : bool :=
  match a, b with
  | [], _ => true
  | _ :: _, [] => false
  | x :: a', y :: b' =>
      if x <? y then true else if y <? x then false else str_leb a' b'
  end.

Fixpoint insert_sorted (x : pystr) (l : list pystr) : list pystr :=
  match l with
  | [] => [x]
  | y :: l' => if str_leb x y then x :: l else y :: insert_sorted x l'
  end.

(** [l.sort()] on a list of strings. *)
Fixpoint sort (l : list pystr) : list pystr :=
  match l with
  | [] => []
  | x :: l' => insert_sorted x (sort l')
  end.

(** ** Record updates of the generator *)

Definition set_images (self : EpubGenerator) (v : list image) : EpubGenerator :=
  {| book_id := book_id self; chapters := chapters self; images := v;
     cover_image := cover_image self; book_title := book_title self;
     author := author self; language := language self |}.

Definition set_cover_image (self : EpubGenerator) (v : option image)
  : EpubGenerator :=
  {| book_id := book_id self; chapters := chapters self;
     images := images self; cover_image := v;
     book_title := book_title self; author := author self;
     language := language self |}.

(** ** Asset collector: [add_images] *)

Section Collector.

(** [str.lower]; its Unicode tables are the runtime's. *)
Variable lower : pystr -> pystr.

Definition supported_formats : list pystr :=
  [u ".jpg"; u ".jpeg"; u ".png"; u ".gif"; u ".bmp"; u ".webp"].

(** [Path(file).suffix.lower() in supported_formats] *)
Definition is_supported (file : pystr) : bool :=
  existsb (str_eqb (lower (suffix file))) supported_formats.

(** ['cover' in img_file.lower() or '封面' in img_file.lower()] *)
Definition is_cover_name (img_file : pystr) : bool :=
  contains (u "cover") (lower img_file) || contains (u "封面") (lower img_file).

(** The body of [for img_file in image_files]. *)
Definition add_image (image_folder : pystr) (self : EpubGenerator)
  (img_file : pystr) : EpubGenerator :=
  let img_path := path_join image_folder img_file in
  let img_id := u "img_" ++ str_of_nat (List.length (images self) + 1) in
  if is_cover_name img_file then
    set_cover_image self
      (Some {| id := u "cover"; path := img_path; filename := img_file |})
  else
    set_images self
      (images self ++ [{| id := img_id; path := img_path; filename := img_file |}]).

(** [add_images]; [listing] is what the system reports for the folder:
    [None] when it does not exist, else the names [os.listdir] returns. *)
Definition add_images (self : EpubGenerator) (image_folder : pystr)
  (listing : option (list pystr)) : EpubGenerator :=
  match listing with
  | None => self
  | Some entries =>
      let image_files := sort (filter is_supported entries) in
      fold_left (add_image image_folder) image_files self
  end.

End Collector.

(** [str.lower] restricted to ASCII, where it is a map on code points. *)
Definition ascii_lower_char (c : char) : char :=
  if (65 <=? c) && (c <=? 90) then c + 32 else c.

Definition ascii_lower (s : pystr) : pystr := map ascii_lower_char s.

Definition is_ascii (s : pystr) : bool := forallb (fun c => c <? 128) s.

(** [set_metadata] *)
Definition set_metadata (self : EpubGenerator) (title0 author0 : option pystr)
  (language0 : pystr) : EpubGenerator :=
  let keep (old : pystr) (v : option pystr) :=
    match v with
    | Some s => if truthy s then s else old
    | None => old
    end in
  {| book_id := book_id self; chapters := chapters self;
     images := images self; cover_image := cover_image self;
     book_title := keep (book_title self) title0;
     author := keep (author self) author0;
     language := language0 |}.

(** ** Document assembler: the text of every generated part *)

(** [enumerate(l)] *)
Definition enumerate (A : Type) (l : list A) : list (nat * A) :=
  combine (seq 0 (List.length l)) l.

Section Assembler.

(** [mimetypes.guess_type(path)[0]], from the system's tables. *)
Variable guess_type : pystr -> option pystr.

(** [datetime.now().strftime('%Y-%m-%d')] at generation time. *)
Variable today : pystr.

(** [mimetypes.guess_type(p)[0] or 'image/jpeg'] *)
Definition mime_type_of (p : pystr) : pystr :=
  match guess_type p with
  | Some m => if truthy m then m else u "image/jpeg"
  | None => u "image/jpeg"
  end.

Definition image_page_id (i : nat) : pystr :=
  List.concat
    [ markup "image_page_";
      str_of_nat (i + 1) ].

Definition chapter_id (i : nat) : pystr :=
  List.concat
    [ markup "chapter_";
      str_of_nat (i + 1) ].

Definition image_page_item (i : nat) : pystr :=
  List.concat
    [ markup "    <item id=`";
      image_page_id i;
      markup "` href=`image_page_";
      str_of_nat (i + 1);
      markup ".xhtml` media-type=`application/xhtml+xml`/>" ].

Definition image_page_itemref (i : nat) : pystr :=
  List.concat
    [ markup "    <itemref idref=`";
      image_page_id i;
      markup "`/>" ].

Definition chapter_item (i : nat) : pystr :=
  List.concat
    [ markup "    <item id=`";
      chapter_id i;
      markup "` href=`chapter_";
      str_of_nat (i + 1);
      markup ".xhtml` media-type=`application/xhtml+xml`/>" ].

Definition chapter_itemref (i : nat) : pystr :=
  List.concat
    [ markup "    <itemref idref=`";
      chapter_id i;
      markup "`/>" ].

Definition cover_img_item (c : image) : pystr :=
  List.concat
    [ markup "    <item id=`cover_img` href=`images/";
      filename c;
      markup "` media-type=`";
      mime_type_of (path c);
      markup "`/>" ].

Definition image_item (img : image) : pystr :=
  List.concat
    [ markup "    <item id=`";
      id img;
      markup "` href=`images/";
      filename img;
      markup "` media-type=`";
      mime_type_of (path img);
      markup "`/>" ].

(** The list [manifest_items] as [_create_content_opf] builds it. *)
Definition manifest_items (self : EpubGenerator) : list pystr :=
  [ markup "    <item id=`cover` href=`cover.xhtml` media-type=`application/xhtml+xml`/>";
    markup "    <item id=`nav` href=`nav.xhtml` media-type=`application/xhtml+xml` properties=`nav`/>" ]
  ++ map (fun '(i, _) => image_page_item i) (enumerate (images self))
  ++ map (fun '(i, _) => chapter_item i) (enumerate (chapters self))
  ++ match cover_image self with
     | Some c => [cover_img_item c]
     | None => []
     end
  ++ map image_item (images self)
  ++ [ markup "    <item id=`ncx` href=`toc.ncx` media-type=`application/x-dtbncx+xml`/>" ].

(** The list [spine_items] as [_create_content_opf] builds it. *)
Definition spine_items (self : EpubGenerator) : list pystr :=
  [ markup "    <itemref idref=`cover`/>" ]
  ++ map (fun '(i, _) => image_page_itemref i) (enumerate (images self))
  ++ map (fun '(i, _) => chapter_itemref i) (enumerate (chapters self)).

Definition content_opf (self : EpubGenerator) : pystr :=
  let sanitized_title := _sanitize_title (book_title self) in
  List.concat
    [ markup "<?xml version=`1.0` encoding=`UTF-8`?>
<package xmlns=`http://www.idpf.org/2007/opf` unique-identifier=`bookid` version=`3.0`>
    <metadata xmlns:dc=`http://purl.org/dc/elements/1.1/` xmlns:opf=`http://www.idpf.org/2007/opf`>
        <dc:title>";
      sanitized_title;
      markup "</dc:title>
        <dc:creator>";
      author self;
      markup "</dc:creator>
        <dc:identifier id=`bookid`>";
      book_id self;
      markup "</dc:identifier>
        <dc:language>";
      language self;
      markup "</dc:language>
        <dc:date>";
      today;
      markup "</dc:date>
        ";
      (match cover_image self with
       | Some _ => u "<meta name='cover' content='cover_img'/>"
       | None => []
       end);
      markup "
    </metadata>
    <manifest>
";
      join [NL] (manifest_items self);
      markup "
    </manifest>
    <spine>
";
      join [NL] (spine_items self);
      markup "
    </spine>
</package>" ].

Definition cover_html (self : EpubGenerator) : pystr :=
  _sanitize_content
   (List.concat
     [ markup "<?xml version=`1.0` encoding=`UTF-8`?>
<!DOCTYPE html>
<html xmlns=`http://www.w3.org/1999/xhtml`>
<head>
    <title>";
       book_title self;
       markup "</title>
    <style type=`text/css`>
        body {
            display: flex;
            flex-direction: column;
            justify-content: center;
            align-items: center;
            height: 100vh;
            margin: 0;
            padding: 0;
            text-align: center;
            font-family: serif;
        }
        h1 {
            font-size: 3em;
            color: #0066cc;
            margin: 0.5em 0;
            text-align: center;
            font-weight: bold;
        }
        .author {
            font-size: 1.2em;
            color: #666;
            margin-top: 1em;
        }
        .book-info {
            text-align: center;
            padding: 2em;
        }
    </style>
</head>
<body>
    <main class=`book-info`>
        <h1>";
       book_title self;
       markup "</h1>
        <p class=`author`>";
       author self;
       markup "</p>
    </main>
</body>
</html>" ]).

Definition nav_point (i play_order : nat) (ch : chapter) : pystr :=
  List.concat
    [ markup "    <navPoint id=`navpoint-";
      str_of_nat (i + 1);
      markup "` playOrder=`";
      str_of_nat play_order;
      markup "`>
        <navLabel>
            <text>";
      title ch;
      markup "</text>
        </navLabel>
        <content src=`chapter_";
      str_of_nat (i + 1);
      markup ".xhtml`/>
    </navPoint>" ].

(** [play_order] starts at 1 and grows by one per chapter: it is [i + 1]. *)
Definition toc_ncx (self : EpubGenerator) : pystr :=
  let nav_points :=
    map (fun '(i, ch) => nav_point i (i + 1) ch) (enumerate (chapters self)) in
  List.concat
    [ markup "<?xml version=`1.0` encoding=`UTF-8`?>
<ncx xmlns=`http://www.daisy.org/z3986/2005/ncx/` version=`2005-1`>
    <head>
        <meta name=`dtb:uid` content=`";
      book_id self;
      markup "`/>
        <meta name=`dtb:depth` content=`1`/>
        <meta name=`dtb:totalPageCount` content=`0`/>
        <meta name=`dtb:maxPageNumber` content=`0`/>
    </head>
    <docTitle>
        <text>";
      book_title self;
      markup "</text>
    </docTitle>
    <navMap>
";
      join [NL] nav_points;
      markup "
    </navMap>
</ncx>" ].

Definition nav_item (i : nat) (ch : chapter) : pystr :=
  List.concat
    [ markup "        <li><a href=`chapter_";
      str_of_nat (i + 1);
      markup ".xhtml`>";
      title ch;
      markup "</a></li>" ].

Definition nav_xhtml (self : EpubGenerator) : pystr :=
  let nav_items :=
    map (fun '(i, ch) => nav_item i ch) (enumerate (chapters self)) in
  List.concat
    [ markup "<?xml version=`1.0` encoding=`UTF-8`?>
<!DOCTYPE html>
<html xmlns=`http://www.w3.org/1999/xhtml` xmlns:epub=`http://www.idpf.org/2007/ops`>
<head>
    <title>";
      book_title self;
      markup "</title>
    <meta charset=`utf-8`/>
</head>
<body>
    <nav epub:type=`toc` id=`toc`>
        <h1>目录</h1>
        <ol>
";
      join [NL] nav_items;
      markup "
        </ol>
    </nav>
</body>
</html>" ].

Definition image_html (i : nat) (img : image) : pystr :=
  _sanitize_content
   (List.concat
     [ markup "<?xml version=`1.0` encoding=`UTF-8`?>
<!DOCTYPE html PUBLIC `-//W3C//DTD XHTML 1.1//EN` `http://www.w3.org/TR/xhtml11/DTD/xhtml11.dtd`>
<html xmlns=`http://www.w3.org/1999/xhtml`>
<head>
    <title>Image ";
       str_of_nat (i + 1);
       markup "</title>
    <style type=`text/css`>
        body {
            margin: 0;
            padding: 0;
            display: flex;
            justify-content: center;
            align-items: center;
            min-height: 100vh;
            background-color: #ffffff;
        }
        .image-container {
            text-align: center;
            max-width: 100%;
            max-height: 100vh;
        }
        .image-container img {
            max-width: 100%;
            max-height: 100vh;
            height: auto;
            width: auto;
        }
    </style>
</head>
<body>
    <section class=`image-container`>
        <img src=`images/";
       filename img;
       markup "` alt=`Image`/>
    </section>
</body>
</html>" ]).

(** The inner loop of [_create_chapters_html] on one line of the body. *)
Definition paragraph_of (raw : pystr) : list pystr :=
  let line := strip raw in
  if truthy line then
    if startswith (u "[图片") line || startswith (u "![") line then []
    else [List.concat
          [ markup "<p>";
            line;
            markup "</p>" ]]
  else [].

Definition content_paragraphs (ch : chapter) : list pystr :=
  flat_map paragraph_of (split NL (content ch)).

Definition book_title_heading (self : EpubGenerator) : pystr :=
  List.concat
    [ markup "<h1 class=`book-title`>";
      book_title self;
      markup "</h1>" ].

Definition chapter_html (self : EpubGenerator) (i : nat) (ch : chapter) : pystr :=
  let page_break_before :=
    if (i =? 0)%nat then u "page-break-before: always;" else [] in
  _sanitize_content
   (List.concat
     [ markup "<?xml version=`1.0` encoding=`UTF-8`?>
<!DOCTYPE html PUBLIC `-//W3C//DTD XHTML 1.1//EN` `http://www.w3.org/TR/xhtml11/DTD/xhtml11.dtd`>
<html xmlns=`http://www.w3.org/1999/xhtml`>
<head>
    <title>";
       title ch;
       markup "</title>
    <style type=`text/css`>
        body {
            font-family: serif;
            line-height: 1.6;
            margin: 1em 2em;
        }
        .book-title {
            font-size: 2.5em;
            color: #0066cc;
            text-align: center;
            border-bottom: 2px solid #0066cc;
            padding-bottom: 0.5em;
            margin: 1.5em 0 2em 0;
            font-weight: bold;
        }
        .chapter-title {
            font-size: 2em;
            color: #0066cc;
            text-align: center;
            margin: 2em 0 1.5em 0;
            font-weight: bold;
            ";
       page_break_before;
       markup "
        }
        h1 {
            font-size: 2.5em;
            color: #0066cc;
            text-align: center;
            border-bottom: 2px solid #0066cc;
            padding-bottom: 0.5em;
            margin: 1.5em 0 2em 0;
            font-weight: bold;
        }
        h2 {
            font-size: 2em;
            color: #0066cc;
            text-align: center;
            margin: 2em 0 1.5em 0;
            font-weight: bold;
        }
        p {
            text-indent: 2em;
            margin: 0.8em 0;
            line-height: 1.8;
        }
        section {
            display: block;
            margin: 1em 0;
        }
    </style>
</head>
<body>
    ";
       (if (i =? 0)%nat then book_title_heading self else []);
       markup "
    <h1 class=`chapter-title`>";
       title ch;
       markup "</h1>
    ";
       join [NL] (content_paragraphs ch);
       markup "
</body>
</html>" ]).

End Assembler.

(** ** File system, archives and effects

    The working directory is a tree; a path is resolved from its root,
    empty and [.] components being skipped.  A leading separator and the
    parent reference [..] are not interpreted ([..] is taken as a name):
    the tree resolves a path as the system does when the path is relative
    and holds no [..], which is so for every path the program builds
    itself; for a path given by the caller it is a condition, written
    [local_path] where a property needs it.  A file holds raw text or, for
    an archive written by [zipfile], the list of its members in physical
    order. *)

Local Set Warnings "-register-all".

Inductive compression : Type := ZIP_STORED | ZIP_DEFLATED.

Inductive fdata : Type :=
| Raw (s : pystr)
| Archive (members : list (pystr * compression * fdata)).

Definition member : Type := (pystr * compression * fdata)%type.
Definition arcname (m : member) : pystr := fst (fst m).
Definition compress_type (m : member) : compression := snd (fst m).

Inductive node : Type :=
| File (d : fdata)
| Dir (entries : list (pystr * node)).

Inductive exn : Type :=
| FileNotFoundError | FileExistsError | NotADirectoryError
| IsADirectoryError | OSError.

Inductive result (A : Type) : Type :=
| Ok (a : A)
| Raise (e : exn).
Arguments Ok {A} a.
Arguments Raise {A} e.

Module Tree.

Definition parts (p : pystr) : list pystr :=
  filter (fun c => truthy c && negb (str_eqb c [DOT])) (split SEP p).

Fixpoint get (es : list (pystr * node)) (nm : pystr) : option node :=
  match es with
  | [] => None
  | (k, n) :: es' => if str_eqb k nm then Some n else get es' nm
  end.

Fixpoint set (es : list (pystr * node)) (nm : pystr) (n : node)
  : list (pystr * node) :=
  match es with
  | [] => [(nm, n)]
  | (k, m) :: es' =>
      if str_eqb k nm then (k, n) :: es' else (k, m) :: set es' nm n
  end.

Definition del (es : list (pystr * node)) (nm : pystr) : list (pystr * node) :=
  filter (fun e => negb (str_eqb (fst e) nm)) es.

Fixpoint lookup (cs : list pystr) (n : node) : option node :=
  match cs with
  | [] => Some n
  | c :: cs' =>
      match n with
      | Dir es =>
          match get es c with
          | Some ch => lookup cs' ch
          | None => None
          end
      | File _ => None
      end
  end.

(** Create or overwrite the file at [cs] ([open(p, 'w')] and the write). *)
Fixpoint store (cs : list pystr) (d : fdata) (n : node) : result node :=
  match n with
  | File _ => Raise NotADirectoryError
  | Dir es =>
      match cs with
      | [] => Raise IsADirectoryError
      | [c] =>
          match get es c with
          | Some (Dir _) => Raise IsADirectoryError
          | _ => Ok (Dir (set es c (File d)))
          end
      | c :: cs' =>
          match get es c with
          | None => Raise FileNotFoundError
          | Some ch =>
              match store cs' d ch with
              | Ok ch' => Ok (Dir (set es c ch'))
              | Raise e => Raise e
              end
          end
      end
  end.

(** [os.makedirs(p, exist_ok=True)] *)
Fixpoint mkdirs (cs : list pystr) (n : node) : result node :=
  match n with
  | File _ =>
      Raise (match cs with [] => FileExistsError | _ => NotADirectoryError end)
  | Dir es =>
      match cs with
      | [] => Ok n
      | c :: cs' =>
          let ch := match get es c with Some ch => ch | None => Dir [] end in
          match mkdirs cs' ch with
          | Ok ch' => Ok (Dir (set es c ch'))
          | Raise e => Raise e
          end
      end
  end.

(** Removal of the whole subtree at [cs]. *)
Fixpoint remove (cs : list pystr) (n : node) : node :=
  match cs, n with
  | [c], Dir es => Dir (del es c)
  | c :: cs', Dir es =>
      match get es c with
      | Some ch => Dir (set es c (remove cs' ch))
      | None => n
      end
  | _, _ => n
  end.

Definition dir_names (es : list (pystr * node)) : list pystr :=
  flat_map (fun e => match snd e with Dir _ => [fst e] | File _ => [] end) es.

Definition file_names (es : list (pystr * node)) : list pystr :=
  flat_map (fun e => match snd e with File _ => [fst e] | Dir _ => [] end) es.

(** [os.walk(top)], top-down: one triple (root, dirs, files) per
    directory, the directory itself before its subdirectories. *)
Fixpoint walk (top : pystr) (n : node)
  : list (pystr * list pystr * list pystr) :=
  match n with
  | File _ => []
  | Dir es =>
      (top, dir_names es, file_names es) ::
      (fix sub (l : list (pystr * node)) :=
         match l with
         | [] => []
         | (nm, ch) :: l' => walk (path_join top nm) ch ++ sub l'
         end) es
  end.

End Tree.

(** [os.path.relpath(p, start)]: the components of [p] after those it
    shares with [start], behind one [..] per remaining component of
    [start]; [.] when nothing is left. *)
Fixpoint rel_parts (p start : list pystr) : list pystr :=
  match p, start with
  | x :: p', y :: start' =>
      if str_eqb x y then rel_parts p' start'
      else repeat (u "..") (List.length start) ++ p
  | _, _ => repeat (u "..") (List.length start) ++ p
  end.

Definition relpath (p start : pystr) : pystr :=
  match rel_parts (Tree.parts p) (Tree.parts start) with
  | [] => [DOT]
  | rel => join [SEP] rel
  end.

(** The world: the tree, and the environment's decisions, one per system
    call that can fail for reasons outside the tree (permissions, a full
    disk): [true] makes the call raise [OSError]. *)
Record world : Type := { root : node; faults : list bool }.

Definition IO (A : Type) : Type := world -> result A * world.

Definition ret (A : Type) (a : A) : IO A := fun w => (Ok a, w).

Definition bind (A B : Type) (m : IO A) (k : A -> IO B) : IO B :=
  fun w =>
    match m w with
    | (Ok a, w') => k a w'
    | (Raise e, w') => (Raise e, w')
    end.

Definition raise (A : Type) (e : exn) : IO A := fun w => (Raise e, w).
Arguments raise {A} e.

Notation "x <- m ;; k" := (bind m (fun x => k))
  (at level 61, m at next level, right associativity).
Notation "m ;; k" := (bind m (fun _ => k))
  (at level 61, right associativity).

(** [try: body finally: cleanup] *)
Definition try_finally (A : Type) (body : IO A) (cleanup : IO unit) : IO A :=
  fun w =>
    let (r, w1) := body w in
    match cleanup w1 with
    | (Ok _, w2) => (r, w2)
    | (Raise e, w2) => (Raise e, w2)
    end.

Fixpoint for_each (A : Type) (l : list A) (f : A -> IO unit) : IO unit :=
  match l with
  | [] => ret tt
  | x :: l' => f x ;; for_each l' f
  end.

Definition fault : IO unit :=
  fun w =>
    match faults w with
    | [] => (Ok tt, w)
    | b :: rest =>
        let w' := {| root := root w; faults := rest |} in
        if b then (Raise OSError, w') else (Ok tt, w')
    end.

Definition on_tree (f : node -> result node) : IO unit :=
  fun w =>
    match f (root w) with
    | Ok n => (Ok tt, {| root := n; faults := faults w |})
    | Raise e => (Raise e, w)
    end.

Definition makedirs (p : pystr) : IO unit :=
  fault ;; on_tree (Tree.mkdirs (Tree.parts p)).

(** [with open(p, 'w') as f: f.write(s)] *)
Definition write_text (p s : pystr) : IO unit :=
  fault ;; on_tree (Tree.store (Tree.parts p) (Raw s)).

Definition read_data (p : pystr) : IO fdata :=
  fun w =>
    match Tree.lookup (Tree.parts p) (root w) with
    | Some (File d) => (Ok d, w)
    | Some (Dir _) => (Raise IsADirectoryError, w)
    | None => (Raise FileNotFoundError, w)
    end.

Definition isdir (p : pystr) : IO bool :=
  fun w =>
    match Tree.lookup (Tree.parts p) (root w) with
    | Some (Dir _) => (Ok true, w)
    | _ => (Ok false, w)
    end.

(** [os.path.exists] *)
Definition path_exists (p : pystr) : IO bool :=
  fun w =>
    match Tree.lookup (Tree.parts p) (root w) with
    | Some _ => (Ok true, w)
    | None => (Ok false, w)
    end.

(** [shutil.copy2(src, dst)]: into [dst] when that is a directory. *)
Definition copy2 (src dst : pystr) : IO unit :=
  fault ;;
  d <- isdir dst ;;
  let dst := if d then path_join dst (name src) else dst in
  data <- read_data src ;;
  on_tree (Tree.store (Tree.parts dst) data).

(** [shutil.rmtree(p)], called without [ignore_errors]: the removal can
    fail for reasons outside the tree (a permission, a file in use) and
    then raises; the directory itself is removed last, so a failed removal
    leaves it in place (it is taken to leave the whole tree as it was). *)
Definition rmtree (p : pystr) : IO unit :=
  fault ;;
  fun w =>
    match Tree.lookup (Tree.parts p) (root w) with
    | Some (Dir _) =>
        (Ok tt, {| root := Tree.remove (Tree.parts p) (root w);
                   faults := faults w |})
    | Some (File _) => (Raise NotADirectoryError, w)
    | None => (Raise FileNotFoundError, w)
    end.

Definition os_walk (top : pystr)
  : IO (list (pystr * list pystr * list pystr)) :=
  fun w =>
    match Tree.lookup (Tree.parts top) (root w) with
    | Some n => (Ok (Tree.walk top n), w)
    | None => (Ok [], w)
    end.

(** [zipfile.ZipFile(p, 'w', default)]: the archive file is created empty. *)
Definition zip_open (p : pystr) : IO unit :=
  fault ;; on_tree (Tree.store (Tree.parts p) (Archive [])).

(** [ZipFile.write(file, arc, compress_type)] on the archive at [zp];
    [compress_type=None] takes the archive's default. *)
Definition zip_write (zp : pystr) (default : compression)
  (file arc : pystr) (ct : option compression) : IO unit :=
  fault ;;
  data <- read_data file ;;
  z <- read_data zp ;;
  match z with
  | Archive ms =>
      let m := (arc, match ct with Some c => c | None => default end, data) in
      on_tree (Tree.store (Tree.parts zp) (Archive (ms ++ [m])))
  | Raw _ => raise OSError
  end.

(** Closing the archive writes its directory, which can fail. *)
Definition zip_close : IO unit := fault.

(** ** Archive packager: [generate_epub] and its steps *)

Section Packager.

Variable guess_type : pystr -> option pystr.
Variable today : pystr.

Definition _create_mimetype (temp_dir : pystr) : IO unit :=
  write_text (temp_dir ++ u "/mimetype") (u "application/epub+zip").

Definition container_content : pystr :=
  markup "<?xml version=`1.0` encoding=`UTF-8`?>
<container version=`1.0` xmlns=`urn:oasis:names:tc:opendocument:xmlns:container`>
    <rootfiles>
        <rootfile full-path=`OEBPS/content.opf` media-type=`application/oebps-package+xml`/>
    </rootfiles>
</container>".

Definition _create_container_xml (temp_dir : pystr) : IO unit :=
  write_text (temp_dir ++ u "/META-INF/container.xml") container_content.

Definition _create_content_opf (self : EpubGenerator) (temp_dir : pystr)
  : IO unit :=
  write_text (temp_dir ++ u "/OEBPS/content.opf")
             (content_opf guess_type today self) ;;
  write_text (temp_dir ++ u "/OEBPS/cover.xhtml") (cover_html self).

Definition _create_toc_ncx (self : EpubGenerator) (temp_dir : pystr) : IO unit :=
  write_text (temp_dir ++ u "/OEBPS/toc.ncx") (toc_ncx self).

Definition _create_nav_xhtml (self : EpubGenerator) (temp_dir : pystr)
  : IO unit :=
  write_text (temp_dir ++ u "/OEBPS/nav.xhtml") (nav_xhtml self).

Definition _create_image_pages (self : EpubGenerator) (temp_dir : pystr)
  : IO unit :=
  for_each (enumerate (images self)) (fun '(i, img) =>
    write_text
      (List.concat [temp_dir; u "/OEBPS/image_page_"; str_of_nat (i + 1);
                    u ".xhtml"])
      (image_html i img)).

Definition _create_chapters_html (self : EpubGenerator) (temp_dir : pystr)
  : IO unit :=
  for_each (enumerate (chapters self)) (fun '(i, ch) =>
    write_text
      (List.concat [temp_dir; u "/OEBPS/chapter_"; str_of_nat (i + 1);
                    u ".xhtml"])
      (chapter_html self i ch)).

Definition _copy_images (self : EpubGenerator) (temp_dir : pystr) : IO unit :=
  match cover_image self with
  | Some c =>
      copy2 (path c) (List.concat [temp_dir; u "/OEBPS/images/"; filename c])
  | None => ret tt
  end ;;
  for_each (images self) (fun img =>
    copy2 (path img)
          (List.concat [temp_dir; u "/OEBPS/images/"; filename img])).

(** The body of the [with] block of [_create_epub_zip]. *)
Definition zip_members (temp_dir output_path : pystr) : IO unit :=
  zip_write output_path ZIP_DEFLATED
            (temp_dir ++ u "/mimetype") (u "mimetype") (Some ZIP_STORED) ;;
  tree <- os_walk temp_dir ;;
  for_each tree (fun '(root, _, files) =>
    for_each files (fun file =>
      if str_eqb file (u "mimetype") then ret tt
      else
        let file_path := path_join root file in
        let arc_path := relpath file_path temp_dir in
        zip_write output_path ZIP_DEFLATED file_path arc_path None)).

Definition _create_epub_zip (temp_dir output_path : pystr) : IO unit :=
  zip_open output_path ;;
  try_finally (zip_members temp_dir output_path) zip_close.

Definition _cleanup_temp (temp_dir : pystr) : IO unit :=
  e <- path_exists temp_dir ;;
  if e then rmtree temp_dir else ret tt.

(** The four [os.makedirs] calls that precede the [try]. *)
Definition make_scratch (temp_dir : pystr) : IO unit :=
  makedirs temp_dir ;;
  makedirs (temp_dir ++ u "/META-INF") ;;
  makedirs (temp_dir ++ u "/OEBPS") ;;
  makedirs (temp_dir ++ u "/OEBPS/images").

(** The body of the [try] (console output is not modelled). *)
Definition package (self : EpubGenerator) (temp_dir output_path : pystr)
  : IO unit :=
  _create_mimetype temp_dir ;;
  _create_container_xml temp_dir ;;
  _create_content_opf self temp_dir ;;
  _create_toc_ncx self temp_dir ;;
  _create_nav_xhtml self temp_dir ;;
  _create_chapters_html self temp_dir ;;
  _create_image_pages self temp_dir ;;
  _copy_images self temp_dir ;;
  _create_epub_zip temp_dir output_path.

Definition temp_epub : pystr := u "temp_epub".

Definition generate_epub (self : EpubGenerator) (output_path : pystr)
  : IO unit :=
  let temp_dir := temp_epub in
  make_scratch temp_dir ;;
  try_finally (package self temp_dir output_path) (_cleanup_temp temp_dir).

End Packager.

(** ** Vocabulary of the properties *)

(** What it means for a pattern to match: [matches start r s k] says that
    [r] matches [s] at a position that is the start of the subject when
    [start] holds, and that is followed by [k].  An iteration of a star
    consumes at least one code point. *)
Inductive matches : bool -> regex -> pystr -> pystr -> Prop :=
| M_Empty start k : matches start Empty [] k
| M_Bos k : matches true Bos [] k
| M_Eos start k : at_eos k = true -> matches start Eos [] k
| M_Lit start c k : matches start (Lit c) [c] k
| M_Class start (p : char -> bool) c k :
    p c = true -> matches start (Class p) [c] k
| M_Cat start r1 r2 s1 s2 k :
    matches start r1 s1 (s2 ++ k) ->
    matches (start && negb (truthy s1)) r2 s2 k ->
    matches start (Cat r1 r2) (s1 ++ s2) k
| M_AltL start r1 r2 s k :
    matches start r1 s k -> matches start (Alt r1 r2) s k
| M_AltR start r1 r2 s k :
    matches start r2 s k -> matches start (Alt r1 r2) s k
| M_Star0 start r k : matches start (Star r) [] k
| M_StarS start r c s1 s2 k :
    matches start r (c :: s1) (s2 ++ k) ->
    matches false (Star r) s2 k ->
    matches start (Star r) (c :: s1 ++ s2) k.

(** No leading and no trailing whitespace. *)
Definition clean_ends (s : pystr) : Prop :=
  (forall c, hd_error s = Some c -> is_space c = false) /\
  (forall c, hd_error (rev s) = Some c -> is_space c = false).

Definition no_nl (l : pystr) : Prop := ~ In NL l.

(** The accumulator is a sequence of lines, each closed by a newline. *)
Definition unlines (ls : list pystr) : pystr :=
  List.concat (map (fun l => l ++ [NL]) ls).

(** The same text read backwards. *)
Definition rev_unlines (rs : list pystr) : pystr :=
  List.concat (map (fun l => NL :: rev l) rs).

Fixpoint drop_blank (ls : list pystr) : list pystr :=
  match ls with
  | [] => []
  | l :: ls' => if truthy l then ls else drop_blank ls'
  end.

(** No line of the chapter's content is a chapter-marker line. *)
Definition marker_free (ch : chapter) : Prop :=
  forall l, In l (split NL (content ch)) -> is_chapter_title l = false.

(** What the accumulator holds: stripped lines that matched no pattern,
    and empty lines. *)
Definition body_line (l : pystr) : Prop :=
  no_nl l /\ clean_ends l /\ is_chapter_title l = false.

Definition acc_ok (cur : pystr) : Prop :=
  exists ls, cur = unlines ls /\ Forall body_line ls.

(** One line of the spine, for the page with identifier [idref]. *)
Definition itemref (idref : pystr) : pystr :=
  markup "    <itemref idref=`" ++ idref ++ markup "`/>".

Definition str_le (a b : pystr) : Prop := str_leb a b = true.

(** The images appended for the files [fs] when [n] images are there. *)
Fixpoint numbered (folder : pystr) (n : nat) (fs : list pystr) : list image :=
  match fs with
  | [] => []
  | f :: fs' =>
      {| id := u "img_" ++ str_of_nat (n + 1);
         path := path_join folder f;
         filename := f |} :: numbered folder (S n) fs'
  end.

(** The entry [c] of the root is a directory. *)
Definition top_dir (c : pystr) (n : node) : Prop :=
  exists es sub, n = Dir es /\ Tree.get es c = Some (Dir sub).

(** [m] maintains the property [P] of the tree, whatever its outcome. *)
Definition keeps (P : node -> Prop) (A : Type) (m : IO A) : Prop :=
  forall w r w', m w = (r, w') -> P (root w) -> P (root w').

(** The archive at [zp] starts with the stored declaration entry and every
    later member is deflated. *)
Definition archive_ok (zp : list pystr) (n : node) : Prop :=
  exists data rest,
    Tree.lookup zp n =
      Some (File (Archive ((u "mimetype", ZIP_STORED, data) :: rest))) /\
    Forall (fun m => compress_type m = ZIP_DEFLATED) rest.

(** The four shapes of a chapter-marker line, pattern by pattern. *)
Definition numeral_marker (line : pystr) : Prop :=
  exists ns rest,
    ns <> [] /\ forallb in_numeral_class ns = true /\
    line = u "第" ++ ns ++ u "章" ++ rest.

Definition english_marker (line : pystr) : Prop :=
  exists ws ds rest,
    forallb is_space ws = true /\ ds <> [] /\ forallb is_digit ds = true /\
    line = u "Chapter" ++ ws ++ ds ++ rest.

Definition numbered_marker (line : pystr) : Prop :=
  exists ds rest,
    ds <> [] /\ forallb is_digit ds = true /\ line = ds ++ DOT :: rest.

Definition bracket_marker (line : pystr) : Prop :=
  exists mid, line = u "【" ++ mid ++ u "】".

(** [subseq l1 l2]: [l1] is [l2] with some elements left out, the order
    kept. *)
Inductive subseq (A : Type) : list A -> list A -> Prop :=
| subseq_nil l : subseq [] l
| subseq_skip x l1 l2 : subseq l1 l2 -> subseq l1 (x :: l2)
| subseq_take x l1 l2 : subseq l1 l2 -> subseq (x :: l1) (x :: l2).

(** The marker lines of a text, trimmed, in the order they come. *)
Definition marker_lines (lines : list pystr) : list pystr :=
  filter is_chapter_title (map strip lines).

(** The pattern [<[^>]+>] of [_sanitize_title] matches at no position
    of [s]. *)
Fixpoint tag_free (s : pystr) : Prop :=
  match s with
  | [] => True
  | _ :: s' => match_tag s = None /\ tag_free s'
  end.

(** The number a decimal string denotes ([int(s)]). *)
Definition decimal_value (s : pystr) : N :=
  fold_right (fun c a => (c - 48) + 10 * a) 0 (rev s).

(** The identifier and the file name of the page of chapter [i] (counted
    from 0), and of the page of image [i]. *)
Definition chapter_ident (i : nat) : pystr := u "chapter_" ++ str_of_nat (i + 1).
Definition chapter_file (i : nat) : pystr := chapter_ident i ++ u ".xhtml".
Definition image_page_ident (i : nat) : pystr :=
  u "image_page_" ++ str_of_nat (i + 1).
Definition image_page_file (i : nat) : pystr := image_page_ident i ++ u ".xhtml".

(** One line of the manifest for a page. *)
Definition page_item (ident file : pystr) : pystr :=
  markup "    <item id=`" ++ ident ++ markup "` href=`" ++ file
  ++ markup "` media-type=`application/xhtml+xml`/>".

(** The files that the loops of [_create_epub_zip] add to the archive, in
    the order of the walk: all but those named mimetype. *)
Definition walked_files (tree : list (pystr * list pystr * list pystr))
  : list pystr :=
  flat_map (fun t : pystr * list pystr * list pystr =>
              let '(root, _, files) := t in
              map (path_join root)
                  (filter (fun f => negb (str_eqb f (u "mimetype"))) files))
           tree.

(** Name and compression of an archive member. *)
Definition member_key (m : member) : pystr * compression :=
  (arcname m, compress_type m).

(** The entry [c] of the working directory. *)
Definition top_entry (c : pystr) (n : node) : option node :=
  match n with
  | Dir es => Tree.get es c
  | File _ => None
  end.

(** The path [cs] leads to a regular file. *)
Definition is_file (cs : list pystr) (n : node) : Prop :=
  exists d, Tree.lookup cs n = Some (File d).

(** No component list of [p] starts with [c]. *)
Definition not_under (c p : pystr) : Prop :=
  forall cs, Tree.parts p <> c :: cs.

(** The entry [c2] of the directory [c1] of the working directory. *)
Definition inner_entry (c1 c2 : pystr) (n : node) : option node :=
  match top_entry c1 n with
  | Some ch => top_entry c2 ch
  | None => None
  end.

(** The component list [p] neither is [c1] itself nor goes through the
    entry [c2] of [c1]. *)
Definition beside (c1 c2 : pystr) (p : list pystr) : Prop :=
  p <> [c1] /\ forall cs, p <> c1 :: c2 :: cs.

(** The archive at [zp] starts with the member [m0] and every later member
    is deflated. *)
Definition archive_from (m0 : member) (zp : list pystr) (n : node) : Prop :=
  exists rest,
    Tree.lookup zp n = Some (File (Archive (m0 :: rest))) /\
    Forall (fun m => compress_type m = ZIP_DEFLATED) rest.

(** A file or directory name as [os.listdir] gives them: not empty, not
    [.], without separator. *)
Definition plain_name (f : pystr) : Prop :=
  ~ In SEP f /\ f <> [] /\ f <> [DOT].

(** The pages and documents that [generate_epub] writes into the folder
    OEBPS of the scratch directory, by file name, with their text. *)
Definition oebps_parts (guess_type : pystr -> option pystr) (today : pystr)
  (self : EpubGenerator) : list (pystr * pystr) :=
  [ (u "content.opf", content_opf guess_type today self);
    (u "cover.xhtml", cover_html self);
    (u "toc.ncx", toc_ncx self);
    (u "nav.xhtml", nav_xhtml self) ]
  ++ map (fun p : nat * chapter =>
            (chapter_file (fst p), chapter_html self (fst p) (snd p)))
         (enumerate (chapters self))
  ++ map (fun p : nat * image =>
            (image_page_file (fst p), image_html (fst p) (snd p)))
         (enumerate (images self)).

(** A path that the tree resolves as the system does: relative to the
    working directory and without a reference to a parent directory. *)
Definition local_path (p : pystr) : Prop :=
  startswith [SEP] p = false /\ ~ In (u "..") (Tree.parts p).

(** An image whose file is named by such a path and is copied under a
    name without a reference to a parent directory. *)
Definition local_image (img : image) : Prop :=
  local_path (path img) /\ ~ In (u "..") (Tree.parts (filename img)).

(** The cover, when there is one, and the ordinary images. *)
Definition all_images (self : EpubGenerator) : list image :=
  match cover_image self with
  | Some c => c :: images self
  | None => images self
  end.

(** The lines of a chapter's content that give a paragraph of its page:
    those that are not blank and are not an image placeholder; and the
    paragraph of such a line. *)
Definition shown_line (l : pystr) : bool :=
  truthy l && negb (startswith (u "[图片") l) && negb (startswith (u "![") l).

Definition paragraph (l : pystr) : pystr :=
  markup "<p>" ++ l ++ markup "</p>".

(** Equality up to the case of ASCII letters. *)
Definition ci_equal (a b : pystr) : Prop := ascii_lower a = ascii_lower b.

Definition image_extensions : list pystr :=
  [u "jpg"; u "jpeg"; u "png"; u "gif"; u "bmp"; u "webp"].

(** The name of [file] is stem.ext, with a stem that is not empty and an
    extension, without a dot, that is one of the six up to case. *)
Definition has_image_extension (file : pystr) : Prop :=
  exists st ext e,
    name file = st ++ DOT :: ext /\ st <> [] /\ ext <> [] /\
    ~ In DOT ext /\ In e image_extensions /\ ci_equal ext e.

(** The text cover, in whatever case, or 封面 occurs in [file]. *)
Definition reads_as_cover (file : pystr) : Prop :=
  exists a c b,
    file = a ++ c ++ b /\ (ci_equal c (u "cover") \/ c = u "封面").

(** [str.lower] changes the ASCII letters of [s] only: [s] has no cased
    letter outside ASCII. *)
Definition ascii_cased (lower : pystr -> pystr) (s : pystr) : Prop :=
  lower s = ascii_lower s.

(** * Properties *)

(** ** Strings *)

Lemma str_eqb_eq (a b : pystr) : str_eqb a b = true <-> a = b.
Proof.
  revert b; induction a as [|x a IH]; intros [|y b]; simpl;
    try (split; [discriminate | congruence]); try tauto.
  rewrite andb_true_iff, N.eqb_eq, IH.
  split; [intros [-> ->]; reflexivity | intros H; inversion H; auto].
Qed.

Lemma str_eqb_refl (a : pystr) : str_eqb a a = true.
Proof. apply str_eqb_eq; reflexivity. Qed.

Lemma str_eqb_neq (a b : pystr) : str_eqb a b = false <-> a <> b.
Proof.
  rewrite <- str_eqb_eq. destruct (str_eqb a b); split; congruence.
Qed.

Lemma truthy_false (s : pystr) : truthy s = false <-> s = [].
Proof. destruct s; simpl; split; congruence. Qed.

Lemma dropwhile_idem (p : char -> bool) (s : pystr) :
  dropwhile p (dropwhile p s) = dropwhile p s.
Proof.
  induction s as [|c s IH]; simpl; auto.
  destruct (p c) eqn:E; auto. simpl. now rewrite E.
Qed.

Lemma dropwhile_head (p : char -> bool) (s : pystr) (c : char) :
  hd_error (dropwhile p s) = Some c -> p c = false.
Proof.
  induction s as [|x s IH]; simpl; [discriminate|].
  destruct (p x) eqn:E; auto. simpl. congruence.
Qed.

Lemma dropwhile_fixed (p : char -> bool) (s : pystr) :
  (forall c, hd_error s = Some c -> p c = false) -> dropwhile p s = s.
Proof.
  destruct s as [|x s]; simpl; auto. intros H. now rewrite (H x eq_refl).
Qed.

Lemma dropwhile_snoc (p : char -> bool) (s : pystr) (c : char) :
  p c = false -> dropwhile p (s ++ [c]) = dropwhile p s ++ [c].
Proof.
  intros Hc. induction s as [|x s IH]; simpl.
  - now rewrite Hc.
  - destruct (p x); auto.
Qed.

Lemma rstrip_cons (c : char) (s : pystr) :
  is_space c = false -> rstrip (c :: s) = c :: rstrip s.
Proof.
  intros Hc. unfold rstrip. simpl.
  rewrite dropwhile_snoc by assumption.
  now rewrite rev_app_distr.
Qed.

Lemma rstrip_idem (s : pystr) : rstrip (rstrip s) = rstrip s.
Proof.
  unfold rstrip. now rewrite rev_involutive, dropwhile_idem.
Qed.

Lemma strip_cases (s : pystr) :
  strip s = [] \/
  exists c t, lstrip s = c :: t /\ is_space c = false /\ strip s = c :: rstrip t.
Proof.
  unfold strip. destruct (lstrip s) as [|c t] eqn:E.
  - left. reflexivity.
  - right. exists c, t.
    assert (Hc : is_space c = false).
    { apply (dropwhile_head is_space s). unfold lstrip in E. now rewrite E. }
    repeat split; auto. now apply rstrip_cons.
Qed.

Lemma strip_idem (s : pystr) : strip (strip s) = strip s.
Proof.
  destruct (strip_cases s) as [E | (c & t & _ & Hc & E)]; rewrite E.
  - reflexivity.
  - unfold strip, lstrip. simpl. rewrite Hc.
    rewrite rstrip_cons by assumption. now rewrite rstrip_idem.
Qed.

Lemma strip_clean_ends (s : pystr) : clean_ends (strip s).
Proof.
  split; intros c H.
  - destruct (strip_cases s) as [E | (c' & t & _ & Hc & E)]; rewrite E in H;
      simpl in H; congruence.
  - unfold strip, rstrip in H. rewrite rev_involutive in H.
    now apply dropwhile_head in H.
Qed.

(** ** Regular expressions *)

Lemma matches_cat_inv (start : bool) (r1 r2 : regex) (s k : pystr) :
  matches start (Cat r1 r2) s k ->
  exists s1 s2, s = s1 ++ s2 /\ matches start r1 s1 (s2 ++ k) /\
                matches (start && negb (truthy s1)) r2 s2 k.
Proof. intros H. inversion H; subst. eauto. Qed.

Lemma matches_star_inv (start : bool) (r : regex) (s k : pystr) :
  matches start (Star r) s k ->
  s = [] \/
  exists c s1 s2, s = c :: s1 ++ s2 /\ matches start r (c :: s1) (s2 ++ k) /\
                  matches false (Star r) s2 k.
Proof. intros H. inversion H; subst; [left | right]; eauto 6. Qed.

Lemma matches_alt_inv (start : bool) (r1 r2 : regex) (s k : pystr) :
  matches start (Alt r1 r2) s k -> matches start r1 s k \/ matches start r2 s k.
Proof. intros H. inversion H; subst; auto. Qed.

Lemma matches_cat_nil (start : bool) (r1 r2 : regex) (s k : pystr) :
  matches start r1 [] (s ++ k) -> matches start r2 s k ->
  matches start (Cat r1 r2) s k.
Proof.
  intros H1 H2. apply (M_Cat (s1 := []) (s2 := s)); simpl; auto.
  now rewrite andb_true_r.
Qed.

Lemma matches_cat_cons (start : bool) (r1 r2 : regex) (c : char)
  (s1 s2 k : pystr) :
  matches start r1 (c :: s1) (s2 ++ k) -> matches false r2 s2 k ->
  matches start (Cat r1 r2) (c :: s1 ++ s2) k.
Proof.
  intros H1 H2. apply (M_Cat (s1 := c :: s1) H1). simpl.
  now rewrite andb_false_r.
Qed.

Lemma nullable_correct (start : bool) (k : pystr) (r : regex) :
  nullable start k r = true <-> matches start r [] k.
Proof.
  induction r as [| | | |c|p|r1 IH1 r2 IH2|r1 IH1 r2 IH2|r1 IH1]; simpl.
  - split; [discriminate | intros H; inversion H].
  - split; [constructor | reflexivity].
  - split; [intros ->; constructor | intros H; now inversion H].
  - split; [now constructor | intros H; now inversion H].
  - split; [discriminate | intros H; inversion H].
  - split; [discriminate | intros H; inversion H].
  - rewrite andb_true_iff, IH1, IH2. split.
    + intros [H1 H2]. now apply matches_cat_nil.
    + intros H. apply matches_cat_inv in H.
      destruct H as (s1 & s2 & E & H1 & H2). symmetry in E.
      apply app_eq_nil in E. destruct E as [-> ->]. simpl in *.
      rewrite andb_true_r in H2. auto.
  - rewrite orb_true_iff, IH1, IH2. split.
    + intros [H|H]; [now apply M_AltL | now apply M_AltR].
    + apply matches_alt_inv.
  - split; [constructor | reflexivity].
Qed.

Lemma deriv_correct (start : bool) (c : char) (r : regex) (s k : pystr) :
  matches false (deriv start (c :: s ++ k) c r) s k <->
  matches start r (c :: s) k.
Proof.
  revert s k.
  induction r as [| | | |d|p|r1 IH1 r2 IH2|r1 IH1 r2 IH2|r1 IH1];
    intros s k; simpl.
  - split; intros H; inversion H.
  - split; intros H; inversion H.
  - split; intros H; inversion H.
  - split; intros H; inversion H.
  - destruct (N.eqb_spec c d) as [->|Hne]; split; intros H; inversion H;
      subst; try constructor; congruence.
  - destruct (p c) eqn:E; split; intros H; inversion H; subst;
      try (now constructor); congruence.
  - assert (L : matches false (Cat (deriv start (c :: s ++ k) c r1) r2) s k ->
                matches start (Cat r1 r2) (c :: s) k).
    { intros H. apply matches_cat_inv in H.
      destruct H as (s1 & s2 & -> & H1 & H2). simpl in H2.
      rewrite <- app_assoc in H1. apply IH1 in H1.
      now apply matches_cat_cons. }
    assert (R : matches false (deriv start (c :: s ++ k) c r2) s k ->
                nullable start (c :: s ++ k) r1 = true ->
                matches start (Cat r1 r2) (c :: s) k).
    { intros H N. apply nullable_correct in N. apply IH2 in H.
      now apply matches_cat_nil. }
    split.
    + destruct (nullable start (c :: s ++ k) r1) eqn:N; auto.
      intros H. apply matches_alt_inv in H. destruct H; auto.
    + intros H. apply matches_cat_inv in H.
      destruct H as (s1 & s2 & E & H1 & H2).
      destruct s1 as [|x s1]; simpl in E.
      * subst s2. simpl in H1, H2. rewrite andb_true_r in H2.
        apply nullable_correct in H1. rewrite H1.
        apply M_AltR. now apply IH2.
      * inversion E; subst x s. apply IH1 in H1. simpl in H2.
        rewrite andb_false_r in H2. rewrite app_assoc in H1.
        assert (C : matches false
                      (Cat (deriv start (c :: (s1 ++ s2) ++ k) c r1) r2)
                      (s1 ++ s2) k).
        { apply (M_Cat H1). exact H2. }
        destruct (nullable start (c :: (s1 ++ s2) ++ k) r1);
          [now apply M_AltL | exact C].
  - split; intros H.
    + apply matches_alt_inv in H.
      destruct H as [H|H]; [apply M_AltL, IH1 | apply M_AltR, IH2]; exact H.
    + apply matches_alt_inv in H.
      destruct H as [H|H]; [apply M_AltL, IH1 | apply M_AltR, IH2]; exact H.
  - split; intros H.
    + apply matches_cat_inv in H.
      destruct H as (s1 & s2 & -> & H1 & H2). simpl in H2.
      rewrite <- app_assoc in H1. apply IH1 in H1.
      now apply M_StarS.
    + apply matches_star_inv in H.
      destruct H as [E | (x & s1 & s2 & E & H1 & H2)]; [discriminate|].
      inversion E; subst x s. apply IH1 in H1. rewrite app_assoc in H1.
      apply (M_Cat H1). exact H2.
Qed.

(** The matcher decides whether the pattern matches a prefix. *)
Theorem match_here_correct (s : pystr) (start : bool) (r : regex) :
  match_here start r s = true <->
  exists s1 k, s = s1 ++ k /\ matches start r s1 k.
Proof.
  revert start r. induction s as [|c s IH]; intros start r; simpl.
  - rewrite orb_false_r, nullable_correct. split.
    + intros H. now exists [], [].
    + intros (s1 & k & E & H). symmetry in E. apply app_eq_nil in E.
      destruct E as [-> ->]. exact H.
  - rewrite orb_true_iff, nullable_correct, IH. split.
    + intros [H | (s1 & k & -> & H)].
      * now exists [], (c :: s).
      * exists (c :: s1), k. split; [reflexivity|]. now apply deriv_correct.
    + intros (s1 & k & E & H). destruct s1 as [|x s1]; simpl in E.
      * subst k. now left.
      * inversion E; subst x s. right. exists s1, k.
        split; [reflexivity|]. now apply deriv_correct.
Qed.

(** ** Text segmenter *)

(** The patterns on sample lines: each line with the index of the pattern
    that recognises it. *)
Example first_match_samples :
  map (fun s => first_match chapter_patterns (u s))
      ["第1章 开端"; "第十二章"; "第章"; "Chapter 12"; "Chapter"; "12. abc";
       "1"; "【序】"; "【序】x"; "x第1章"]%string =
  [Some 0; Some 0; None; Some 1; None; Some 2;
   None; Some 3; None; None]%nat.
Proof. vm_compute. reflexivity. Qed.

Example sanitize_samples :
  _sanitize_title (u " a <i>b</i> <> c ") = u "a b <> c" /\
  _sanitize_content (markup "<div class=`x`>t</div><divider>") =
    markup "<section class=`x`>t</section><divider>".
Proof. vm_compute. split; reflexivity. Qed.

Lemma close_chapter_inv (P : chapter -> Prop) (chs : list chapter)
  (ttl cur : pystr) :
  Forall P chs ->
  (truthy (strip cur) = true -> P {| title := ttl; content := strip cur |}) ->
  Forall P (close_chapter chs ttl cur).
Proof.
  intros H HP. unfold close_chapter.
  destruct (truthy (strip cur)); auto.
  apply Forall_app; split; auto.
Qed.

Lemma fold_left_inv (A B : Type) (f : A -> B -> A) (I : A -> Prop) (l : list B) :
  (forall a b, I a -> I (f a b)) -> forall a, I a -> I (fold_left f l a).
Proof.
  intros Hf. induction l as [|b l IH]; simpl; auto.
Qed.

(** Every chapter the loop and the final append add has trimmed content. *)
Lemma flush_trimmed (chs : list chapter) (lines : list pystr) :
  Forall (fun ch => strip (content ch) = content ch) chs ->
  Forall (fun ch => strip (content ch) = content ch)
         (flush (scan_lines chs lines)).
Proof.
  intros H. unfold flush, scan_lines.
  apply close_chapter_inv; [| intros _; apply strip_idem].
  apply fold_left_inv with (I := fun st =>
    Forall (fun ch => strip (content ch) = content ch) (sc_chapters st));
    [| exact H].
  intros st raw Hst. unfold scan_line.
  destruct (negb (truthy (strip raw))); simpl; auto.
  destruct (is_chapter_title (strip raw)); simpl; auto.
  apply close_chapter_inv; [assumption | intros _; apply strip_idem].
Qed.

(** C10: after [read_txt_file], every chapter's content equals its own
    [strip()], so it neither begins nor ends with whitespace; this holds
    for the chapters closed at a marker, for the one appended at the end of
    the input and for the synthetic one (chapters already in the list must
    have been trimmed, as those of an earlier call are). *)
Theorem C10_contents_trimmed (self : EpubGenerator) (txt_path content0 : pystr) :
  Forall (fun ch => strip (content ch) = content ch) (chapters self) ->
  Forall (fun ch => strip (content ch) = content ch /\ clean_ends (content ch))
         (chapters (read_txt_file self txt_path content0)).
Proof.
  intros H.
  assert (G : Forall (fun ch => strip (content ch) = content ch)
                (chapters (read_txt_file self txt_path content0))).
  { unfold read_txt_file.
    destruct (take_title (book_title self) content0) as [ttl0 content1].
    simpl. unfold ensure_chapter.
    pose proof (flush_trimmed (split NL content1) H) as F.
    destruct (flush (scan_lines (chapters self) (split NL content1))).
    - constructor; [apply strip_idem | constructor].
    - exact F. }
  apply Forall_impl with (2 := G).
  intros ch E. split; [exact E|]. rewrite <- E. apply strip_clean_ends.
Qed.

Lemma C10_contents_trimmed_witness :
  Forall (fun ch => strip (content ch) = content ch /\ clean_ends (content ch))
    (chapters (read_txt_file (__init__ (u "id")) (u "book.txt")
       (u "Title
  intro  

Chapter 1
 body "))).
Proof.
  apply C10_contents_trimmed. simpl. constructor.
Defined.

(** C1: after [read_txt_file] the chapter list is never empty.  When the
    scanning loop and the append that follows it leave the list empty, it
    holds exactly one chapter, titled with the document title and holding
    the trimmed text that follows the title line; otherwise it is the list
    the scan produced. *)
Theorem C1_chapters_never_empty (self : EpubGenerator) (txt_path content0 : pystr) :
  let self' := read_txt_file self txt_path content0 in
  let rest := snd (take_title (book_title self) content0) in
  let scanned := flush (scan_lines (chapters self) (split NL rest)) in
  chapters self' <> [] /\
  (scanned = [] ->
     chapters self' =
       [{| title := book_title self'; content := strip rest |}]) /\
  (scanned <> [] -> chapters self' = scanned).
Proof.
  unfold read_txt_file.
  destruct (take_title (book_title self) content0) as [ttl0 content1].
  simpl.
  destruct (flush (scan_lines (chapters self) (split NL content1))) as [|c l];
    simpl; repeat split; congruence.
Qed.

(** *** Lines of a text *)

Lemma split_no_nl (l : pystr) : no_nl l -> split NL l = [l].
Proof.
  unfold no_nl. induction l as [|c l IH]; simpl; auto.
  intros H. destruct (N.eqb_spec c NL) as [->|_]; [tauto|].
  rewrite IH by tauto. reflexivity.
Qed.

Lemma split_app_nl (l s : pystr) :
  no_nl l -> split NL (l ++ NL :: s) = l :: split NL s.
Proof.
  unfold no_nl. induction l as [|c l IH]; simpl; intros H.
  - reflexivity.
  - destruct (N.eqb_spec c NL) as [->|_]; [tauto|].
    rewrite IH by tauto. reflexivity.
Qed.

Lemma split_parts_no_nl (s : pystr) : Forall no_nl (split NL s).
Proof.
  induction s as [|c s IH]; simpl.
  - repeat constructor. intros [].
  - destruct (N.eqb_spec c NL) as [->|Hc].
    + constructor; [intros [] | exact IH].
    + destruct (split NL s) as [|l ls]; [repeat constructor|].
      * intros [E|[]]. congruence.
      * inversion IH; subst. constructor; auto.
        intros [E|HIn]; [congruence | contradiction].
Qed.

Lemma split_join (ls : list pystr) :
  ls <> [] -> Forall no_nl ls -> split NL (join [NL] ls) = ls.
Proof.
  induction ls as [|l ls IH]; [congruence|]. intros _ H.
  inversion H as [|? ? Hl Hls]; subst.
  destruct ls as [|l2 r].
  - simpl. now apply split_no_nl.
  - change (join [NL] (l :: l2 :: r)) with (l ++ NL :: join [NL] (l2 :: r)).
    rewrite split_app_nl by assumption.
    rewrite IH; [reflexivity | discriminate | assumption].
Qed.

Lemma dropwhile_incl (p : char -> bool) (s : pystr) (c : char) :
  In c (dropwhile p s) -> In c s.
Proof.
  induction s as [|x s IH]; simpl; auto.
  destruct (p x); simpl; tauto.
Qed.

Lemma strip_incl (s : pystr) (c : char) : In c (strip s) -> In c s.
Proof.
  unfold strip, rstrip, lstrip. intros H.
  apply in_rev in H. apply dropwhile_incl in H. apply in_rev in H.
  now apply dropwhile_incl in H.
Qed.

Lemma strip_no_nl (s : pystr) : no_nl s -> no_nl (strip s).
Proof. unfold no_nl. intros H Hc. apply H. now apply strip_incl. Qed.

Lemma drop_blank_incl (ls : list pystr) (l : pystr) :
  In l (drop_blank ls) -> In l ls.
Proof.
  induction ls as [|x ls IH]; simpl; auto.
  destruct (truthy x); simpl; tauto.
Qed.

Lemma unlines_snoc (ls : list pystr) (l : pystr) :
  unlines (ls ++ [l]) = unlines ls ++ l ++ [NL].
Proof.
  unfold unlines. rewrite map_app, concat_app. simpl.
  now rewrite app_nil_r.
Qed.

Lemma rev_unlines_rev (ls : list pystr) :
  rev (unlines ls) = rev_unlines (rev ls).
Proof.
  induction ls as [|l ls IH]; [reflexivity|].
  change (unlines (l :: ls)) with ((l ++ [NL]) ++ unlines ls).
  rewrite rev_app_distr, IH, rev_app_distr. simpl.
  unfold rev_unlines. rewrite map_app, concat_app. simpl.
  now rewrite app_nil_r.
Qed.

Lemma join_snoc (ls : list pystr) (l : pystr) :
  join [NL] (ls ++ [l]) = unlines ls ++ l.
Proof.
  induction ls as [|x ls IH]; [reflexivity|].
  change (unlines (x :: ls)) with ((x ++ [NL]) ++ unlines ls).
  change ((x :: ls) ++ [l]) with (x :: (ls ++ [l])).
  destruct (ls ++ [l]) as [|y r] eqn:E.
  - destruct ls; discriminate.
  - change (join [NL] (x :: y :: r)) with (x ++ [NL] ++ join [NL] (y :: r)).
    rewrite IH. now rewrite <- !app_assoc.
Qed.

Lemma lstrip_unlines (ls : list pystr) :
  Forall clean_ends ls -> lstrip (unlines ls) = unlines (drop_blank ls).
Proof.
  unfold lstrip. induction ls as [|l ls IH]; intros H; [reflexivity|].
  inversion H as [|? ? [Hl _] Hls]; subst.
  destruct l as [|c l]; simpl.
  - change (unlines ([] :: ls)) with (NL :: unlines ls). simpl. auto.
  - change (unlines ((c :: l) :: ls)) with (c :: (l ++ [NL]) ++ unlines ls).
    simpl. now rewrite (Hl c eq_refl).
Qed.

Lemma dropwhile_rev_unlines (rs : list pystr) :
  Forall clean_ends rs ->
  dropwhile is_space (rev_unlines rs) =
    match drop_blank rs with
    | [] => []
    | l :: rs' => rev l ++ rev_unlines rs'
    end.
Proof.
  induction rs as [|l rs IH]; intros H; [reflexivity|].
  inversion H as [|? ? [_ Hl] Hrs]; subst.
  change (rev_unlines (l :: rs)) with (NL :: rev l ++ rev_unlines rs).
  simpl dropwhile. destruct l as [|c l].
  - simpl. auto.
  - simpl drop_blank. cbv iota.
    destruct (rev (c :: l)) as [|x r] eqn:E.
    + apply (f_equal (@List.length _)) in E. rewrite length_rev in E.
      discriminate.
    + simpl. now rewrite (Hl x eq_refl).
Qed.

(** Trimming the accumulator keeps whole lines: the result is the lines
    between the first and the last non-empty one, joined by newlines. *)
Lemma strip_unlines (ls : list pystr) :
  Forall clean_ends ls ->
  exists ls', (forall l, In l ls' -> In l ls) /\
              strip (unlines ls) = join [NL] ls'.
Proof.
  intros H. unfold strip. rewrite lstrip_unlines by assumption.
  set (ms := drop_blank ls).
  assert (Hms : Forall clean_ends ms).
  { apply Forall_forall. intros l Hl. apply drop_blank_incl in Hl.
    revert l Hl. now apply Forall_forall. }
  exists (rev (drop_blank (rev ms))). split.
  - intros l Hl. apply in_rev in Hl. apply drop_blank_incl in Hl.
    apply in_rev in Hl. now apply drop_blank_incl in Hl.
  - unfold rstrip. rewrite rev_unlines_rev.
    rewrite dropwhile_rev_unlines.
    2:{ apply Forall_forall. intros l Hl. apply in_rev in Hl.
        revert l Hl. now apply Forall_forall. }
    destruct (drop_blank (rev ms)) as [|l rs']; [reflexivity|].
    simpl rev. rewrite join_snoc.
    rewrite rev_app_distr, rev_involutive.
    rewrite <- (rev_involutive rs') at 1.
    rewrite <- rev_unlines_rev. now rewrite rev_involutive.
Qed.

(** *** Marker lines *)

Lemma is_chapter_title_first_match (line : pystr) :
  is_chapter_title line = true <->
  exists k, first_match chapter_patterns line = Some k.
Proof.
  unfold is_chapter_title.
  induction chapter_patterns as [|p ps IH]; simpl.
  - split; [discriminate | intros [k H]; discriminate].
  - destruct (re_match p line); simpl.
    + split; eauto.
    + rewrite IH. split; intros [k H].
      * exists (S k). now rewrite H.
      * destruct (first_match ps line) as [j|]; [eauto | discriminate].
Qed.

(** The pattern at the index found matches, and none before it does. *)
Lemma first_match_spec (ps : list regex) (line : pystr) (k : nat) :
  first_match ps line = Some k ->
  (exists p, nth_error ps k = Some p /\ re_match p line = true) /\
  (forall j p, (j < k)%nat -> nth_error ps j = Some p ->
               re_match p line = false).
Proof.
  revert k. induction ps as [|q ps IH]; simpl; intros k H; [discriminate|].
  destruct (re_match q line) eqn:E.
  - inversion H; subst. split; [exists q; auto | intros j p Hj; lia].
  - destruct (first_match ps line) as [i|]; [|discriminate].
    inversion H; subst. destruct (IH i eq_refl) as [Hk Hlt]. split.
    + exact Hk.
    + intros [|j] p Hj Hn; simpl in Hn.
      * congruence.
      * apply (Hlt j); [lia | assumption].
Qed.

Lemma acc_ok_marker_free (ttl cur : pystr) :
  acc_ok cur -> marker_free {| title := ttl; content := strip cur |}.
Proof.
  intros (ls & -> & Hls) l. simpl.
  destruct (@strip_unlines ls) as (ls' & Hsub & ->).
  { apply Forall_impl with (2 := Hls). intros a H. apply H. }
  destruct ls' as [|x r].
  - simpl. intros [<-|[]]. reflexivity.
  - rewrite split_join; [| discriminate |].
    + intros Hl. apply Hsub in Hl.
      rewrite Forall_forall in Hls. apply (Hls l Hl).
    + apply Forall_forall. intros a Ha. apply Hsub in Ha.
      rewrite Forall_forall in Hls. apply (Hls a Ha).
Qed.

Lemma acc_ok_nil : acc_ok [].
Proof. exists []. split; [reflexivity | constructor]. Qed.

Lemma acc_ok_snoc (cur l : pystr) :
  acc_ok cur -> body_line l -> acc_ok (cur ++ l ++ [NL]).
Proof.
  intros (ls & -> & Hls) Hl. exists (ls ++ [l]). split.
  - now rewrite unlines_snoc.
  - apply Forall_app. split; auto.
Qed.

Lemma body_line_nil : body_line [].
Proof.
  repeat split; try (intros c H; simpl in H; discriminate).
  intros [].
Qed.

Lemma scan_line_marker_free (st : scan) (raw : pystr) :
  no_nl raw ->
  Forall marker_free (sc_chapters st) /\ acc_ok (current_chapter st) ->
  Forall marker_free (sc_chapters (scan_line st raw)) /\
  acc_ok (current_chapter (scan_line st raw)).
Proof.
  intros Hraw [Hch Hacc]. unfold scan_line.
  destruct (truthy (strip raw)) eqn:T; simpl.
  - destruct (is_chapter_title (strip raw)) eqn:M; simpl.
    + split; [| apply acc_ok_nil].
      apply close_chapter_inv; [assumption|].
      intros _. now apply acc_ok_marker_free.
    + split; [assumption|].
      apply acc_ok_snoc; [assumption|].
      repeat split; [now apply strip_no_nl | apply strip_clean_ends
                    | apply strip_clean_ends | assumption].
  - split; [assumption|].
    apply (@acc_ok_snoc _ []); [assumption | apply body_line_nil].
Qed.

Lemma flush_marker_free (chs : list chapter) (lines : list pystr) :
  Forall no_nl lines -> Forall marker_free chs ->
  Forall marker_free (flush (scan_lines chs lines)).
Proof.
  intros Hl Hc.
  assert (I : Forall marker_free (sc_chapters (scan_lines chs lines)) /\
              acc_ok (current_chapter (scan_lines chs lines))).
  { unfold scan_lines.
    assert (I0 : Forall marker_free (sc_chapters (scan_start chs)) /\
                 acc_ok (current_chapter (scan_start chs))).
    { split; [exact Hc | apply acc_ok_nil]. }
    revert I0. generalize (scan_start chs).
    induction Hl as [|raw lines Hraw _ IH]; simpl; intros st I0; auto.
    apply IH. now apply scan_line_marker_free. }
  destruct I as [I1 I2]. unfold flush.
  apply close_chapter_inv; [assumption|].
  intros _. now apply acc_ok_marker_free.
Qed.

(** A marker line is not blank. *)
Lemma is_chapter_title_truthy (line : pystr) :
  is_chapter_title line = true -> truthy line = true.
Proof.
  destruct line; [| reflexivity]. vm_compute. discriminate.
Qed.

(** C2 (amended): a line whose trimmed form matches one of the four
    patterns (the first in list order that matches is the one found)
    closes the accumulating chapter, appending it only when its
    trimmed content is non-empty; it becomes the title of the next chapter,
    whose accumulator starts empty; and it is not put into any accumulator:
    no chapter appended by the scan, at a marker or at the end of the input,
    has a marker line among the lines of its content.  (The synthetic
    chapter of the degenerate case holds the whole text and is not covered.) *)
Theorem C2_marker_line_closes_and_starts (st : scan) (raw : pystr) :
  is_chapter_title (strip raw) = true ->
  scan_line st raw =
    {| sc_chapters :=
         if truthy (strip (current_chapter st))
         then sc_chapters st ++
                [{| title := chapter_title st;
                    content := strip (current_chapter st) |}]
         else sc_chapters st;
       current_chapter := [];
       chapter_title := strip raw;
       chapter_count := S (chapter_count st) |} /\
  (exists k p,
     first_match chapter_patterns (strip raw) = Some k /\
     nth_error chapter_patterns k = Some p /\
     re_match p (strip raw) = true /\
     forall j q, (j < k)%nat -> nth_error chapter_patterns j = Some q ->
                 re_match q (strip raw) = false) /\
  (forall text : pystr,
     Forall marker_free (flush (scan_lines [] (split NL text)))).
Proof.
  intros M. pose proof (is_chapter_title_truthy _ M) as T. split; [|split].
  - unfold scan_line, close_chapter. now rewrite T, M.
  - apply is_chapter_title_first_match in M. destruct M as [k Hk].
    destruct (first_match_spec _ _ Hk) as [(p & Hp & Hm) Hlt].
    exists k, p. auto.
  - intros text. apply flush_marker_free; [apply split_parts_no_nl | constructor].
Qed.

Lemma C2_marker_line_closes_and_starts_witness :
  scan_line (scan_lines [] [u "intro"]) (u "  第1章 开端 ") =
    {| sc_chapters := [{| title := u "前言"; content := u "intro" |}];
       current_chapter := [];
       chapter_title := u "第1章 开端";
       chapter_count := 1 |}.
Proof.
  exact (proj1 (C2_marker_line_closes_and_starts
                  (scan_lines [] [u "intro"]) (u "  第1章 开端 ")
                  eq_refl)).
Defined.

(** C2 as stated fails in the degenerate case: for a text whose only line
    after the title is a marker, the one chapter of the result has that
    marker line as its content. *)
Lemma C2_marker_line_in_synthetic_chapter :
  is_chapter_title (u "第1章 开端") = true /\
  chapters (read_txt_file (__init__ (u "id")) (u "book.txt")
              (u "T
第1章 开端")) =
    [{| title := u "T"; content := u "第1章 开端" |}] /\
  ~ Forall marker_free
      (chapters (read_txt_file (__init__ (u "id")) (u "book.txt")
                   (u "T
第1章 开端"))).
Proof.
  split; [reflexivity|]. split; [reflexivity|].
  intros H. inversion H as [|? ? Hm _]; subst.
  specialize (Hm (u "第1章 开端") (or_introl eq_refl)).
  vm_compute in Hm. discriminate.
Qed.

(** C8 (amended): the title is the trimmed first line, unless that is
    empty or is the placeholder title 未命名小说: then, when the file's stem
    is non-empty, the stem is the title. *)
Theorem C8_title_from_first_line (self : EpubGenerator)
  (txt_path content0 : pystr) :
  let first := strip (hd [] (split NL content0)) in
  book_title (read_txt_file self txt_path content0) =
    if (negb (truthy first) || str_eqb first (u "未命名小说"))
       && truthy (stem txt_path)
    then stem txt_path
    else first.
Proof.
  unfold read_txt_file, take_title.
  assert (Hne : split NL content0 <> []).
  { destruct content0 as [|c s]; simpl; [discriminate|].
    destruct (c =? NL); [discriminate|].
    destruct (split NL s); discriminate. }
  destruct (split NL content0) as [|l0 rest]; [congruence|].
  simpl. unfold fallback_title.
  destruct (negb (truthy (strip l0)) || str_eqb (strip l0) (u "未命名小说"));
    simpl; reflexivity.
Qed.

(** C8 as stated fails: a first line that is not empty, but is the
    placeholder title, is replaced by the file's stem too. *)
Lemma C8_placeholder_first_line_replaced :
  strip (hd [] (split NL (u "未命名小说
body"))) = u "未命名小说" /\
  book_title (read_txt_file (__init__ (u "id")) (u "dir/book.txt")
                (u "未命名小说
body")) = u "book".
Proof. split; reflexivity. Qed.

(** *** Blank lines *)

Lemma split_join_lines (ls : list pystr) :
  Forall no_nl ls ->
  split NL (join [NL] ls) = match ls with [] => [[]] | _ => ls end.
Proof.
  intros H. destruct ls as [|l r]; [reflexivity|].
  apply split_join; [discriminate | assumption].
Qed.

(** A blank line of the body yields no paragraph: the paragraphs are those
    of the body without it. *)
Lemma content_paragraphs_blank (ttl b : pystr) (xs ys : list pystr) :
  Forall no_nl xs -> Forall no_nl ys -> no_nl b -> strip b = [] ->
  content_paragraphs {| title := ttl; content := join [NL] (xs ++ b :: ys) |} =
  content_paragraphs {| title := ttl; content := join [NL] (xs ++ ys) |}.
Proof.
  intros Hx Hy Hb Hs. unfold content_paragraphs. simpl.
  assert (Pb : paragraph_of b = []).
  { unfold paragraph_of. now rewrite Hs. }
  rewrite !split_join_lines;
    [| apply Forall_app; auto | apply Forall_app; split; auto].
  assert (L : flat_map paragraph_of (xs ++ b :: ys) =
              flat_map paragraph_of (xs ++ ys)).
  { rewrite !flat_map_app. simpl. now rewrite Pb. }
  destruct (xs ++ b :: ys) as [|l r] eqn:E1.
  - destruct xs; discriminate.
  - rewrite L. destruct (xs ++ ys); reflexivity.
Qed.

Lemma is_chapter_title_blank (line : pystr) :
  truthy line = false -> is_chapter_title line = false.
Proof.
  intros T. destruct (is_chapter_title line) eqn:E; [|reflexivity].
  apply is_chapter_title_truthy in E. congruence.
Qed.

Lemma scan_no_marker (chs : list chapter) (lines : list pystr) :
  Forall (fun l => is_chapter_title (strip l) = false) lines ->
  forall st,
    fold_left scan_line lines st =
      {| sc_chapters := sc_chapters st;
         current_chapter := current_chapter st ++ unlines (map strip lines);
         chapter_title := chapter_title st;
         chapter_count := chapter_count st |}.
Proof.
  induction 1 as [|raw lines Hraw _ IH]; intros st; simpl.
  - unfold unlines. simpl. rewrite app_nil_r. now destruct st.
  - rewrite IH. unfold scan_line. rewrite Hraw.
    change (unlines (strip raw :: map strip lines))
      with ((strip raw ++ [NL]) ++ unlines (map strip lines)).
    destruct (truthy (strip raw)) eqn:T; simpl.
    + now rewrite <- !app_assoc.
    + apply truthy_false in T. rewrite T. simpl.
      now rewrite <- !app_assoc.
Qed.

Lemma scan_line_marker (st : scan) (raw : pystr) :
  is_chapter_title (strip raw) = true ->
  scan_line st raw =
    {| sc_chapters :=
         close_chapter (sc_chapters st) (chapter_title st) (current_chapter st);
       current_chapter := [];
       chapter_title := strip raw;
       chapter_count := S (chapter_count st) |}.
Proof.
  intros M. unfold scan_line.
  now rewrite (is_chapter_title_truthy _ M), M.
Qed.

(** Trimming an accumulator whose first and last lines are not empty
    removes the final newline only: the empty lines in between stay. *)
Lemma strip_unlines_inner (first last : pystr) (mid : list pystr) :
  Forall clean_ends (first :: mid ++ [last]) ->
  truthy first = true -> truthy last = true ->
  strip (unlines (first :: mid ++ [last])) = join [NL] (first :: mid ++ [last]).
Proof.
  intros H Hf Hl. unfold strip. rewrite lstrip_unlines by assumption.
  cbn [drop_blank]. rewrite Hf.
  unfold rstrip. rewrite rev_unlines_rev.
  change (first :: mid ++ [last]) with ((first :: mid) ++ [last]).
  rewrite rev_app_distr. cbn [rev app].
  change (last :: rev mid ++ [first]) with (last :: rev (first :: mid)).
  rewrite dropwhile_rev_unlines.
  2:{ apply Forall_forall. intros l Hin.
      rewrite Forall_forall in H. apply H.
      change (first :: mid ++ [last]) with ((first :: mid) ++ [last]).
      apply in_or_app. destruct Hin as [<-|Hin]; [right; now left|].
      left. now apply in_rev. }
  cbn [drop_blank]. rewrite Hl.
  rewrite rev_app_distr, rev_involutive.
  rewrite <- (rev_involutive (rev_unlines (rev (first :: mid)))).
  rewrite <- rev_unlines_rev, !rev_involutive.
  symmetry. exact (join_snoc (first :: mid) last).
Qed.

Lemma truthy_join (sep first : pystr) (rest : list pystr) :
  truthy first = true -> truthy (join sep (first :: rest)) = true.
Proof.
  destruct first as [|c first]; [discriminate|]. intros _.
  destruct rest; reflexivity.
Qed.

(** The chapter closed after a run of body lines that starts and ends
    with a non-blank line holds the trimmed lines, the blank ones as
    empty lines. *)
Lemma flush_body (chs : list chapter) (ttl first last : pystr)
  (mid : list pystr) (n : nat) :
  Forall (fun l => is_chapter_title (strip l) = false)
         (first :: mid ++ [last]) ->
  truthy (strip first) = true -> truthy (strip last) = true ->
  flush (fold_left scan_line (first :: mid ++ [last])
           {| sc_chapters := chs; current_chapter := [];
              chapter_title := ttl; chapter_count := n |}) =
    chs ++ [{| title := ttl;
               content := join [NL] (map strip (first :: mid ++ [last])) |}].
Proof.
  intros Hm Hf Hl. rewrite (scan_no_marker chs Hm).
  unfold flush, close_chapter. cbn [sc_chapters current_chapter chapter_title app].
  assert (E : map strip (first :: mid ++ [last]) =
              strip first :: map strip mid ++ [strip last]).
  { cbn [map]. now rewrite map_app. }
  rewrite E, strip_unlines_inner; auto.
  - now rewrite truthy_join.
  - rewrite <- E. apply Forall_forall. intros l Hin.
    apply in_map_iff in Hin. destruct Hin as (x & <- & _).
    apply strip_clean_ends.
Qed.

Lemma content_paragraphs_shown (ch : chapter) :
  content_paragraphs ch =
    map paragraph (filter shown_line (map strip (split NL (content ch)))).
Proof.
  unfold content_paragraphs.
  induction (split NL (content ch)) as [|l ls IH]; [reflexivity|].
  cbn [flat_map map filter]. rewrite IH.
  unfold paragraph_of, shown_line.
  destruct (truthy (strip l)); [| reflexivity].
  destruct (startswith (u "[图片") (strip l)); [reflexivity|].
  destruct (startswith (u "![") (strip l)); [reflexivity|].
  cbn [orb negb andb app map List.concat]. unfold paragraph.
  now rewrite app_nil_r.
Qed.

(** C6 (amended): a line that is blank after trimming adds one bare
    newline to the accumulator and leaves the chapter list and the current
    title as they were, so it never starts a chapter.  Between two
    non-blank body lines it stays in the stored content, as an empty
    line, whether the chapter is closed by the next marker line or at the
    end of the text.  The chapter page has one paragraph per line of the content
    that is not blank and is not an image placeholder, in order, and the
    page depends on the content through these paragraphs only: nothing is
    rendered for the blank line, and the page of a body with a blank line
    is the page of the body without it. *)
Theorem C6_blank_line_no_boundary_no_paragraph (st : scan) (raw : pystr) :
  truthy (strip raw) = false ->
  scan_line st raw =
    {| sc_chapters := sc_chapters st;
       current_chapter := current_chapter st ++ [NL];
       chapter_title := chapter_title st;
       chapter_count := chapter_count st |} /\
  (forall (chs : list chapter) (ttl first last : pystr)
          (xs ys : list pystr) (n : nat),
     let body := first :: (xs ++ raw :: ys) ++ [last] in
     let stored := strip first :: (map strip xs ++ [] :: map strip ys)
                   ++ [strip last] in
     Forall no_nl body ->
     Forall (fun l => is_chapter_title (strip l) = false) body ->
     truthy (strip first) = true -> truthy (strip last) = true ->
     let st' := fold_left scan_line body
                  {| sc_chapters := chs; current_chapter := [];
                     chapter_title := ttl; chapter_count := n |} in
     let closed := chs ++ [{| title := ttl; content := join [NL] stored |}] in
     flush st' = closed /\
     (forall marker,
        is_chapter_title (strip marker) = true ->
        sc_chapters (scan_line st' marker) = closed) /\
     split NL (join [NL] stored) = stored) /\
  (forall ch : chapter,
     content_paragraphs ch =
       map paragraph
           (filter shown_line (map strip (split NL (content ch))))) /\
  (forall (self : EpubGenerator) (i : nat) (ttl : pystr),
     exists h t,
       forall body : pystr,
         chapter_html self i {| title := ttl; content := body |} =
         _sanitize_content
           (h ++ join [NL] (map paragraph
                              (filter shown_line
                                      (map strip (split NL body)))) ++ t)) /\
  (forall (self : EpubGenerator) (i : nat) (ttl b : pystr)
          (xs ys : list pystr),
     Forall no_nl xs -> Forall no_nl ys -> no_nl b -> strip b = [] ->
     chapter_html self i
       {| title := ttl; content := join [NL] (xs ++ b :: ys) |} =
     chapter_html self i
       {| title := ttl; content := join [NL] (xs ++ ys) |}).
Proof.
  intros T. split; [| split; [| split; [| split]]].
  - unfold scan_line. now rewrite T.
  - intros chs ttl first last xs ys n body stored Hn Hm Hf Hl st' closed.
    assert (Es : map strip body = stored).
    { unfold body, stored. cbn [map]. rewrite !map_app. cbn [map].
      apply truthy_false in T. now rewrite T. }
    assert (F : flush st' = closed).
    { unfold st', closed, body.
      rewrite (@flush_body chs ttl first last (xs ++ raw :: ys) n Hm Hf Hl).
      fold body. now rewrite Es. }
    split; [exact F | split].
    + intros marker M. rewrite (scan_line_marker st' marker M).
      exact F.
    + rewrite <- Es. apply split_join; [discriminate|].
      apply Forall_forall. intros l Hin.
      apply in_map_iff in Hin. destruct Hin as (x & <- & Hx).
      apply strip_no_nl. rewrite Forall_forall in Hn. now apply Hn.
  - apply content_paragraphs_shown.
  - intros self i ttl.
    assert (S : forall (pre : list pystr) (x t : pystr),
               List.concat (pre ++ [x; t]) = List.concat pre ++ x ++ t).
    { intros pre x t. rewrite concat_app. cbn [List.concat].
      now rewrite app_nil_r. }
    unfold chapter_html. cbv zeta. cbn [title].
    match goal with
    | |- exists h t, forall body,
           _sanitize_content
             (List.concat [?a1; ?a2; ?a3; ?a4; ?a5; ?a6; ?a7; ?a8; ?a9;
                           @?x body; ?a11]) = _ =>
        exists (List.concat [a1; a2; a3; a4; a5; a6; a7; a8; a9]), a11;
        intros body; rewrite content_paragraphs_shown; cbn [content];
        f_equal;
        exact (S [a1; a2; a3; a4; a5; a6; a7; a8; a9] _ a11)
    end.
  - intros self i ttl b xs ys Hx Hy Hb Hs. unfold chapter_html.
    now rewrite (content_paragraphs_blank ttl Hx Hy Hb Hs).
Qed.

Lemma C6_blank_line_no_boundary_no_paragraph_witness :
  scan_line (scan_lines [] [u "one"]) (u "  ") =
    {| sc_chapters := [];
       current_chapter := u "one
" ++ [NL];
       chapter_title := u "前言";
       chapter_count := 0 |} /\
  flush (scan_lines [] [u " one"; u "  "; u "two "]) =
    [{| title := u "前言"; content := u "one

two" |}] /\
  content_paragraphs {| title := u "前言"; content := u "one

![pic](p.png)
two" |} = [u "<p>one</p>"; u "<p>two</p>"].
Proof.
  destruct (@C6_blank_line_no_boundary_no_paragraph
              (scan_lines [] [u "one"]) (u "  ") eq_refl)
    as (H1 & H2 & H3 & _).
  split; [exact H1 | split].
  - destruct (H2 [] (u "前言") (u " one") (u "two ") [] [] 0%nat) as [F _].
    + repeat constructor; intros H; vm_compute in H;
        repeat (destruct H as [H|H]; [discriminate|]); exact H.
    + repeat constructor.
    + reflexivity.
    + reflexivity.
    + exact F.
  - rewrite H3. reflexivity.
Defined.

(** C6 as stated fails: the chapter read from a text with a blank line
    between two body lines keeps that line in its content, but its page has
    the two paragraphs next to each other and is the very page of the body
    without the blank line. *)
Lemma C6_blank_line_absent_from_page :
  let g := read_txt_file (__init__ (u "id")) (u "book.txt")
             (u "T
one

two") in
  chapters g = [{| title := u "前言"; content := u "one

two" |}] /\
  content_paragraphs {| title := u "前言"; content := u "one

two" |} = [u "<p>one</p>"; u "<p>two</p>"] /\
  chapter_html g 0 {| title := u "前言"; content := u "one

two" |} =
  chapter_html g 0 {| title := u "前言"; content := u "one
two" |}.
Proof. vm_compute. repeat split. Qed.

(** ** Document assembler *)

Lemma map_enumerate_from (A B : Type) (f : nat -> B) (l : list A) (a : nat) :
  map (fun p : nat * A => let '(i, _) := p in f i)
      (combine (seq a (List.length l)) l) =
  map f (seq a (List.length l)).
Proof.
  revert a. induction l as [|x l IH]; intros a; simpl; [reflexivity|].
  now rewrite IH.
Qed.

Lemma map_enumerate (A B : Type) (f : nat -> B) (l : list A) :
  map (fun p : nat * A => let '(i, _) := p in f i) (enumerate l) =
  map f (seq 0 (List.length l)).
Proof. apply map_enumerate_from. Qed.

Lemma map_succ_seq (B : Type) (f : nat -> B) (n : nat) :
  map (fun i => f (i + 1)%nat) (seq 0 n) = map f (seq 1 n).
Proof.
  rewrite <- seq_shift, map_map. apply map_ext.
  intros i. now rewrite Nat.add_1_r.
Qed.

Lemma image_page_itemref_eq (i : nat) :
  image_page_itemref i = itemref (u "image_page_" ++ str_of_nat (i + 1)).
Proof.
  unfold image_page_itemref, image_page_id, itemref.
  cbn [List.concat]. now rewrite !app_nil_r.
Qed.

Lemma chapter_itemref_eq (i : nat) :
  chapter_itemref i = itemref (u "chapter_" ++ str_of_nat (i + 1)).
Proof.
  unfold chapter_itemref, chapter_id, itemref.
  cbn [List.concat]. now rewrite !app_nil_r.
Qed.

(** C3: the spine lists the cover page, then the image pages 1..n in the
    order of the image list, then the chapter pages 1..m in the order of
    the chapter list, and the package document carries exactly these lines
    in its spine element; with two images and three chapters these are
    cover, image_page_1, image_page_2, chapter_1, chapter_2, chapter_3. *)
Theorem C3_spine_order (self : EpubGenerator) :
  spine_items self =
    itemref (u "cover")
    :: map (fun k => itemref (u "image_page_" ++ str_of_nat k))
           (seq 1 (List.length (images self)))
    ++ map (fun k => itemref (u "chapter_" ++ str_of_nat k))
           (seq 1 (List.length (chapters self))) /\
  (forall guess_type today, exists head,
     content_opf guess_type today self =
       head ++ markup "
    </manifest>
    <spine>
" ++ join [NL] (spine_items self) ++ markup "
    </spine>
</package>") /\
  (forall bid i1 i2 cov c1 c2 c3 ttl aut lang,
     spine_items {| book_id := bid; chapters := [c1; c2; c3];
                    images := [i1; i2]; cover_image := cov;
                    book_title := ttl; author := aut; language := lang |} =
       [ markup "    <itemref idref=`cover`/>";
         markup "    <itemref idref=`image_page_1`/>";
         markup "    <itemref idref=`image_page_2`/>";
         markup "    <itemref idref=`chapter_1`/>";
         markup "    <itemref idref=`chapter_2`/>";
         markup "    <itemref idref=`chapter_3`/>" ]).
Proof.
  split; [|split].
  - unfold spine_items.
    rewrite (map_enumerate image_page_itemref (images self)).
    rewrite (map_enumerate chapter_itemref (chapters self)).
    rewrite (map_ext _ _ image_page_itemref_eq).
    rewrite (map_ext _ _ chapter_itemref_eq).
    rewrite (map_succ_seq (fun k => itemref (u "image_page_" ++ str_of_nat k))).
    rewrite (map_succ_seq (fun k => itemref (u "chapter_" ++ str_of_nat k))).
    reflexivity.
  - intros guess_type today. unfold content_opf.
    eexists. cbn [List.concat]. rewrite app_nil_r, !app_assoc.
    reflexivity.
  - intros. vm_compute. reflexivity.
Qed.

(** C7, the code at a title with markup: the package document embeds the
    title with its tags stripped, while the cover page, both navigation
    documents and the first chapter's page embed the raw title. *)
Theorem C7_title_stripped_in_package_only :
  let g := read_txt_file (__init__ (u "id")) (u "book.txt")
             (u "My <b>Title</b>
body") in
  book_title g = u "My <b>Title</b>" /\
  _sanitize_title (book_title g) = u "My Title" /\
  contains (u "<dc:title>My Title</dc:title>")
           (content_opf (fun _ => None) (u "2026-01-01") g) = true /\
  contains (u "<h1>My <b>Title</b></h1>") (cover_html g) = true /\
  contains (u "<text>My <b>Title</b></text>") (toc_ncx g) = true /\
  contains (u "<title>My <b>Title</b></title>") (nav_xhtml g) = true /\
  contains (markup "<h1 class=`book-title`>My <b>Title</b></h1>")
           (chapter_html g 0 {| title := u "前言"; content := u "body" |})
    = true.
Proof. vm_compute. repeat split. Qed.

(** ** Asset collector *)

Lemma str_leb_total (a b : pystr) : str_leb a b = false -> str_leb b a = true.
Proof.
  revert b. induction a as [|x a IH]; intros [|y b]; simpl; auto;
    try discriminate.
  destruct (N.ltb_spec x y); [discriminate|].
  destruct (N.ltb_spec y x); [reflexivity|].
  apply IH.
Qed.

Lemma str_leb_trans (a b c : pystr) :
  str_leb a b = true -> str_leb b c = true -> str_leb a c = true.
Proof.
  revert b c. induction a as [|x a IH]; intros [|y b] [|z c]; simpl; auto;
    try discriminate.
  destruct (N.ltb_spec x y), (N.ltb_spec y z), (N.ltb_spec x z);
    try reflexivity; try lia;
    destruct (N.ltb_spec y x), (N.ltb_spec z y), (N.ltb_spec z x);
    try discriminate; try lia; eauto.
Qed.

Lemma insert_sorted_perm (x : pystr) (l : list pystr) :
  Permutation (insert_sorted x l) (x :: l).
Proof.
  induction l as [|y l IH]; simpl; auto.
  destruct (str_leb x y); auto.
  rewrite IH. apply perm_swap.
Qed.

Lemma sort_perm (l : list pystr) : Permutation (sort l) l.
Proof.
  induction l as [|x l IH]; simpl; auto.
  rewrite insert_sorted_perm. now constructor.
Qed.

Lemma insert_sorted_hdrel (a x : pystr) (l : list pystr) :
  str_le a x -> HdRel str_le a l -> HdRel str_le a (insert_sorted x l).
Proof.
  intros Hax H. destruct l as [|y l]; simpl.
  - now constructor.
  - destruct (str_leb x y); constructor; auto. now inversion H.
Qed.

Lemma insert_sorted_Sorted (x : pystr) (l : list pystr) :
  Sorted str_le l -> Sorted str_le (insert_sorted x l).
Proof.
  induction 1 as [|y l Hs IH Hd]; simpl.
  - repeat constructor.
  - destruct (str_leb x y) eqn:E.
    + constructor; [constructor; assumption | constructor; exact E].
    + constructor; [exact IH|].
      apply insert_sorted_hdrel; [| exact Hd].
      now apply str_leb_total.
Qed.

Lemma sort_Sorted (l : list pystr) : Sorted str_le (sort l).
Proof.
  induction l as [|x l IH]; simpl; [constructor|].
  now apply insert_sorted_Sorted.
Qed.

Lemma sort_StronglySorted (l : list pystr) : StronglySorted str_le (sort l).
Proof.
  apply Sorted_StronglySorted; [| apply sort_Sorted].
  intros a b c. apply str_leb_trans.
Qed.

Lemma numbered_filenames (folder : pystr) (n : nat) (fs : list pystr) :
  map filename (numbered folder n fs) = fs.
Proof.
  revert n. induction fs as [|f fs IH]; intros n; simpl; [reflexivity|].
  now rewrite IH.
Qed.

Lemma numbered_nth (folder : pystr) (fs : list pystr) (n k : nat) (img : image) :
  nth_error (numbered folder n fs) k = Some img ->
  id img = u "img_" ++ str_of_nat (n + k + 1).
Proof.
  revert n k. induction fs as [|f fs IH]; intros n [|k]; simpl;
    try discriminate.
  - intros H. inversion H; subst. simpl. now rewrite Nat.add_0_r.
  - intros H. apply IH in H. rewrite H.
    now replace (S n + k + 1)%nat with (n + S k + 1)%nat by lia.
Qed.

Section CollectorFacts.

Variable lower : pystr -> pystr.
Variable folder : pystr.

Lemma add_images_fold (files : list pystr) (self : EpubGenerator) :
  let self' := fold_left (add_image lower folder) files self in
  images self' =
    images self ++
    numbered folder (List.length (images self))
             (filter (fun f => negb (is_cover_name lower f)) files) /\
  cover_image self' =
    match rev (filter (is_cover_name lower) files) with
    | f :: _ => Some {| id := u "cover"; path := path_join folder f;
                        filename := f |}
    | [] => cover_image self
    end.
Proof.
  revert self. induction files as [|f files IH]; intros self; simpl.
  - now rewrite app_nil_r.
  - specialize (IH (add_image lower folder self f)).
    destruct IH as [IHi IHc]. unfold add_image in *.
    destruct (is_cover_name lower f); simpl in *.
    + split; [exact IHi|]. rewrite IHc.
      destruct (rev (filter (is_cover_name lower) files)); reflexivity.
    + split; [| exact IHc]. rewrite IHi.
      rewrite length_app, <- app_assoc. simpl.
      now rewrite Nat.add_1_r.
Qed.

End CollectorFacts.

Lemma startswith_iff (p s : pystr) :
  startswith p s = true <-> exists b, s = p ++ b.
Proof.
  revert s. induction p as [|x p IH]; intros s; simpl.
  - split; [intros _; now exists s | reflexivity].
  - destruct s as [|y s].
    + split; [discriminate | intros [b E]; discriminate].
    + rewrite andb_true_iff, N.eqb_eq, IH. split.
      * intros [-> [b ->]]. now exists b.
      * intros [b E]. inversion E; subst. eauto.
Qed.

Lemma contains_iff (p s : pystr) :
  contains p s = true <-> exists a b, s = a ++ p ++ b.
Proof.
  induction s as [|c s IH].
  - simpl. rewrite orb_false_r, startswith_iff. split.
    + intros [b E]. now exists [], b.
    + intros (a & b & E). symmetry in E.
      apply app_eq_nil in E. destruct E as [-> E].
      apply app_eq_nil in E. destruct E as [-> ->]. now exists [].
  - change (contains p (c :: s))
      with (startswith p (c :: s) || contains p s).
    rewrite orb_true_iff, startswith_iff, IH. split.
    + intros [[b E] | (a & b & E)].
      * now exists [], b.
      * exists (c :: a), b. now rewrite E.
    + intros (a & b & E). destruct a as [|x a].
      * left. now exists b.
      * right. inversion E; subst. now exists a, b.
Qed.

(** *** Extensions and cover names *)

Lemma rfind_absent (c : char) (s : pystr) : ~ In c s -> rfind c s = None.
Proof.
  induction s as [|x s IH]; intros H; [reflexivity|].
  cbn [rfind]. rewrite IH by (intros G; apply H; now right).
  destruct (N.eqb_spec x c) as [->|_]; [| reflexivity].
  exfalso. apply H. now left.
Qed.

Lemma rfind_none (c : char) (s : pystr) : rfind c s = None -> ~ In c s.
Proof.
  induction s as [|x s IH]; intros H; [intros []|].
  cbn [rfind] in H. destruct (rfind c s) as [i|]; [discriminate|].
  destruct (N.eqb_spec x c) as [->|Hx]; [discriminate|].
  intros [E|G]; [congruence | now apply IH].
Qed.

Lemma rfind_split (c : char) (s : pystr) (i : nat) :
  rfind c s = Some i ->
  exists a b, s = a ++ c :: b /\ List.length a = i /\ ~ In c b.
Proof.
  revert i. induction s as [|x s IH]; intros i H; [discriminate|].
  cbn [rfind] in H. destruct (rfind c s) as [j|] eqn:R.
  - injection H as <-. destruct (IH j eq_refl) as (a & b & -> & <- & Hb).
    exists (x :: a), b. now repeat split.
  - destruct (N.eqb_spec x c) as [->|_]; [| discriminate].
    injection H as <-. exists [], s. repeat split. now apply rfind_none.
Qed.

Lemma rfind_last (c : char) (a b : pystr) :
  ~ In c b -> rfind c (a ++ c :: b) = Some (List.length a).
Proof.
  intros Hb. induction a as [|x a IH].
  - cbn [app rfind List.length]. rewrite (@rfind_absent c b Hb).
    now rewrite N.eqb_refl.
  - cbn [app rfind List.length]. now rewrite IH.
Qed.

Lemma skipn_length_app (A : Type) (a b : list A) :
  skipn (List.length a) (a ++ b) = b.
Proof. induction a as [|x a IH]; [reflexivity | exact IH]. Qed.

(** [Path(p).suffix] is the part of the name from its last dot on, when
    that dot is neither the first nor the last character of the name. *)
Lemma suffix_split (p st ext : pystr) :
  name p = st ++ DOT :: ext -> st <> [] -> ext <> [] -> ~ In DOT ext ->
  suffix p = DOT :: ext.
Proof.
  intros E Hs He Hd. unfold suffix, suffix_index.
  rewrite E, (@rfind_last DOT st ext Hd).
  assert (L1 : (0 <? List.length st)%nat = true).
  { apply Nat.ltb_lt. destruct st; [congruence | simpl; lia]. }
  assert (L2 : (S (List.length st) <? List.length (st ++ DOT :: ext))%nat
               = true).
  { apply Nat.ltb_lt. rewrite length_app. destruct ext; [congruence|].
    simpl. lia. }
  rewrite L1, L2. cbn [andb]. apply skipn_length_app.
Qed.

Lemma suffix_inv (p : pystr) :
  suffix p <> [] ->
  exists st ext,
    name p = st ++ DOT :: ext /\ st <> [] /\ ext <> [] /\ ~ In DOT ext /\
    suffix p = DOT :: ext.
Proof.
  unfold suffix, suffix_index. intros H.
  destruct (rfind DOT (name p)) as [i|] eqn:R; [| congruence].
  destruct ((0 <? i)%nat && (S i <? List.length (name p))%nat) eqn:C;
    [| congruence].
  apply andb_true_iff in C. destruct C as [C1 C2].
  apply Nat.ltb_lt in C1. apply Nat.ltb_lt in C2.
  destruct (@rfind_split DOT (name p) i R) as (a & b & E & <- & Hb).
  exists a, b. rewrite E in C2 |- *. rewrite length_app in C2.
  repeat split; auto.
  - intros ->. simpl in C1. lia.
  - intros ->. simpl in C2. lia.
  - apply skipn_length_app.
Qed.

Lemma extension_lower (e : pystr) :
  In e image_extensions -> ascii_lower e = e.
Proof.
  intros H. repeat (destruct H as [<-|H]; [reflexivity|]). destruct H.
Qed.

Lemma ascii_lower_nil (s : pystr) : ascii_lower s = [] -> s = [].
Proof. destruct s; [reflexivity | discriminate]. Qed.

Section Classification.

Variable lower : pystr -> pystr.

(** The test of line 120, with the six extensions spelt out. *)
Lemma is_supported_iff (f : pystr) :
  is_supported lower f = true <->
  exists e, In e image_extensions /\ lower (suffix f) = DOT :: e.
Proof.
  unfold is_supported. rewrite existsb_exists.
  change supported_formats with (map (cons DOT) image_extensions).
  split.
  - intros (x & Hx & E). apply in_map_iff in Hx.
    destruct Hx as (e & <- & He). apply str_eqb_eq in E. now exists e.
  - intros (e & He & E). exists (DOT :: e). split.
    + apply in_map_iff. now exists e.
    + now apply str_eqb_eq.
Qed.

Lemma is_supported_extension (f : pystr) :
  ascii_cased lower (suffix f) ->
  (is_supported lower f = true <-> has_image_extension f).
Proof.
  unfold ascii_cased. intros Hc. rewrite is_supported_iff, Hc. split.
  - intros (e & He & E).
    assert (N : suffix f <> []).
    { intros Z. rewrite Z in E. discriminate E. }
    destruct (@suffix_inv f N) as (st & ext & En & Hs & Hx & Hd & Es).
    rewrite Es in E. injection E as E.
    exists st, ext, e. repeat split; auto.
    unfold ci_equal. now rewrite (@extension_lower e He).
  - intros (st & ext & e & En & Hs & Hx & Hd & He & E).
    exists e. split; [exact He|].
    rewrite (@suffix_split f st ext En Hs Hx Hd).
    unfold ci_equal in E. rewrite (@extension_lower e He) in E.
    now rewrite <- E.
Qed.

Lemma contains_lowered (p s : pystr) :
  contains p (ascii_lower s) = true <->
  exists a c b, s = a ++ c ++ b /\ ascii_lower c = p.
Proof.
  rewrite contains_iff. unfold ascii_lower. split.
  - intros (a' & b' & E).
    apply map_eq_app in E. destruct E as (a & r & -> & _ & E).
    apply map_eq_app in E. destruct E as (c & b & -> & Ec & _).
    now exists a, c, b.
  - intros (a & c & b & -> & <-).
    exists (map ascii_lower_char a), (map ascii_lower_char b).
    now rewrite !map_app.
Qed.

Lemma lowered_cjk (c : pystr) :
  ascii_lower c = u "封面" <-> c = u "封面".
Proof.
  split; [| intros ->; reflexivity].
  let r := eval vm_compute in (u "封面") in change (u "封面") with r.
  destruct c as [|x [|y [|z c]]]; try discriminate.
  unfold ascii_lower. cbn [map]. intros E. injection E as Ex Ey.
  assert (K : forall a b, 128 <= b -> ascii_lower_char a = b -> a = b).
  { intros a b Hb. unfold ascii_lower_char.
    destruct ((65 <=? a) && (a <=? 90)) eqn:C; [| auto].
    apply andb_true_iff in C. destruct C as [C1 C2].
    apply N.leb_le in C1. apply N.leb_le in C2. lia. }
  apply K in Ex; [| lia]. apply K in Ey; [| lia]. now subst.
Qed.

Lemma is_cover_name_iff (f : pystr) :
  is_cover_name lower f = true <->
  contains (u "cover") (lower f) = true \/
  contains (u "封面") (lower f) = true.
Proof. unfold is_cover_name. apply orb_true_iff. Qed.

Lemma is_cover_name_reads (f : pystr) :
  ascii_cased lower f ->
  (is_cover_name lower f = true <-> reads_as_cover f).
Proof.
  unfold ascii_cased. intros Hc. rewrite is_cover_name_iff, Hc.
  rewrite !contains_lowered. unfold reads_as_cover, ci_equal. split.
  - intros [(a & c & b & E & L) | (a & c & b & E & L)];
      exists a, c, b; (split; [exact E|]).
    + left. exact L.
    + right. now apply lowered_cjk.
  - intros (a & c & b & E & [L | ->]).
    + left. now exists a, c, b.
    + right. now exists a, (u "封面"), b.
Qed.

End Classification.

(** C4: the collector keeps exactly the entries whose suffix, once
    lower-cased, is a dot followed by jpg, jpeg, png, gif, bmp or webp (for
    a name without cased letters outside ASCII: whose name is stem.ext
    with one of the six as extension, in whatever case) and sorts them by
    code point; in that order, a name in which cover or 封面 occurs once
    lower-cased (cover in whatever case) takes the cover slot, where the
    last such name stays, and is not among the ordinary images; every
    other file is appended, and the image at position i (counted from 1)
    has identifier img_i.  For cover.png, a.png, z.png the cover is
    cover.png and the images are a.png then z.png; names in upper case
    are kept, notes.txt, .png and b.jpeg.bak are not ([ascii_lower] is
    [str.lower] on such names). *)
Theorem C4_add_images_collects (lower : pystr -> pystr)
  (self : EpubGenerator) (folder : pystr) (entries : list pystr) :
  let kept := sort (filter (is_supported lower) entries) in
  let self' := add_images lower self folder (Some entries) in
  (forall f, In f kept <->
             In f entries /\
             exists e, In e image_extensions /\ lower (suffix f) = DOT :: e) /\
  (forall f, ascii_cased lower (suffix f) ->
             (In f kept <-> In f entries /\ has_image_extension f)) /\
  Permutation kept (filter (is_supported lower) entries) /\
  StronglySorted str_le kept /\
  (forall f, is_cover_name lower f = true <->
             contains (u "cover") (lower f) = true \/
             contains (u "封面") (lower f) = true) /\
  (forall f, ascii_cased lower f ->
             (is_cover_name lower f = true <-> reads_as_cover f)) /\
  map filename (images self') =
    map filename (images self) ++
    filter (fun f => negb (is_cover_name lower f)) kept /\
  (forall i img,
     nth_error (images self') i = Some img ->
     (List.length (images self) <= i)%nat ->
     id img = u "img_" ++ str_of_nat (i + 1)) /\
  cover_image self' =
    match rev (filter (is_cover_name lower) kept) with
    | f :: _ => Some {| id := u "cover"; path := path_join folder f;
                        filename := f |}
    | [] => cover_image self
    end /\
  (let e := add_images ascii_lower (__init__ (u "id")) (u "imgs")
              (Some [u "cover.png"; u "a.png"; u "z.png"]) in
   cover_image e = Some {| id := u "cover"; path := u "imgs/cover.png";
                           filename := u "cover.png" |} /\
   images e = [ {| id := u "img_1"; path := u "imgs/a.png";
                   filename := u "a.png" |};
                {| id := u "img_2"; path := u "imgs/z.png";
                   filename := u "z.png" |} ]) /\
  (let e := add_images ascii_lower (__init__ (u "id")) (u "imgs")
              (Some [u "z.PNG"; u "notes.txt"; u "My-COVER.Jpg"; u "a.webp";
                     u "封面.gif"; u ".png"; u "b.jpeg.bak"; u "c.Jpeg";
                     u "d.bmp"]) in
   cover_image e = Some {| id := u "cover"; path := u "imgs/封面.gif";
                           filename := u "封面.gif" |} /\
   images e = [ {| id := u "img_1"; path := u "imgs/a.webp";
                   filename := u "a.webp" |};
                {| id := u "img_2"; path := u "imgs/c.Jpeg";
                   filename := u "c.Jpeg" |};
                {| id := u "img_3"; path := u "imgs/d.bmp";
                   filename := u "d.bmp" |};
                {| id := u "img_4"; path := u "imgs/z.PNG";
                   filename := u "z.PNG" |} ]).
Proof.
  intros kept self'.
  destruct (add_images_fold lower folder kept self) as [Hi Hc].
  fold self' in Hi, Hc.
  assert (Hp : Permutation kept (filter (is_supported lower) entries))
    by apply sort_perm.
  assert (Hk : forall f, In f kept <->
                         In f entries /\ is_supported lower f = true).
  { intros f. rewrite <- filter_In. split; intros H.
    - now apply (Permutation_in _ Hp).
    - now apply (Permutation_in _ (Permutation_sym Hp)). }
  repeat apply conj.
  - intros f. rewrite Hk. now rewrite is_supported_iff.
  - intros f Hf. rewrite Hk. now rewrite (@is_supported_extension lower f Hf).
  - exact Hp.
  - apply sort_StronglySorted.
  - apply is_cover_name_iff.
  - intros f Hf. now apply is_cover_name_reads.
  - unfold self', add_images. fold kept. rewrite Hi, map_app.
    now rewrite numbered_filenames.
  - intros i img Hn Hle. unfold self', add_images in Hn. fold kept in Hn.
    rewrite Hi in Hn. rewrite nth_error_app2 in Hn by assumption.
    apply numbered_nth in Hn. rewrite Hn.
    now replace (List.length (images self) + (i - List.length (images self)) + 1)%nat
      with (i + 1)%nat by lia.
  - exact Hc.
  - vm_compute. reflexivity.
  - vm_compute. reflexivity.
  - vm_compute. reflexivity.
  - vm_compute. reflexivity.
Qed.

(** ** File system *)

Module TreeFacts.
Import Tree.

Lemma get_set_same (es : list (pystr * node)) (c : pystr) (n : node) :
  get (set es c n) c = Some n.
Proof.
  induction es as [|[k m] es IH]; simpl.
  - now rewrite str_eqb_refl.
  - destruct (str_eqb k c) eqn:E; simpl; now rewrite E.
Qed.

Lemma get_set_other (es : list (pystr * node)) (c c' : pystr) (n : node) :
  c <> c' -> get (set es c n) c' = get es c'.
Proof.
  intros Hc. induction es as [|[k m] es IH]; simpl.
  - apply str_eqb_neq in Hc. now rewrite Hc.
  - destruct (str_eqb k c) eqn:E; simpl.
    + apply str_eqb_eq in E. subst k.
      apply str_eqb_neq in Hc. now rewrite Hc.
    + destruct (str_eqb k c'); auto.
Qed.

Lemma get_del_same (es : list (pystr * node)) (c : pystr) :
  get (del es c) c = None.
Proof.
  induction es as [|[k m] es IH]; simpl; [reflexivity|].
  destruct (str_eqb k c) eqn:E; simpl; [assumption|]. now rewrite E.
Qed.

Lemma store_cons2 (c c2 : pystr) (cs : list pystr) (d : fdata)
  (es : list (pystr * node)) :
  store (c :: c2 :: cs) d (Dir es) =
    match get es c with
    | None => Raise FileNotFoundError
    | Some ch =>
        match store (c2 :: cs) d ch with
        | Ok ch' => Ok (Dir (set es c ch'))
        | Raise e => Raise e
        end
    end.
Proof. reflexivity. Qed.

Lemma store_ok_dir (cs : list pystr) (d : fdata) (n n' : node) :
  store cs d n = Ok n' -> exists es, n' = Dir es.
Proof.
  destruct n as [|es]; [destruct cs; discriminate|].
  destruct cs as [|c [|c2 cs]]; [discriminate | |].
  - simpl. destruct (get es c) as [[|]|]; intros H; inversion H; subst; eauto.
  - rewrite store_cons2. destruct (get es c) as [ch|]; [|discriminate].
    destruct (store (c2 :: cs) d ch); intros H; inversion H; subst; eauto.
Qed.

Lemma lookup_store (cs : list pystr) (d : fdata) (n n' : node) :
  store cs d n = Ok n' -> lookup cs n' = Some (File d).
Proof.
  revert n n'. induction cs as [|c cs IH]; intros n n'.
  - destruct n; discriminate.
  - destruct n as [|es]; [discriminate|]. destruct cs as [|c2 cs].
    + simpl. destruct (get es c) as [[|]|]; intros H; inversion H; subst;
        simpl; now rewrite get_set_same.
    + rewrite store_cons2. destruct (get es c) as [ch|]; [|discriminate].
      destruct (store (c2 :: cs) d ch) as [ch'|] eqn:E; [|discriminate].
      intros H. inversion H; subst.
      change (lookup (c :: c2 :: cs) (Dir (set es c ch')))
        with (match get (set es c ch') c with
              | Some x => lookup (c2 :: cs) x
              | None => None
              end).
      rewrite get_set_same. exact (IH _ _ E).
Qed.

Lemma store_keeps_top (c : pystr) (cs : list pystr) (d : fdata) (n n' : node) :
  store cs d n = Ok n' -> top_dir c n -> top_dir c n'.
Proof.
  intros H (es & sub & -> & G).
  destruct cs as [|c1 [|c2 cs]]; [discriminate | |].
  - simpl in H. destruct (list_eq_dec N.eq_dec c1 c) as [->|Hne].
    + rewrite G in H. discriminate.
    + exists (set es c1 (File d)), sub. rewrite get_set_other by assumption.
      destruct (get es c1) as [[|]|]; inversion H; auto.
  - rewrite store_cons2 in H.
    destruct (get es c1) as [ch|] eqn:G1; [|discriminate].
    destruct (store (c2 :: cs) d ch) as [ch'|] eqn:E; [|discriminate].
    inversion H; subst.
    destruct (list_eq_dec N.eq_dec c1 c) as [->|Hne].
    + destruct (@store_ok_dir _ _ _ _ E) as [es' ->].
      exists (set es c (Dir es')), es'. now rewrite get_set_same.
    + exists (set es c1 ch'), sub. now rewrite get_set_other.
Qed.

Lemma mkdirs_ok_dir (cs : list pystr) (n n' : node) :
  mkdirs cs n = Ok n' -> exists es, n' = Dir es.
Proof.
  destruct n as [|es]; [destruct cs; discriminate|].
  destruct cs as [|c cs]; simpl; intros H.
  - inversion H; subst; eauto.
  - destruct (mkdirs cs _); inversion H; subst; eauto.
Qed.

Lemma mkdirs_keeps_top (c : pystr) (cs : list pystr) (n n' : node) :
  mkdirs cs n = Ok n' -> top_dir c n -> top_dir c n'.
Proof.
  intros H (es & sub & -> & G).
  destruct cs as [|c1 cs]; simpl in H.
  - inversion H; subst. now exists es, sub.
  - destruct (mkdirs cs _) as [ch'|] eqn:E; [|discriminate].
    inversion H; subst.
    destruct (list_eq_dec N.eq_dec c1 c) as [->|Hne].
    + destruct (@mkdirs_ok_dir _ _ _ E) as [es' ->].
      exists (set es c (Dir es')), es'. now rewrite get_set_same.
    + exists (set es c1 ch'), sub. now rewrite get_set_other.
Qed.

Lemma mkdirs_makes_top (c : pystr) (cs : list pystr) (n n' : node) :
  mkdirs (c :: cs) n = Ok n' -> top_dir c n'.
Proof.
  destruct n as [|es]; simpl; [discriminate|].
  destruct (mkdirs cs _) as [ch'|] eqn:E; [|discriminate].
  intros H. inversion H; subst.
  destruct (@mkdirs_ok_dir _ _ _ E) as [es' ->].
  exists (set es c (Dir es')), es'. now rewrite get_set_same.
Qed.

Lemma lookup_top_dir (c : pystr) (n : node) :
  top_dir c n -> exists sub, lookup [c] n = Some (Dir sub).
Proof.
  intros (es & sub & -> & G). exists sub. simpl. now rewrite G.
Qed.

Lemma remove_top_gone (c : pystr) (rest : list pystr) (n : node) :
  top_dir c n -> lookup (c :: rest) (remove [c] n) = None.
Proof.
  intros (es & sub & -> & G). simpl. now rewrite get_del_same.
Qed.

End TreeFacts.
Import TreeFacts.

(** ** Effects *)

Lemma bind_inv (A B : Type) (m : IO A) (k : A -> IO B) (w w' : world)
  (r : result B) :
  bind m k w = (r, w') ->
  (exists a w1, m w = (Ok a, w1) /\ k a w1 = (r, w')) \/
  (exists e, m w = (Raise e, w') /\ r = Raise e).
Proof.
  unfold bind. destruct (m w) as [[a|e] w1]; intros H.
  - left. eauto.
  - right. inversion H; subst. eauto.
Qed.

Section Keeps.

Variable P : node -> Prop.

Lemma keeps_ret (A : Type) (a : A) : keeps P (ret a).
Proof. intros w r w' H. inversion H; subst. auto. Qed.

Lemma keeps_raise (A : Type) (e : exn) : keeps P (@raise A e).
Proof. intros w r w' H. inversion H; subst. auto. Qed.

Lemma keeps_bind (A B : Type) (m : IO A) (k : A -> IO B) :
  keeps P m -> (forall a, keeps P (k a)) -> keeps P (bind m k).
Proof.
  intros Hm Hk w r w' H HP.
  destruct (bind_inv _ _ _ H) as [(a & w1 & H1 & H2) | (e & H1 & _)].
  - apply (Hk a _ _ _ H2). apply (Hm _ _ _ H1 HP).
  - apply (Hm _ _ _ H1 HP).
Qed.

Lemma keeps_fault : keeps P fault.
Proof.
  intros w r w'. unfold fault.
  destruct (faults w) as [|[|] rest]; intros H; inversion H; subst; auto.
Qed.

Lemma keeps_on_tree (f : node -> result node) :
  (forall n n', f n = Ok n' -> P n -> P n') -> keeps P (on_tree f).
Proof.
  intros Hf w r w'. unfold on_tree.
  destruct (f (root w)) as [n|e] eqn:E; intros H; inversion H; subst; simpl;
    eauto.
Qed.

Lemma keeps_read (A : Type) (m : IO A) :
  (forall w, snd (m w) = w) -> keeps P m.
Proof.
  intros Hm w r w' H HP. specialize (Hm w). rewrite H in Hm. simpl in Hm.
  now subst.
Qed.

Lemma keeps_for_each (A : Type) (l : list A) (f : A -> IO unit) :
  (forall x, keeps P (f x)) -> keeps P (for_each l f).
Proof.
  intros Hf. induction l as [|x l IH]; simpl.
  - apply keeps_ret.
  - apply keeps_bind; auto.
Qed.

Lemma keeps_try_finally (A : Type) (body : IO A) (cleanup : IO unit) :
  keeps P body -> keeps P cleanup -> keeps P (try_finally body cleanup).
Proof.
  intros Hb Hc w r w'. unfold try_finally.
  destruct (body w) as [rb w1] eqn:Eb.
  destruct (cleanup w1) as [[[]|e] w2] eqn:Ec; intros H; inversion H; subst;
    intros HP; apply (Hc _ _ _ Ec); apply (Hb _ _ _ Eb HP).
Qed.

End Keeps.

Lemma read_data_pure (p : pystr) (w : world) : snd (read_data p w) = w.
Proof.
  unfold read_data. now destruct (Tree.lookup _ _) as [[|]|].
Qed.

Lemma isdir_pure (p : pystr) (w : world) : snd (isdir p w) = w.
Proof.
  unfold isdir. now destruct (Tree.lookup _ _) as [[|]|].
Qed.

Lemma os_walk_pure (p : pystr) (w : world) : snd (os_walk p w) = w.
Proof.
  unfold os_walk. now destruct (Tree.lookup _ _).
Qed.

Lemma path_exists_pure (p : pystr) (w : world) : snd (path_exists p w) = w.
Proof.
  unfold path_exists. now destruct (Tree.lookup _ _).
Qed.

(** ** Archive packager *)

Section PackagerFacts.

Variable guess_type : pystr -> option pystr.
Variable today : pystr.

(** Every step of the packaging keeps a top-level directory in place. *)
Section KeepsTop.

Variable c : pystr.

Lemma makedirs_keeps_top (p : pystr) : keeps (top_dir c) (makedirs p).
Proof.
  apply keeps_bind; [apply keeps_fault | intros _].
  apply keeps_on_tree. intros n n'. apply mkdirs_keeps_top.
Qed.

Lemma write_text_keeps_top (p s : pystr) : keeps (top_dir c) (write_text p s).
Proof.
  apply keeps_bind; [apply keeps_fault | intros _].
  apply keeps_on_tree. intros n n'. apply store_keeps_top.
Qed.

Lemma copy2_keeps_top (src dst : pystr) : keeps (top_dir c) (copy2 src dst).
Proof.
  apply keeps_bind; [apply keeps_fault | intros _].
  apply keeps_bind; [apply keeps_read, isdir_pure | intros d].
  apply keeps_bind; [apply keeps_read, read_data_pure | intros data].
  apply keeps_on_tree. intros n n'. apply store_keeps_top.
Qed.

Lemma zip_open_keeps_top (p : pystr) : keeps (top_dir c) (zip_open p).
Proof.
  apply keeps_bind; [apply keeps_fault | intros _].
  apply keeps_on_tree. intros n n'. apply store_keeps_top.
Qed.

Lemma zip_write_keeps_top (zp : pystr) (default : compression)
  (file arc : pystr) (ct : option compression) :
  keeps (top_dir c) (zip_write zp default file arc ct).
Proof.
  apply keeps_bind; [apply keeps_fault | intros _].
  apply keeps_bind; [apply keeps_read, read_data_pure | intros data].
  apply keeps_bind; [apply keeps_read, read_data_pure | intros z].
  destruct z; [apply keeps_raise|].
  apply keeps_on_tree. intros n n'. apply store_keeps_top.
Qed.

Lemma create_epub_zip_keeps_top (temp_dir output_path : pystr) :
  keeps (top_dir c) (_create_epub_zip temp_dir output_path).
Proof.
  apply keeps_bind; [apply zip_open_keeps_top | intros _].
  apply keeps_try_finally; [| apply keeps_fault].
  apply keeps_bind; [apply zip_write_keeps_top | intros _].
  apply keeps_bind; [apply keeps_read, os_walk_pure | intros tree].
  apply keeps_for_each. intros [[root dirs] files].
  apply keeps_for_each. intros file.
  destruct (str_eqb file (u "mimetype"));
    [apply keeps_ret | apply zip_write_keeps_top].
Qed.

Lemma package_keeps_top (self : EpubGenerator) (temp_dir output_path : pystr) :
  keeps (top_dir c) (package guess_type today self temp_dir output_path).
Proof.
  unfold package.
  apply keeps_bind; [apply write_text_keeps_top | intros _].
  apply keeps_bind; [apply write_text_keeps_top | intros _].
  apply keeps_bind;
    [apply keeps_bind; [| intros _]; apply write_text_keeps_top | intros _].
  apply keeps_bind; [apply write_text_keeps_top | intros _].
  apply keeps_bind; [apply write_text_keeps_top | intros _].
  apply keeps_bind;
    [apply keeps_for_each; intros [i ch]; apply write_text_keeps_top
    | intros _].
  apply keeps_bind;
    [apply keeps_for_each; intros [i img]; apply write_text_keeps_top
    | intros _].
  apply keeps_bind; [| intros _; apply create_epub_zip_keeps_top].
  unfold _copy_images. apply keeps_bind.
  - destruct (cover_image self); [apply copy2_keeps_top | apply keeps_ret].
  - intros _. apply keeps_for_each. intros img. apply copy2_keeps_top.
Qed.

End KeepsTop.

Lemma parts_temp_epub : Tree.parts temp_epub = [temp_epub].
Proof. reflexivity. Qed.

Lemma make_scratch_top (w w1 : world) :
  make_scratch temp_epub w = (Ok tt, w1) -> top_dir temp_epub (root w1).
Proof.
  unfold make_scratch. intros H.
  destruct (bind_inv _ _ _ H) as [([] & w0 & H0 & H1) | (e & _ & E)];
    [| discriminate].
  assert (T0 : top_dir temp_epub (root w0)).
  { unfold makedirs in H0.
    destruct (bind_inv _ _ _ H0) as [([] & wf & _ & H2) | (e & _ & E)];
      [| discriminate].
    unfold on_tree in H2. rewrite parts_temp_epub in H2.
    destruct (Tree.mkdirs [temp_epub] (root wf)) as [n|e] eqn:M;
      inversion H2; subst. simpl.
    now apply (@mkdirs_makes_top temp_epub [] (root wf)). }
  assert (K : keeps (top_dir temp_epub)
                (makedirs (temp_epub ++ u "/META-INF") ;;
                 makedirs (temp_epub ++ u "/OEBPS") ;;
                 makedirs (temp_epub ++ u "/OEBPS/images"))).
  { apply keeps_bind; [apply makedirs_keeps_top | intros _].
    apply keeps_bind; [apply makedirs_keeps_top | intros _].
    apply makedirs_keeps_top. }
  exact (K _ _ _ H1 T0).
Qed.

Lemma cleanup_outcome (w : world) :
  top_dir temp_epub (root w) ->
  match faults w with
  | true :: _ =>
      exists w', _cleanup_temp temp_epub w = (Raise OSError, w') /\
                 root w' = root w
  | _ =>
      exists w', _cleanup_temp temp_epub w = (Ok tt, w') /\
                 forall rest, Tree.lookup (temp_epub :: rest) (root w') = None
  end.
Proof.
  intros T. destruct (lookup_top_dir T) as [sub L].
  assert (E : _cleanup_temp temp_epub w = rmtree temp_epub w).
  { unfold _cleanup_temp, bind, path_exists.
    now rewrite parts_temp_epub, L. }
  rewrite E. unfold rmtree, bind, fault. rewrite parts_temp_epub.
  destruct (faults w) as [|[|] fs]; cbv beta iota; cbn [root faults].
  - rewrite L. eexists. split; [reflexivity|]. cbn [root].
    intros rest. now apply remove_top_gone.
  - eexists. split; reflexivity.
  - rewrite L. eexists. split; [reflexivity|]. cbn [root].
    intros rest. now apply remove_top_gone.
Qed.

(** C9 (amended): once the scratch tree is made (the four [makedirs]
    calls come before the [try]), the clean-up runs on every exit of the
    body, success or the exception raised at whatever step.  When the
    removal itself does not fail, the packaging ends with the outcome of
    its body and the scratch directory and everything under it are gone
    from the tree; when the removal fails, the packaging raises that error
    in place of the body's outcome and the scratch directory is still
    there. *)
Theorem C9_scratch_removed_on_every_exit (self : EpubGenerator)
  (output_path : pystr) (w w1 : world) :
  make_scratch temp_epub w = (Ok tt, w1) ->
  let body := package guess_type today self temp_epub output_path w1 in
  match faults (snd body) with
  | true :: _ =>
      exists w',
        generate_epub guess_type today self output_path w =
          (Raise OSError, w') /\
        top_dir temp_epub (root w')
  | _ =>
      exists w',
        generate_epub guess_type today self output_path w = (fst body, w') /\
        forall rest,
          Tree.lookup (Tree.parts temp_epub ++ rest) (root w') = None
  end.
Proof.
  intros Hs body. unfold generate_epub, bind. rewrite Hs.
  unfold try_finally. subst body.
  destruct (package guess_type today self temp_epub output_path w1)
    as [r w2] eqn:Hb.
  assert (T : top_dir temp_epub (root w2)).
  { apply (@package_keeps_top temp_epub self temp_epub output_path _ _ _ Hb).
    now apply make_scratch_top with (w := w). }
  pose proof (@cleanup_outcome w2 T) as C. cbn [fst snd].
  destruct (faults w2) as [|[|] rest].
  - destruct C as (w3 & Hc & Hgone). rewrite Hc. exists w3.
    split; [reflexivity|]. rewrite parts_temp_epub. exact Hgone.
  - destruct C as (w3 & Hc & Hr). rewrite Hc. exists w3.
    split; [reflexivity|]. now rewrite Hr.
  - destruct C as (w3 & Hc & Hgone). rewrite Hc. exists w3.
    split; [reflexivity|]. rewrite parts_temp_epub. exact Hgone.
Qed.

End PackagerFacts.

Lemma C9_scratch_removed_on_every_exit_witness :
  let g := read_txt_file (__init__ (u "id")) (u "book.txt")
             (u "Title
Chapter 1
body") in
  let w0 := {| root := Dir [(u "book.txt", File (Raw (u "Title")))];
               faults := [] |} in
  exists w',
    generate_epub (fun _ => None) (u "2026-01-01") g
                  (u "missing/book.epub") w0 =
      (Raise FileNotFoundError, w') /\
    forall rest,
      Tree.lookup (Tree.parts temp_epub ++ rest) (root w') = None.
Proof.
  intros g w0.
  exact (@C9_scratch_removed_on_every_exit
           (fun _ => None) (u "2026-01-01") g (u "missing/book.epub")
           w0 (snd (make_scratch temp_epub w0)) eq_refl).
Defined.

(** C9 as stated fails on two exit paths.  A failure of the second
    [os.makedirs], which is outside the [try], leaves the scratch
    directory that the first one made; and a failure of [shutil.rmtree]
    after a complete run leaves the scratch directory, with the parts in
    it, beside the finished archive. *)
Lemma C9_scratch_left_behind :
  let g := read_txt_file (__init__ (u "id")) (u "book.txt")
             (u "Title
Chapter 1
body") in
  let tree := Dir [(u "book.txt", File (Raw (u "Title")))] in
  let run fs := generate_epub (fun _ => None) (u "2026-01-01") g
                  (u "book.epub") {| root := tree; faults := fs |} in
  (fst (run [false; true]) = Raise OSError /\
   Tree.lookup (Tree.parts temp_epub) (root (snd (run [false; true]))) =
     Some (Dir [])) /\
  (let fs := repeat false 20 ++ [true] in
   fst (run fs) = Raise OSError /\
   top_dir temp_epub (root (snd (run fs))) /\
   is_file (Tree.parts (u "temp_epub/OEBPS/chapter_1.xhtml"))
           (root (snd (run fs))) /\
   is_file (Tree.parts (u "book.epub")) (root (snd (run fs)))).
Proof.
  intros g tree run. split; [split; vm_compute; reflexivity|].
  intros fs. split; [vm_compute; reflexivity|]. split; [| split].
  - vm_compute. eexists. eexists. split; reflexivity.
  - vm_compute. eexists. reflexivity.
  - vm_compute. eexists. reflexivity.
Qed.


(** *** The archive *)

Lemma fault_root (w w' : world) (r : result unit) :
  fault w = (r, w') -> root w' = root w.
Proof.
  unfold fault. destruct (faults w) as [|[|] rest]; intros H;
    inversion H; reflexivity.
Qed.

Lemma read_data_inv (p : pystr) (w w' : world) (r : result fdata) :
  read_data p w = (r, w') ->
  w' = w /\
  forall d, r = Ok d -> Tree.lookup (Tree.parts p) (root w) = Some (File d).
Proof.
  unfold read_data.
  destruct (Tree.lookup (Tree.parts p) (root w)) as [[d|es]|];
    intros H; inversion H; subst; split; auto; intros d' E;
    inversion E; reflexivity.
Qed.

Lemma on_tree_inv (f : node -> result node) (w w' : world) (r : result unit) :
  on_tree f w = (r, w') ->
  (r = Ok tt /\ f (root w) = Ok (root w')) \/
  ((exists e, r = Raise e) /\ w' = w).
Proof.
  unfold on_tree. destruct (f (root w)) as [n|e]; intros H;
    inversion H; subst; simpl; eauto.
Qed.

(** What a [ZipFile.write] does to an archive holding [ms]. *)
Lemma zip_write_spec (zp file arc : pystr) (default : compression)
  (ct : option compression) (ms : list member) (w w' : world)
  (r : result unit) :
  Tree.lookup (Tree.parts zp) (root w) = Some (File (Archive ms)) ->
  zip_write zp default file arc ct w = (r, w') ->
  (r = Ok tt /\
   exists data,
     Tree.lookup (Tree.parts zp) (root w') =
       Some (File (Archive
         (ms ++ [(arc, match ct with Some c => c | None => default end,
                  data)])))) \/
  ((exists e, r = Raise e) /\ root w' = root w).
Proof.
  intros L H. unfold zip_write in H.
  destruct (bind_inv _ _ _ H) as [([] & w1 & H1 & H2) | (e & H1 & ->)].
  2:{ right. split; [eauto | now apply fault_root in H1]. }
  apply fault_root in H1.
  destruct (bind_inv _ _ _ H2) as [(data & w2 & H3 & H4) | (e & H3 & ->)].
  2:{ right. apply read_data_inv in H3. destruct H3 as [-> _]. eauto. }
  apply read_data_inv in H3. destruct H3 as [-> _].
  destruct (bind_inv _ _ _ H4) as [(z & w3 & H5 & H6) | (e & H5 & ->)].
  2:{ right. apply read_data_inv in H5. destruct H5 as [-> _]. eauto. }
  apply read_data_inv in H5. destruct H5 as [-> Hz].
  specialize (Hz z eq_refl). rewrite H1, L in Hz. inversion Hz; subst z.
  apply on_tree_inv in H6. destruct H6 as [[-> S] | [E ->]].
  - left. split; [reflexivity|]. exists data. now apply lookup_store in S.
  - right. auto.
Qed.

Lemma zip_write_default_keeps (zp file arc : pystr) :
  keeps (archive_ok (Tree.parts zp)) (zip_write zp ZIP_DEFLATED file arc None).
Proof.
  intros w r w' H (data & rest & L & F).
  destruct (@zip_write_spec _ _ _ _ _ _ _ _ _ L H) as [[_ [d L']] | [_ E]].
  - exists data, (rest ++ [(arc, ZIP_DEFLATED, d)]). split; [exact L'|].
    apply Forall_app. split; [exact F | repeat constructor].
  - rewrite E. now exists data, rest.
Qed.

(** C5: in the archive that [_create_epub_zip] completes, the first
    member is the entry named mimetype, stored without compression, and
    every other member is deflated. *)
Theorem C5_mimetype_first_and_stored (temp_dir output_path : pystr)
  (w w' : world) :
  _create_epub_zip temp_dir output_path w = (Ok tt, w') ->
  exists data rest,
    Tree.lookup (Tree.parts output_path) (root w') =
      Some (File (Archive ((u "mimetype", ZIP_STORED, data) :: rest))) /\
    Forall (fun m => compress_type m = ZIP_DEFLATED) rest.
Proof.
  intros H. unfold _create_epub_zip in H.
  destruct (bind_inv _ _ _ H) as [([] & w1 & H1 & H2) | (e & _ & E)];
    [| discriminate].
  assert (L1 : Tree.lookup (Tree.parts output_path) (root w1) =
               Some (File (Archive []))).
  { unfold zip_open in H1.
    destruct (bind_inv _ _ _ H1) as [([] & wf & _ & H3) | (e & _ & E)];
      [| discriminate].
    apply on_tree_inv in H3. destruct H3 as [[_ S] | [[e E] _]];
      [| discriminate].
    now apply lookup_store in S. }
  unfold try_finally in H2.
  destruct (zip_members temp_dir output_path w1) as [rb w2] eqn:Hb.
  destruct (zip_close w2) as [[[]|e] w3] eqn:Hc; inversion H2; subst.
  apply fault_root in Hc. rewrite Hc.
  unfold zip_members in Hb.
  destruct (bind_inv _ _ _ Hb) as [([] & wa & Ha & Hrest) | (e & _ & E)];
    [| discriminate].
  destruct (@zip_write_spec _ _ _ _ _ _ _ _ _ L1 Ha) as [[_ [d La]] | [[e E] _]];
    [| discriminate].
  assert (A : archive_ok (Tree.parts output_path) (root wa)).
  { exists d, []. split; [exact La | constructor]. }
  revert Hrest A. apply keeps_bind.
  - apply keeps_read, os_walk_pure.
  - intros tree. apply keeps_for_each. intros [[root0 dirs] files].
    apply keeps_for_each. intros file.
    destruct (str_eqb file (u "mimetype"));
      [apply keeps_ret | apply zip_write_default_keeps].
Qed.

Lemma C5_mimetype_first_and_stored_witness :
  let w0 :=
    {| root := Dir [(u "t", Dir [(u "a.xhtml", File (Raw (u "page")));
                                 (u "mimetype",
                                  File (Raw (u "application/epub+zip")));
                                 (u "d", Dir [(u "mimetype",
                                               File (Raw (u "x")));
                                              (u "b.png",
                                               File (Raw (u "img")))])])];
       faults := [] |} in
  exists data rest,
    Tree.lookup (Tree.parts (u "out.epub"))
      (root (snd (_create_epub_zip (u "t") (u "out.epub") w0))) =
      Some (File (Archive ((u "mimetype", ZIP_STORED, data) :: rest))) /\
    Forall (fun m => compress_type m = ZIP_DEFLATED) rest.
Proof.
  intros w0.
  apply (@C5_mimetype_first_and_stored (u "t") (u "out.epub") w0).
  vm_compute. reflexivity.
Defined.

(** * Further properties *)

(** ** The chapter patterns, read as shapes of lines *)

Lemma matches_cat_iff (start : bool) (r1 r2 : regex) (s k : pystr) :
  matches start (Cat r1 r2) s k <->
  exists s1 s2, s = s1 ++ s2 /\ matches start r1 s1 (s2 ++ k) /\
                matches (start && negb (truthy s1)) r2 s2 k.
Proof.
  split; [apply matches_cat_inv|].
  intros (s1 & s2 & -> & H1 & H2). now apply M_Cat.
Qed.

Lemma matches_bos_iff (start : bool) (s k : pystr) :
  matches start Bos s k <-> s = [] /\ start = true.
Proof.
  split; [intros H; inversion H; auto | intros [-> ->]; constructor].
Qed.

Lemma matches_eos_iff (start : bool) (s k : pystr) :
  matches start Eos s k <-> s = [] /\ at_eos k = true.
Proof.
  split; [intros H; inversion H; auto | intros [-> H]; now constructor].
Qed.

Lemma matches_empty_iff (start : bool) (s k : pystr) :
  matches start Empty s k <-> s = [].
Proof.
  split; [intros H; now inversion H | intros ->; constructor].
Qed.

Lemma matches_lit_iff (start : bool) (c : char) (s k : pystr) :
  matches start (Lit c) s k <-> s = [c].
Proof.
  split; [intros H; now inversion H | intros ->; constructor].
Qed.

Lemma matches_class_iff (start : bool) (p : char -> bool) (s k : pystr) :
  matches start (Class p) s k <-> exists c, s = [c] /\ p c = true.
Proof.
  split; [intros H; inversion H; eauto | intros (c & -> & H); now constructor].
Qed.

Lemma matches_str_iff (t : pystr) (start : bool) (s k : pystr) :
  matches start (Str t) s k <-> s = t.
Proof.
  revert start s k. induction t as [|c t IH]; intros start s k; simpl.
  - apply matches_empty_iff.
  - rewrite matches_cat_iff. split.
    + intros (s1 & s2 & -> & H1 & H2). apply matches_lit_iff in H1.
      apply IH in H2. now subst.
    + intros ->. exists [c], t. repeat split; [constructor | now apply IH].
Qed.

Lemma matches_star_class_iff (p : char -> bool) (s : pystr) (start : bool)
  (k : pystr) :
  matches start (Star (Class p)) s k <-> forallb p s = true.
Proof.
  revert start. induction s as [|c s IH]; intros start; simpl.
  - split; [reflexivity | constructor].
  - rewrite andb_true_iff. split.
    + intros H. apply matches_star_inv in H.
      destruct H as [E | (x & s1 & s2 & E & H1 & H2)]; [discriminate|].
      apply matches_class_iff in H1. destruct H1 as (y & E1 & Hp).
      inversion E1; subst y s1. inversion E; subst x s.
      split; [assumption | now apply (IH false)].
    + intros [Hp Hs].
      apply (M_StarS (s1 := []) (s2 := s)); [now constructor | now apply IH].
Qed.

Lemma matches_plus_class_iff (p : char -> bool) (s : pystr) (start : bool)
  (k : pystr) :
  matches start (Plus (Class p)) s k <-> s <> [] /\ forallb p s = true.
Proof.
  unfold Plus. rewrite matches_cat_iff. split.
  - intros (s1 & s2 & -> & H1 & H2).
    apply matches_class_iff in H1. destruct H1 as (c & -> & Hp).
    apply matches_star_class_iff in H2. simpl. rewrite Hp, H2.
    split; [discriminate | reflexivity].
  - intros [Hne H]. destruct s as [|c s]; [congruence|].
    simpl in H. apply andb_true_iff in H. destruct H as [Hp Hs].
    exists [c], s. repeat split.
    + now constructor.
    + now apply matches_star_class_iff.
Qed.

Lemma at_eos_no_nl (k : pystr) : at_eos k = true -> no_nl k -> k = [].
Proof.
  destruct k as [|c [|d k]]; simpl; try discriminate; auto.
  intros E H. apply N.eqb_eq in E. subst c. exfalso. apply H. now left.
Qed.

Lemma no_nl_app (a b : pystr) : no_nl (a ++ b) <-> no_nl a /\ no_nl b.
Proof.
  unfold no_nl. rewrite in_app_iff. tauto.
Qed.

Lemma forallb_dot_no_nl (s : pystr) :
  forallb (fun c => negb (c =? NL)) s = true <-> no_nl s.
Proof.
  unfold no_nl. induction s as [|c s IH]; simpl; [tauto|].
  rewrite andb_true_iff, IH, negb_true_iff, N.eqb_neq. intuition congruence.
Qed.

(** [^第[一二三四五六七八九十百千万\d]+章] *)
Lemma numeral_pattern_shape (line : pystr) :
  re_match (Seq [Bos; Str (u "第"); Plus (Class in_numeral_class);
                 Str (u "章")]) line = true <->
  numeral_marker line.
Proof.
  unfold re_match, numeral_marker. rewrite match_here_correct.
  cbn [Seq]. split.
  - intros (s1 & k & -> & H).
    apply matches_cat_iff in H. destruct H as (a & b & -> & Ha & H).
    apply matches_bos_iff in Ha. destruct Ha as [-> _].
    apply matches_cat_iff in H. destruct H as (c & d & -> & Hc & H).
    apply matches_str_iff in Hc. subst c.
    apply matches_cat_iff in H. destruct H as (ns & e & -> & Hn & He).
    apply matches_plus_class_iff in Hn. destruct Hn as [Hne Hn].
    apply matches_str_iff in He. subst e.
    exists ns, k. repeat split; auto. simpl. now rewrite <- !app_assoc.
  - intros (ns & rest & Hne & Hn & ->).
    exists (u "第" ++ ns ++ u "章"), rest. split; [now rewrite <- !app_assoc|].
    apply matches_cat_iff. exists [], (u "第" ++ ns ++ u "章").
    repeat split; [constructor|].
    apply matches_cat_iff. exists (u "第"), (ns ++ u "章").
    repeat split; [now apply matches_str_iff|].
    apply matches_cat_iff. exists ns, (u "章").
    repeat split; [now apply matches_plus_class_iff | now apply matches_str_iff].
Qed.

(** [^Chapter\s*\d+] *)
Lemma english_pattern_shape (line : pystr) :
  re_match (Seq [Bos; Str (u "Chapter"); Star (Class is_space);
                 Plus (Class is_digit)]) line = true <->
  english_marker line.
Proof.
  unfold re_match, english_marker. rewrite match_here_correct.
  cbn [Seq]. split.
  - intros (s1 & k & -> & H).
    apply matches_cat_iff in H. destruct H as (a & b & -> & Ha & H).
    apply matches_bos_iff in Ha. destruct Ha as [-> _].
    apply matches_cat_iff in H. destruct H as (c & d & -> & Hc & H).
    apply matches_str_iff in Hc. subst c.
    apply matches_cat_iff in H. destruct H as (ws & ds & -> & Hw & Hd).
    apply matches_star_class_iff in Hw.
    apply matches_plus_class_iff in Hd. destruct Hd as [Hne Hd].
    exists ws, ds, k. repeat split; auto. simpl. now rewrite <- !app_assoc.
  - intros (ws & ds & rest & Hw & Hne & Hd & ->).
    exists (u "Chapter" ++ ws ++ ds), rest.
    split; [now rewrite <- !app_assoc|].
    apply matches_cat_iff. exists [], (u "Chapter" ++ ws ++ ds).
    repeat split; [constructor|].
    apply matches_cat_iff. exists (u "Chapter"), (ws ++ ds).
    repeat split; [now apply matches_str_iff|].
    apply matches_cat_iff. exists ws, ds.
    repeat split;
      [now apply matches_star_class_iff | now apply matches_plus_class_iff].
Qed.

(** [^\d+\..*$], on a line without newline *)
Lemma numbered_pattern_shape (line : pystr) :
  no_nl line ->
  (re_match (Seq [Bos; Plus (Class is_digit); Lit DOT; Star Dot; Eos]) line
     = true <->
   numbered_marker line).
Proof.
  intros Hnl. unfold re_match, numbered_marker. rewrite match_here_correct.
  cbn [Seq]. split.
  - intros (s1 & k & -> & H).
    apply matches_cat_iff in H. destruct H as (a & b & -> & Ha & H).
    apply matches_bos_iff in Ha. destruct Ha as [-> _].
    apply matches_cat_iff in H. destruct H as (ds & d & -> & Hd & H).
    apply matches_plus_class_iff in Hd. destruct Hd as [Hne Hd].
    apply matches_cat_iff in H. destruct H as (p & e & -> & Hp & H).
    apply matches_lit_iff in Hp. subst p.
    exists ds, (e ++ k). repeat split; auto. simpl.
    now rewrite <- !app_assoc.
  - intros (ds & rest & Hne & Hd & ->).
    apply no_nl_app in Hnl. destruct Hnl as [_ Hrest].
    assert (Hr : no_nl rest). { intros H. apply Hrest. now right. }
    exists (ds ++ DOT :: rest), []. split; [now rewrite app_nil_r|].
    apply matches_cat_iff. exists [], (ds ++ DOT :: rest).
    repeat split; [constructor|].
    apply matches_cat_iff. exists ds, (DOT :: rest).
    repeat split; [now apply matches_plus_class_iff|].
    apply matches_cat_iff. exists [DOT], rest.
    repeat split; [constructor|].
    apply matches_cat_iff. exists rest, [].
    split; [now rewrite app_nil_r | split].
    + apply matches_star_class_iff. now apply forallb_dot_no_nl.
    + now constructor.
Qed.

(** [^【.*】$], on a line without newline *)
Lemma bracket_pattern_shape (line : pystr) :
  no_nl line ->
  (re_match (Seq [Bos; Str (u "【"); Star Dot; Str (u "】"); Eos]) line = true
   <-> bracket_marker line).
Proof.
  intros Hnl. unfold re_match, bracket_marker. rewrite match_here_correct.
  cbn [Seq]. split.
  - intros (s1 & k & -> & H).
    apply matches_cat_iff in H. destruct H as (a & b & -> & Ha & H).
    apply matches_bos_iff in Ha. destruct Ha as [-> _].
    apply matches_cat_iff in H. destruct H as (o & d & -> & Ho & H).
    apply matches_str_iff in Ho. subst o.
    apply matches_cat_iff in H. destruct H as (mid & e & -> & Hm & H).
    apply matches_cat_iff in H. destruct H as (c & f & -> & Hc & H).
    apply matches_str_iff in Hc. subst c.
    apply matches_eos_iff in H. destruct H as [-> He].
    apply no_nl_app in Hnl. destruct Hnl as [_ Hk].
    apply (@at_eos_no_nl k He) in Hk. subst k.
    exists mid. simpl. now rewrite !app_nil_r.
  - intros (mid & ->).
    assert (Hm : no_nl mid).
    { apply no_nl_app in Hnl. destruct Hnl as [_ H].
      apply no_nl_app in H. tauto. }
    exists (u "【" ++ mid ++ u "】"), []. split; [now rewrite app_nil_r|].
    apply matches_cat_iff. exists [], (u "【" ++ mid ++ u "】").
    repeat split; [constructor|].
    apply matches_cat_iff. exists (u "【"), (mid ++ u "】").
    repeat split; [now apply matches_str_iff|].
    apply matches_cat_iff. exists mid, (u "】").
    repeat split.
    + apply matches_star_class_iff. now apply forallb_dot_no_nl.
    + apply matches_cat_iff. exists (u "】"), [].
      split; [now rewrite app_nil_r | split];
        [now apply matches_str_iff | now constructor].
Qed.

(** X1: a line without newline is taken as a chapter title exactly when it
    has one of four shapes: 第, one or more Chinese numerals or decimal
    digits, 章, then anything; Chapter, any whitespace, one or more decimal
    digits, then anything; one or more decimal digits and a period, then
    anything; or 【 ... 】 from its first to its last code point. *)
Theorem X1_chapter_title_shapes (line : pystr) :
  no_nl line ->
  (is_chapter_title line = true <->
   numeral_marker line \/ english_marker line \/
   numbered_marker line \/ bracket_marker line).
Proof.
  intros Hnl. unfold is_chapter_title, chapter_patterns. cbn [existsb].
  rewrite !orb_true_iff.
  rewrite numeral_pattern_shape, english_pattern_shape.
  rewrite (numbered_pattern_shape Hnl), (bracket_pattern_shape Hnl).
  intuition discriminate.
Qed.

Lemma X1_chapter_title_shapes_witness :
  is_chapter_title (u "3.14 is close to pi") = true <->
  numeral_marker (u "3.14 is close to pi") \/
  english_marker (u "3.14 is close to pi") \/
  numbered_marker (u "3.14 is close to pi") \/
  bracket_marker (u "3.14 is close to pi").
Proof.
  apply X1_chapter_title_shapes. apply forallb_dot_no_nl. reflexivity.
Defined.

(** ** Text segmenter: what the chapter list looks like *)

Lemma flush_nonempty (chs : list chapter) (lines : list pystr) :
  Forall (fun ch => content ch <> []) chs ->
  Forall (fun ch => content ch <> []) (flush (scan_lines chs lines)).
Proof.
  intros H.
  assert (C : forall ttl cur l,
             Forall (fun ch => content ch <> []) l ->
             Forall (fun ch => content ch <> []) (close_chapter l ttl cur)).
  { intros ttl cur l Hl. apply close_chapter_inv; [assumption|].
    simpl. intros T E. rewrite E in T. discriminate. }
  unfold flush, scan_lines. apply C.
  apply fold_left_inv with (I := fun st =>
    Forall (fun ch => content ch <> []) (sc_chapters st)); [| exact H].
  intros st raw Hst. unfold scan_line.
  destruct (negb (truthy (strip raw))); simpl; auto.
  destruct (is_chapter_title (strip raw)); simpl; auto.
Qed.

(** X2: after [read_txt_file] no chapter has empty content, except in one
    case: the text after the title line is blank, and then the list is the
    single synthetic chapter with empty content. *)
Theorem X2_chapter_contents_nonempty (self : EpubGenerator)
  (txt_path content0 : pystr) :
  Forall (fun ch => content ch <> []) (chapters self) ->
  let self' := read_txt_file self txt_path content0 in
  let rest := snd (take_title (book_title self) content0) in
  Forall (fun ch => content ch <> []) (chapters self') \/
  (strip rest = [] /\
   chapters self' = [{| title := book_title self'; content := [] |}]).
Proof.
  intros H. unfold read_txt_file.
  destruct (take_title (book_title self) content0) as [ttl0 content1].
  simpl. pose proof (flush_nonempty (split NL content1) H) as F.
  unfold ensure_chapter.
  destruct (flush (scan_lines (chapters self) (split NL content1))) as [|c l].
  - destruct (strip content1) as [|x s] eqn:E.
    + right. auto.
    + left. constructor; [simpl; discriminate | constructor].
  - left. exact F.
Qed.

Lemma X2_chapter_contents_nonempty_witness :
  let self' := read_txt_file (__init__ (u "id")) (u "book.txt")
                 (u "Title
Chapter 1

Chapter 2
body") in
  Forall (fun ch => content ch <> []) (chapters self') \/
  (strip (snd (take_title (book_title (__init__ (u "id")))
                 (u "Title
Chapter 1

Chapter 2
body"))) = [] /\
   chapters self' = [{| title := book_title self'; content := [] |}]).
Proof.
  apply X2_chapter_contents_nonempty. simpl. constructor.
Defined.

Lemma subseq_refl (A : Type) (l : list A) : subseq l l.
Proof. induction l; constructor; assumption. Qed.

Lemma subseq_app_r (A : Type) (l1 l2 l3 : list A) :
  subseq l1 l2 -> subseq l1 (l2 ++ l3).
Proof. induction 1; simpl; constructor; assumption. Qed.

Lemma subseq_snoc (A : Type) (l1 l2 : list A) (x : A) :
  subseq l1 l2 -> subseq (l1 ++ [x]) (l2 ++ [x]).
Proof.
  induction 1 as [l|y l1 l2 _ IH|y l1 l2 _ IH]; simpl.
  - induction l as [|y l IH]; simpl; constructor; [constructor | exact IH].
  - now constructor.
  - now constructor.
Qed.

Lemma marker_lines_app (l1 l2 : list pystr) :
  marker_lines (l1 ++ l2) = marker_lines l1 ++ marker_lines l2.
Proof. unfold marker_lines. now rewrite map_app, filter_app. Qed.

Lemma scan_line_body (st : scan) (raw : pystr) :
  is_chapter_title (strip raw) = false ->
  sc_chapters (scan_line st raw) = sc_chapters st /\
  chapter_title (scan_line st raw) = chapter_title st.
Proof.
  intros M. unfold scan_line. rewrite M.
  now destruct (negb (truthy (strip raw))).
Qed.

(** The titles closed so far are picked, in order, among the titles that
    came before the current one. *)
Lemma scan_titles_inv (t0 : list pystr) (lines : list pystr) :
  forall (st : scan) (seen sub before : list pystr),
    map title (sc_chapters st) = t0 ++ sub ->
    subseq sub before ->
    u "前言" :: seen = before ++ [chapter_title st] ->
    exists sub' before',
      map title (sc_chapters (fold_left scan_line lines st)) = t0 ++ sub' /\
      subseq sub' before' /\
      u "前言" :: seen ++ marker_lines lines =
        before' ++ [chapter_title (fold_left scan_line lines st)].
Proof.
  induction lines as [|raw lines IH]; intros st seen sub before Ht Hs Hb.
  - exists sub, before. simpl. unfold marker_lines. simpl.
    now rewrite app_nil_r.
  - simpl fold_left.
    change (raw :: lines) with ([raw] ++ lines).
    rewrite marker_lines_app, app_assoc.
    assert (E : marker_lines [raw] =
                if is_chapter_title (strip raw) then [strip raw] else [])
      by reflexivity.
    rewrite E. clear E.
    destruct (is_chapter_title (strip raw)) eqn:M.
    + rewrite (scan_line_marker st raw M).
      apply IH with (before := before ++ [chapter_title st])
                    (sub := if truthy (strip (current_chapter st))
                            then sub ++ [chapter_title st] else sub).
      * simpl. unfold close_chapter.
        destruct (truthy (strip (current_chapter st))); [|exact Ht].
        rewrite map_app, Ht. simpl. now rewrite app_assoc.
      * destruct (truthy (strip (current_chapter st)));
          [now apply subseq_snoc | now apply subseq_app_r].
      * simpl. change (u "前言" :: seen ++ [strip raw])
          with ((u "前言" :: seen) ++ [strip raw]). now rewrite Hb.
    + destruct (scan_line_body st raw M) as [E1 E2].
      rewrite app_nil_r.
      apply IH with (before := before) (sub := sub);
        [now rewrite E1 | assumption | now rewrite E2].
Qed.

Lemma flush_titles (chs : list chapter) (lines : list pystr) :
  exists sub,
    map title (flush (scan_lines chs lines)) = map title chs ++ sub /\
    subseq sub (u "前言" :: marker_lines lines).
Proof.
  destruct (@scan_titles_inv (map title chs) lines (scan_start chs) [] [] [])
    as (sub & before & Ht & Hs & Hb).
  - simpl. now rewrite app_nil_r.
  - constructor.
  - reflexivity.
  - fold (scan_lines chs lines) in Ht, Hb. simpl in Hb.
    unfold flush, close_chapter.
    destruct (truthy (strip (current_chapter (scan_lines chs lines)))).
    + exists (sub ++ [chapter_title (scan_lines chs lines)]). split.
      * rewrite map_app, Ht. simpl. now rewrite app_assoc.
      * rewrite Hb. now apply subseq_snoc.
    + exists sub. split; [exact Ht|]. rewrite Hb. now apply subseq_app_r.
Qed.

(** X3: the titles of the chapters that [read_txt_file] adds are, in the
    order of the text, the placeholder 前言 followed by the trimmed marker
    lines, with some of them left out (those whose chapter stayed blank);
    or the list is the single synthetic chapter. *)
Theorem X3_chapter_titles_in_text_order (self : EpubGenerator)
  (txt_path content0 : pystr) :
  let self' := read_txt_file self txt_path content0 in
  let rest := snd (take_title (book_title self) content0) in
  chapters self' = [{| title := book_title self'; content := strip rest |}] \/
  exists sub,
    map title (chapters self') = map title (chapters self) ++ sub /\
    subseq sub (u "前言" :: marker_lines (split NL rest)).
Proof.
  unfold read_txt_file.
  destruct (take_title (book_title self) content0) as [ttl0 content1].
  simpl. unfold ensure_chapter.
  destruct (flush_titles (chapters self) (split NL content1))
    as (sub & Ht & Hs).
  destruct (flush (scan_lines (chapters self) (split NL content1))) as [|c l].
  - left. reflexivity.
  - right. now exists sub.
Qed.

(** X4: a text without marker lines gives exactly one chapter: titled 前言
    and holding the trimmed lines of the text when these are not all blank,
    else the synthetic chapter. *)
Theorem X4_no_marker_single_chapter (self : EpubGenerator)
  (txt_path content0 : pystr) :
  chapters self = [] ->
  let self' := read_txt_file self txt_path content0 in
  let rest := snd (take_title (book_title self) content0) in
  let body := strip (unlines (map strip (split NL rest))) in
  Forall (fun l => is_chapter_title (strip l) = false) (split NL rest) ->
  chapters self' =
    [ if truthy body
      then {| title := u "前言"; content := body |}
      else {| title := book_title self'; content := strip rest |} ].
Proof.
  intros Hc. unfold read_txt_file.
  destruct (take_title (book_title self) content0) as [ttl0 content1].
  simpl. intros Hl. unfold flush, scan_lines.
  rewrite (scan_no_marker [] Hl). simpl. rewrite Hc.
  unfold close_chapter.
  destruct (truthy (strip (unlines (map strip (split NL content1)))));
    reflexivity.
Qed.

Lemma no_marker_forallb (lines : list pystr) :
  forallb (fun l => negb (is_chapter_title (strip l))) lines = true ->
  Forall (fun l => is_chapter_title (strip l) = false) lines.
Proof.
  intros H. apply Forall_forall. intros l Hl.
  rewrite forallb_forall in H. now apply negb_true_iff, H.
Qed.

Lemma X4_no_marker_single_chapter_witness :
  chapters (read_txt_file (__init__ (u "id")) (u "book.txt")
              (u "Title
 first line 

second line
")) =
    [ {| title := u "前言"; content := u "first line

second line" |} ].
Proof.
  apply (@X4_no_marker_single_chapter (__init__ (u "id")) (u "book.txt")
           (u "Title
 first line 

second line
") eq_refl).
  apply no_marker_forallb. vm_compute. reflexivity.
Defined.

(** ** The sanitizers *)

Lemma span_not_spec (c : char) (s run rest : pystr) :
  span_not c s = (run, rest) ->
  s = run ++ rest /\ ~ In c run /\
  match rest with [] => True | x :: _ => x = c end.
Proof.
  revert run rest. induction s as [|x s IH]; simpl; intros run rest H.
  - inversion H; subst. auto.
  - destruct (N.eqb_spec x c) as [->|Hne].
    + inversion H; subst. auto.
    + destruct (span_not c s) as [run' rest'] eqn:E.
      inversion H; subst. destruct (IH _ _ eq_refl) as (-> & Hn & Hr).
      repeat split; auto. intros [E1|E1]; [congruence | contradiction].
Qed.

Lemma span_not_absent (c : char) (s : pystr) :
  ~ In c s -> span_not c s = (s, []).
Proof.
  induction s as [|x s IH]; simpl; intros H; [reflexivity|].
  destruct (N.eqb_spec x c) as [->|_]; [tauto|].
  rewrite IH by tauto. reflexivity.
Qed.

Lemma span_not_app (c : char) (s run rest b : pystr) (x : char) :
  span_not c s = (run, x :: rest) ->
  span_not c (s ++ b) = (run, x :: rest ++ b).
Proof.
  revert run. induction s as [|y s IH]; simpl; intros run H.
  - discriminate.
  - destruct (y =? c).
    + inversion H; subst. reflexivity.
    + destruct (span_not c s) as [run' rest'] eqn:E.
      inversion H; subst. now rewrite (IH _ eq_refl).
Qed.

Lemma match_tag_empty (s repl : pystr) (n : nat) :
  match_tag s = Some (repl, n) -> repl = [].
Proof.
  unfold match_tag. destruct s as [|c t]; [discriminate|].
  destruct (c =? LT); [|discriminate].
  destruct (span_not GT t) as [[|r run] [|x rest]]; try discriminate.
  intros H. now inversion H.
Qed.

Lemma sub_from_cons (m : pystr -> option (pystr * nat)) (c : char)
  (s : pystr) :
  sub_from m 0 (c :: s) =
    match m (c :: s) with
    | Some (repl, n) => repl ++ sub_from m (pred n) s
    | None => c :: sub_from m 0 s
    end.
Proof. reflexivity. Qed.

Lemma sub_from_skip (m : pystr -> option (pystr * nat)) (k : nat) (c : char)
  (s : pystr) :
  sub_from m (S k) (c :: s) = sub_from m k s.
Proof. reflexivity. Qed.

(** The result holds code points of the title only. *)
Lemma sub_tag_incl (x : char) (s : pystr) (n : nat) :
  In x (sub_from match_tag n s) -> In x s.
Proof.
  revert n. induction s as [|c s IH]; intros n.
  - destruct n; simpl; auto.
  - destruct n as [|k].
    + rewrite sub_from_cons.
      destruct (match_tag (c :: s)) as [[repl m]|] eqn:E.
      * rewrite (match_tag_empty _ E). simpl. intros H. right.
        exact (IH _ H).
      * simpl. intros [H|H]; [now left | right; exact (IH _ H)].
    + rewrite sub_from_skip. intros H. right. exact (IH _ H).
Qed.

Lemma match_tag_not_lt (c : char) (s : pystr) :
  c <> LT -> match_tag (c :: s) = None.
Proof.
  intros H. unfold match_tag. apply N.eqb_neq in H. now rewrite H.
Qed.

Lemma match_tag_lt (s : pystr) :
  match_tag (LT :: s) =
    match span_not GT s with
    | ((_ :: _) as run, _ :: _) => Some ([], 2 + List.length run)%nat
    | _ => None
    end.
Proof. reflexivity. Qed.

Lemma tag_free_cons (c : char) (s : pystr) :
  tag_free (c :: s) <-> match_tag (c :: s) = None /\ tag_free s.
Proof. reflexivity. Qed.

Lemma sub_tag_free (s : pystr) (n : nat) : tag_free (sub_from match_tag n s).
Proof.
  revert n. induction s as [|c s IH]; intros n.
  - destruct n; exact I.
  - destruct n as [|k]; [| rewrite sub_from_skip; apply IH].
    rewrite sub_from_cons.
    destruct (match_tag (c :: s)) as [[repl m]|] eqn:E.
    + rewrite (match_tag_empty _ E). simpl. apply IH.
    + apply tag_free_cons. split; [| apply IH].
      destruct (N.eq_dec c LT) as [->|Hne]; [| now apply match_tag_not_lt].
      rewrite match_tag_lt in *.
      destruct (span_not GT s) as [run rest] eqn:Sp.
      destruct (span_not_spec _ _ Sp) as (Es & Hrun & Hrest).
      destruct rest as [|x rest].
      * rewrite app_nil_r in Es. subst run.
        rewrite span_not_absent; [now destruct (sub_from match_tag 0 s)|].
        intros H. apply Hrun. exact (sub_tag_incl _ _ _ H).
      * destruct run as [|r run]; [| discriminate].
        simpl in Es. subst s x.
        rewrite sub_from_cons, match_tag_not_lt by discriminate.
        reflexivity.
Qed.

Lemma tag_free_fixed (s : pystr) : tag_free s -> re_sub match_tag s = s.
Proof.
  unfold re_sub. induction s as [|c s IH]; [reflexivity|].
  intros H. apply tag_free_cons in H. destruct H as [E H].
  rewrite sub_from_cons, E. now rewrite IH.
Qed.

Lemma tag_free_dropwhile (p : char -> bool) (s : pystr) :
  tag_free s -> tag_free (dropwhile p s).
Proof.
  induction s as [|c s IH]; [auto|].
  intros H. cbn [dropwhile]. destruct (p c); [| exact H].
  apply tag_free_cons in H. destruct H as [_ H]. now apply IH.
Qed.

Lemma match_tag_prefix (a b : pystr) :
  match_tag (a ++ b) = None -> match_tag a = None.
Proof.
  destruct a as [|c t]; [reflexivity|].
  destruct (N.eq_dec c LT) as [->|Hne]; [| intros _; now apply match_tag_not_lt].
  change ((LT :: t) ++ b) with (LT :: t ++ b). rewrite !match_tag_lt.
  destruct (span_not GT t) as [run [|x rest]] eqn:Sp.
  - now destruct run.
  - rewrite (@span_not_app GT t run rest b x Sp). now destruct run.
Qed.

Lemma tag_free_prefix (a b : pystr) : tag_free (a ++ b) -> tag_free a.
Proof.
  induction a as [|c a IH]; [exact (fun _ => I)|].
  change ((c :: a) ++ b) with (c :: a ++ b).
  intros H. apply tag_free_cons in H. destruct H as [E H].
  apply tag_free_cons. split; [| now apply IH].
  now apply (match_tag_prefix (c :: a) b).
Qed.

Lemma dropwhile_suffix (p : char -> bool) (s : pystr) :
  exists w, s = w ++ dropwhile p s.
Proof.
  induction s as [|c s [w IH]]; simpl.
  - now exists [].
  - destruct (p c); [| now exists []].
    exists (c :: w). simpl. now rewrite <- IH.
Qed.

Lemma tag_free_strip (s : pystr) : tag_free s -> tag_free (strip s).
Proof.
  intros H. unfold strip, lstrip.
  apply (tag_free_dropwhile is_space) in H.
  set (t := dropwhile is_space s) in *. unfold rstrip.
  destruct (dropwhile_suffix is_space (rev t)) as [w E].
  apply (f_equal (@rev char)) in E.
  rewrite rev_involutive, rev_app_distr in E.
  rewrite E in H. now apply tag_free_prefix in H.
Qed.

(** X5: whatever the title, [_sanitize_title] returns a text in which the
    tag pattern matches nowhere, which has no leading or trailing
    whitespace, and which holds code points of the title only. *)
Theorem X5_sanitize_title_leaves_no_tag (title : pystr) :
  tag_free (_sanitize_title title) /\
  clean_ends (_sanitize_title title) /\
  (forall c, In c (_sanitize_title title) -> In c title).
Proof.
  unfold _sanitize_title. repeat split.
  - apply tag_free_strip. apply sub_tag_free.
  - apply strip_clean_ends.
  - apply strip_clean_ends.
  - intros c H. apply strip_incl in H. exact (sub_tag_incl _ _ _ H).
Qed.

(** X6: [_sanitize_title] is idempotent. *)
Theorem X6_sanitize_title_idempotent (title : pystr) :
  _sanitize_title (_sanitize_title title) = _sanitize_title title.
Proof.
  unfold _sanitize_title.
  rewrite tag_free_fixed; [apply strip_idem|].
  apply tag_free_strip. apply sub_tag_free.
Qed.

Lemma sub_no_occurrence (m : pystr -> option (pystr * nat)) (p s : pystr) :
  (forall t, startswith p t = false -> m t = None) ->
  contains p s = false -> re_sub m s = s.
Proof.
  intros Hm. unfold re_sub. induction s as [|c s IH]; [reflexivity|].
  intros H. simpl in H. apply orb_false_iff in H. destruct H as [H1 H2].
  change (sub_from m 0 (c :: s))
    with (match m (c :: s) with
          | Some (repl, n) => repl ++ sub_from m (pred n) s
          | None => c :: sub_from m 0 s
          end).
  rewrite (Hm _ H1). now rewrite IH.
Qed.

(** X7: [_sanitize_content] returns unchanged every text in which neither
    [<div] nor [</div>] occurs. *)
Theorem X7_sanitize_content_identity (content0 : pystr) :
  contains (u "<div") content0 = false ->
  contains (u "</div>") content0 = false ->
  _sanitize_content content0 = content0.
Proof.
  intros H1 H2. unfold _sanitize_content.
  rewrite (@sub_no_occurrence match_div_open (u "<div") content0); auto.
  - apply (@sub_no_occurrence match_div_close (u "</div>")); auto.
    intros t Ht. unfold match_div_close. now rewrite Ht.
  - intros t Ht. unfold match_div_open. now rewrite Ht.
Qed.

Lemma X7_sanitize_content_identity_witness :
  _sanitize_content (u "<p>a < b, a divided by b</p>") =
  u "<p>a < b, a divided by b</p>".
Proof.
  apply X7_sanitize_content_identity; reflexivity.
Defined.

(** ** Decimal strings *)

Lemma digits_value (fuel : nat) :
  forall (n : N) (acc : pystr),
    n < 10 ^ N.of_nat fuel ->
    exists d, digits fuel n acc = d ++ acc /\ decimal_value d = n.
Proof.
  induction fuel as [|f IH]; intros n acc Hn.
  - change (10 ^ N.of_nat 0) with 1 in Hn. exists []. split; [reflexivity|].
    unfold decimal_value. cbn [rev fold_right]. lia.
  - cbn [digits]. destruct (N.ltb_spec n 10) as [Hlt|Hge].
    + exists [48 + n mod 10]. split; [reflexivity|].
      unfold decimal_value. cbn [rev app fold_right].
      rewrite N.mod_small by assumption. lia.
    + assert (Hq : n / 10 < 10 ^ N.of_nat f).
      { apply N.Div0.div_lt_upper_bound.
        rewrite Nnat.Nat2N.inj_succ, N.pow_succ_r' in Hn. exact Hn. }
      destruct (IH (n / 10) ((48 + n mod 10) :: acc) Hq) as (d & E & V).
      exists (d ++ [48 + n mod 10]). split.
      * rewrite E. now rewrite <- app_assoc.
      * unfold decimal_value in *. rewrite rev_app_distr.
        cbn [rev app fold_right]. rewrite V.
        pose proof (N.Div0.div_mod n 10) as D. clear - D.
        set (m := n mod 10) in *. set (q := n / 10) in *.
        clearbody m q. unfold char in *. lia.
Qed.

(** [str(n)] read back as a number is [n]. *)
Lemma str_of_nat_value (n : nat) : decimal_value (str_of_nat n) = N.of_nat n.
Proof.
  unfold str_of_nat.
  destruct (@digits_value (S n) (N.of_nat n) []) as (d & E & V).
  - apply N.lt_trans with (10 ^ N.of_nat n).
    + apply N.pow_gt_lin_r. lia.
    + apply N.pow_lt_mono_r; lia.
  - rewrite E, app_nil_r. exact V.
Qed.

Lemma str_of_nat_inj (n m : nat) : str_of_nat n = str_of_nat m -> n = m.
Proof.
  intros E. apply (f_equal decimal_value) in E.
  rewrite !str_of_nat_value in E. lia.
Qed.

(** ** Asset collector: identifiers, paths, what stays as it was *)

Lemma numbered_ids (folder : pystr) (fs : list pystr) (n : nat) (x : pystr) :
  In x (map id (numbered folder n fs)) ->
  exists k, (n < k)%nat /\ x = u "img_" ++ str_of_nat k.
Proof.
  revert n. induction fs as [|f fs IH]; intros n; simpl; [tauto|].
  intros [E|H].
  - exists (n + 1)%nat. split; [lia | now rewrite E].
  - destruct (IH _ H) as (k & Hk & ->). exists k. split; [lia | reflexivity].
Qed.

Lemma numbered_ids_nodup (folder : pystr) (fs : list pystr) (n : nat) :
  NoDup (map id (numbered folder n fs)).
Proof.
  revert n. induction fs as [|f fs IH]; intros n; simpl; constructor.
  - intros H. apply numbered_ids in H. destruct H as (k & Hk & E).
    change (u "img_" ++ str_of_nat (n + 1) = u "img_" ++ str_of_nat k) in E.
    apply app_inv_head in E. apply str_of_nat_inj in E. lia.
  - apply IH.
Qed.

(** X8: on a generator without images, [add_images] gives the ordinary
    images pairwise distinct identifiers, none of which is the identifier
    of the cover. *)
Theorem X8_image_ids_distinct (lower : pystr -> pystr)
  (self : EpubGenerator) (folder : pystr) (listing : option (list pystr)) :
  images self = [] ->
  let self' := add_images lower self folder listing in
  NoDup (map id (images self')) /\
  ~ In (u "cover") (map id (images self')).
Proof.
  intros Hi. destruct listing as [entries|]; simpl.
  2:{ rewrite Hi. split; [constructor | intros []]. }
  destruct (add_images_fold lower folder
              (sort (filter (is_supported lower) entries)) self) as [E _].
  rewrite E, Hi. simpl. split.
  - apply numbered_ids_nodup.
  - intros H. apply numbered_ids in H. destruct H as (k & _ & E1).
    discriminate E1.
Qed.

Lemma X8_image_ids_distinct_witness :
  let self' := add_images ascii_lower (__init__ (u "id")) (u "imgs")
                 (Some [u "b.png"; u "cover.jpg"; u "a.gif"]) in
  NoDup (map id (images self')) /\
  ~ In (u "cover") (map id (images self')).
Proof.
  apply X8_image_ids_distinct. reflexivity.
Defined.

Lemma numbered_forall (P : image -> Prop) (folder : pystr) (fs : list pystr) :
  (forall f k, In f fs ->
     P {| id := u "img_" ++ str_of_nat k; path := path_join folder f;
          filename := f |}) ->
  forall n, Forall P (numbered folder n fs).
Proof.
  induction fs as [|f fs IH]; intros H n; simpl; constructor.
  - apply H. now left.
  - apply IH. intros g k Hg. apply H. now right.
Qed.

(** What the fold appends and what it puts in the cover slot, by the
    tests of the code. *)
Lemma add_images_classified (lower : pystr -> pystr)
  (self : EpubGenerator) (folder : pystr) (entries : list pystr) :
  let self' := add_images lower self folder (Some entries) in
  (exists added,
     images self' = images self ++ added /\
     Forall (fun img =>
               In (filename img) entries /\
               is_supported lower (filename img) = true /\
               is_cover_name lower (filename img) = false /\
               path img = path_join folder (filename img)) added) /\
  (cover_image self' = cover_image self \/
   exists f,
     cover_image self' =
       Some {| id := u "cover"; path := path_join folder f; filename := f |} /\
     In f entries /\ is_supported lower f = true /\
     is_cover_name lower f = true).
Proof.
  simpl.
  set (kept := sort (filter (is_supported lower) entries)).
  assert (K : forall f, In f kept ->
                In f entries /\ is_supported lower f = true).
  { intros f H. apply filter_In.
    now apply (Permutation_in _ (sort_perm _)). }
  destruct (add_images_fold lower folder kept self) as [Ei Ec]. split.
  - eexists. split; [exact Ei|].
    apply numbered_forall. intros f k Hf. simpl.
    apply filter_In in Hf. destruct Hf as [Hk Hn].
    destruct (K f Hk) as [H1 H2].
    repeat split; auto. now apply negb_true_iff.
  - rewrite Ec.
    destruct (rev (filter (is_cover_name lower) kept)) as [|f r] eqn:E;
      [now left | right].
    exists f. split; [reflexivity|].
    assert (Hf : In f (filter (is_cover_name lower) kept)).
    { apply in_rev. rewrite E. now left. }
    apply filter_In in Hf. destruct Hf as [Hk Hcv].
    destruct (K f Hk). auto.
Qed.

(** X9: for entries without cased letters outside ASCII, every image that
    [add_images] appends is a listed entry named stem.ext with one of the
    six extensions in whatever case, in whose name neither cover (in
    whatever case) nor 封面 occurs, stored under its path in the folder;
    and when the call sets the cover, the cover is a listed entry with
    such an extension in whose name cover or 封面 occurs. *)
Theorem X9_images_and_cover_classified (lower : pystr -> pystr)
  (self : EpubGenerator) (folder : pystr) (entries : list pystr) :
  (forall f, In f entries ->
             ascii_cased lower f /\ ascii_cased lower (suffix f)) ->
  let self' := add_images lower self folder (Some entries) in
  (exists added,
     images self' = images self ++ added /\
     Forall (fun img =>
               In (filename img) entries /\
               has_image_extension (filename img) /\
               ~ reads_as_cover (filename img) /\
               path img = path_join folder (filename img)) added) /\
  (cover_image self' = cover_image self \/
   exists f,
     cover_image self' =
       Some {| id := u "cover"; path := path_join folder f; filename := f |} /\
     In f entries /\ has_image_extension f /\ reads_as_cover f).
Proof.
  intros Ha self'.
  destruct (add_images_classified lower self folder entries)
    as [(added & Ei & Fa) Hc].
  fold self' in Ei, Hc. split.
  - exists added. split; [exact Ei|].
    apply Forall_impl with (2 := Fa). intros img (H1 & H2 & H3 & H4).
    destruct (Ha _ H1) as [A1 A2]. repeat split; auto.
    + now apply (@is_supported_extension lower (filename img) A2).
    + intros R. apply (@is_cover_name_reads lower (filename img) A1) in R.
      congruence.
  - destruct Hc as [Hc | (f & E & H1 & H2 & H3)]; [now left | right].
    destruct (Ha _ H1) as [A1 A2]. exists f. repeat split; auto.
    + now apply (@is_supported_extension lower f A2).
    + now apply (@is_cover_name_reads lower f A1).
Qed.

Lemma X9_images_and_cover_classified_witness :
  let e := add_images ascii_lower (__init__ (u "id")) (u "imgs")
             (Some [u "z.PNG"; u "notes.txt"; u "My-COVER.Jpg"; u "a.webp"]) in
  (exists added,
     images e = added /\
     Forall (fun img =>
               has_image_extension (filename img) /\
               ~ reads_as_cover (filename img)) added) /\
  exists f,
    cover_image e =
      Some {| id := u "cover"; path := path_join (u "imgs") f;
              filename := f |} /\
    has_image_extension f /\ reads_as_cover f.
Proof.
  intros e.
  destruct (@X9_images_and_cover_classified ascii_lower (__init__ (u "id"))
              (u "imgs")
              [u "z.PNG"; u "notes.txt"; u "My-COVER.Jpg"; u "a.webp"])
    as [(added & Ei & Fa) Hc].
  - intros f _. split; reflexivity.
  - split.
    + exists added. split; [exact Ei|].
      apply Forall_impl with (2 := Fa). tauto.
    + destruct Hc as [Hc | (f & E & _ & H2 & H3)].
      * vm_compute in Hc. discriminate Hc.
      * exists f. auto.
Defined.

Lemma add_image_frame (lower : pystr -> pystr) (folder : pystr)
  (files : list pystr) (self : EpubGenerator) :
  let self' := fold_left (add_image lower folder) files self in
  chapters self' = chapters self /\ book_title self' = book_title self /\
  author self' = author self /\ language self' = language self /\
  book_id self' = book_id self.
Proof.
  revert self. induction files as [|f files IH]; intros self; simpl; auto.
  destruct (IH (add_image lower folder self f)) as (H1 & H2 & H3 & H4 & H5).
  rewrite H1, H2, H3, H4, H5. unfold add_image.
  now destruct (is_cover_name lower f).
Qed.

(** X10: [add_images] never touches the chapters, the title, the author,
    the language or the identifier; and when the folder is missing or lists
    no entry with a supported suffix, it returns the generator as it is. *)
Theorem X10_add_images_frame (lower : pystr -> pystr)
  (self : EpubGenerator) (folder : pystr) (listing : option (list pystr)) :
  let self' := add_images lower self folder listing in
  (chapters self' = chapters self /\ book_title self' = book_title self /\
   author self' = author self /\ language self' = language self /\
   book_id self' = book_id self) /\
  (match listing with
   | None => True
   | Some entries => forallb (fun f => negb (is_supported lower f)) entries = true
   end -> self' = self).
Proof.
  destruct listing as [entries|]; simpl;
    [| split; [repeat split | intros _; reflexivity]].
  split.
  - apply add_image_frame.
  - intros H.
    assert (E : filter (is_supported lower) entries = []).
    { induction entries as [|f fs IH]; [reflexivity|]. simpl in *.
      apply andb_true_iff in H. destruct H as [Hf Hfs].
      apply negb_true_iff in Hf. rewrite Hf. now apply IH. }
    rewrite E. reflexivity.
Qed.

(** ** Document assembler: cross references *)

Lemma contains_mid (p a b : pystr) : contains p (a ++ p ++ b) = true.
Proof. apply contains_iff. now exists a, b. Qed.

Lemma contains_trans (p q s : pystr) :
  contains p q = true -> contains q s = true -> contains p s = true.
Proof.
  rewrite !contains_iff. intros (a & b & ->) (a' & b' & ->).
  exists (a' ++ a), (b ++ b'). now rewrite <- !app_assoc.
Qed.

Lemma contains_join (x sep : pystr) (l : list pystr) :
  In x l -> contains x (join sep l) = true.
Proof.
  induction l as [|y l IH]; [intros []|]. intros H.
  destruct l as [|z r].
  - destruct H as [->|[]]. simpl. apply contains_iff.
    exists [], []. now rewrite app_nil_r.
  - change (join sep (y :: z :: r)) with (y ++ sep ++ join sep (z :: r)).
    destruct H as [->|H].
    + apply contains_iff. now exists [], (sep ++ join sep (z :: r)).
    + apply contains_trans with (q := join sep (z :: r)); [now apply IH|].
      apply contains_iff. exists (y ++ sep), [].
      now rewrite app_nil_r, <- app_assoc.
Qed.

Lemma in_enumerate_from (A : Type) (l : list A) (a i : nat) (x : A) :
  nth_error l i = Some x -> In ((a + i)%nat, x) (combine (seq a (List.length l)) l).
Proof.
  revert a i. induction l as [|y l IH]; intros a [|i]; simpl; try discriminate.
  - intros H. inversion H; subst. left. now rewrite Nat.add_0_r.
  - intros H. right. replace (a + S i)%nat with (S a + i)%nat by lia.
    now apply IH.
Qed.

Lemma in_enumerate (A : Type) (l : list A) (i : nat) (x : A) :
  nth_error l i = Some x -> In (i, x) (enumerate l).
Proof. intros H. exact (in_enumerate_from l 0 i H). Qed.

Lemma contains_in_concat (p x : pystr) (l : list pystr) :
  In x l -> contains p x = true -> contains p (List.concat l) = true.
Proof.
  intros H Hp. induction l as [|y l IH]; [destruct H|].
  cbn [List.concat]. destruct H as [->|H].
  - apply contains_iff in Hp. destruct Hp as (a & b & ->).
    apply contains_iff. exists a, (b ++ List.concat l).
    now rewrite <- !app_assoc.
  - specialize (IH H). apply contains_iff in IH. destruct IH as (a & b & E).
    apply contains_iff. exists (y ++ a), b. rewrite E.
    now rewrite <- !app_assoc.
Qed.

Ltac pick_piece :=
  repeat match goal with
         | |- ?x = ?x \/ _ => left; reflexivity
         | |- _ \/ _ => right
         end.

(** Two texts built from the same literals and the same variable parts. *)
Ltac same_text :=
  cbn [List.concat]; rewrite ?app_nil_r; repeat rewrite <- app_assoc;
  repeat match goal with
         | |- context [str_of_nat ?n] =>
             let s := fresh "s" in generalize (str_of_nat n); intros s
         end;
  vm_compute; reflexivity.

Lemma chapter_item_eq (i : nat) :
  chapter_item i = page_item (chapter_ident i) (chapter_file i).
Proof.
  unfold chapter_item, chapter_id, page_item, chapter_file, chapter_ident.
  same_text.
Qed.

Lemma image_page_item_eq (i : nat) :
  image_page_item i = page_item (image_page_ident i) (image_page_file i).
Proof.
  unfold image_page_item, image_page_id, page_item, image_page_file,
    image_page_ident.
  same_text.
Qed.

(** X11: every chapter has a line in the spine, a manifest item with the
    same identifier and the file name of its page, an entry of the legacy
    navigation with that file name, its title and its position as play
    order, and a link of the navigation document to that file under its
    title. *)
Theorem X11_chapter_cross_references (guess_type : pystr -> option pystr)
  (self : EpubGenerator) (i : nat) (ch : chapter) :
  nth_error (chapters self) i = Some ch ->
  In (itemref (chapter_ident i)) (spine_items self) /\
  In (page_item (chapter_ident i) (chapter_file i))
     (manifest_items guess_type self) /\
  contains (markup "<navPoint id=`navpoint-" ++ str_of_nat (i + 1)
            ++ markup "` playOrder=`" ++ str_of_nat (i + 1) ++ markup "`>
        <navLabel>
            <text>" ++ title ch ++ markup "</text>
        </navLabel>
        <content src=`" ++ chapter_file i ++ markup "`/>")
           (toc_ncx self) = true /\
  contains (markup "<li><a href=`" ++ chapter_file i ++ markup "`>"
            ++ title ch ++ markup "</a></li>")
           (nav_xhtml self) = true.
Proof.
  intros H. pose proof (in_enumerate _ _ H) as He.
  split; [|split; [|split]].
  - unfold spine_items. rewrite !in_app_iff. right. right.
    unfold chapter_ident. rewrite <- (chapter_itemref_eq i).
    apply (in_map (fun p : nat * chapter => let '(j, _) := p in
                                            chapter_itemref j)) in He.
    exact He.
  - unfold manifest_items. rewrite !in_app_iff. right. right. left.
    rewrite <- (chapter_item_eq i).
    apply (in_map (fun p : nat * chapter => let '(j, _) := p in
                                            chapter_item j)) in He.
    exact He.
  - apply (in_map (fun p : nat * chapter => let '(j, c) := p in
                                            nav_point j (j + 1) c)) in He.
    apply (@contains_join _ [NL]) in He.
    unfold toc_ncx.
    eapply contains_in_concat; [| eapply contains_trans; [| exact He]].
    { cbn [In]. pick_piece. }
    apply contains_iff. exists (markup "    "), (markup "
    </navPoint>").
    unfold nav_point, chapter_file, chapter_ident.
    generalize (title ch). intros t. same_text.
  - apply (in_map (fun p : nat * chapter => let '(j, c) := p in
                                            nav_item j c)) in He.
    apply (@contains_join _ [NL]) in He.
    unfold nav_xhtml.
    eapply contains_in_concat; [| eapply contains_trans; [| exact He]].
    { cbn [In]. pick_piece. }
    apply contains_iff. exists (markup "        "), [].
    unfold nav_item, chapter_file, chapter_ident.
    generalize (title ch). intros t. same_text.
Qed.

Lemma contains_refl (p : pystr) : contains p p = true.
Proof. apply contains_iff. exists [], []. now rewrite app_nil_r. Qed.

(** X12: every ordinary image has a line in the spine for its page, a
    manifest item for that page and a manifest item for its file under
    its own identifier, with the guessed media type or image/jpeg; a
    cover image has its manifest item and is named in the metadata. *)
Theorem X12_image_cross_references (guess_type : pystr -> option pystr)
  (today : pystr) (self : EpubGenerator) :
  (forall i img,
     nth_error (images self) i = Some img ->
     In (itemref (image_page_ident i)) (spine_items self) /\
     In (page_item (image_page_ident i) (image_page_file i))
        (manifest_items guess_type self) /\
     In (markup "    <item id=`" ++ id img ++ markup "` href=`images/"
         ++ filename img ++ markup "` media-type=`"
         ++ mime_type_of guess_type (path img) ++ markup "`/>")
        (manifest_items guess_type self)) /\
  (forall c,
     cover_image self = Some c ->
     In (markup "    <item id=`cover_img` href=`images/" ++ filename c
         ++ markup "` media-type=`" ++ mime_type_of guess_type (path c)
         ++ markup "`/>")
        (manifest_items guess_type self) /\
     contains (u "<meta name='cover' content='cover_img'/>")
              (content_opf guess_type today self) = true) /\
  (forall p, truthy (mime_type_of guess_type p) = true).
Proof.
  split; [|split].
  - intros i img H. pose proof (in_enumerate _ _ H) as He.
    split; [|split].
    + unfold spine_items. rewrite !in_app_iff. right. left.
      unfold image_page_ident. rewrite <- (image_page_itemref_eq i).
      apply (in_map (fun p : nat * image => let '(j, _) := p in
                                            image_page_itemref j)) in He.
      exact He.
    + unfold manifest_items. rewrite !in_app_iff. right. left.
      rewrite <- (image_page_item_eq i).
      apply (in_map (fun p : nat * image => let '(j, _) := p in
                                            image_page_item j)) in He.
      exact He.
    + unfold manifest_items. rewrite !in_app_iff.
      right. right. right. right. left.
      apply nth_error_In in H.
      apply (in_map (image_item guess_type)) in H.
      unfold image_item in H. cbn [List.concat] in H.
      now rewrite app_nil_r in H.
  - intros c Hc. split.
    + unfold manifest_items. rewrite Hc, !in_app_iff.
      right. right. right. left. left.
      unfold cover_img_item. cbn [List.concat]. now rewrite app_nil_r.
    + unfold content_opf. rewrite Hc. cbv beta iota zeta.
      apply contains_in_concat
        with (x := u "<meta name='cover' content='cover_img'/>").
      * cbn [In]. pick_piece.
      * apply contains_refl.
  - intros p. unfold mime_type_of.
    destruct (guess_type p) as [m|]; [| reflexivity].
    destruct (truthy m) eqn:E; [exact E | reflexivity].
Qed.

(** ** Archive packager: what the archive holds *)

Lemma bind_ok_inv (A B : Type) (m : IO A) (k : A -> IO B) (w w' : world)
  (b : B) :
  bind m k w = (Ok b, w') ->
  exists a w1, m w = (Ok a, w1) /\ k a w1 = (Ok b, w').
Proof.
  intros H. destruct (bind_inv _ _ _ H) as [H1 | (e & _ & E)];
    [exact H1 | discriminate].
Qed.

Lemma for_each_appends (X : Type) (zp : list pystr) (f : X -> IO unit)
  (g : X -> list (pystr * compression)) :
  (forall x w w' ms,
     Tree.lookup zp (root w) = Some (File (Archive ms)) ->
     f x w = (Ok tt, w') ->
     exists new,
       Tree.lookup zp (root w') = Some (File (Archive (ms ++ new))) /\
       map member_key new = g x) ->
  forall l w w' ms,
    Tree.lookup zp (root w) = Some (File (Archive ms)) ->
    for_each l f w = (Ok tt, w') ->
    exists new,
      Tree.lookup zp (root w') = Some (File (Archive (ms ++ new))) /\
      map member_key new = flat_map g l.
Proof.
  intros Hf. induction l as [|x l IH]; intros w w' ms L H.
  - inversion H; subst. exists []. now rewrite app_nil_r.
  - cbn [for_each] in H. apply bind_ok_inv in H.
    destruct H as ([] & w1 & H1 & H2).
    destruct (Hf _ _ _ _ L H1) as (n1 & L1 & K1).
    destruct (IH _ _ _ L1 H2) as (n2 & L2 & K2).
    exists (n1 ++ n2). split.
    + now rewrite app_assoc.
    + cbn [flat_map]. etransitivity; [apply map_app|].
      f_equal; assumption.
Qed.

Lemma zip_write_ok (zp file arc : pystr) (default : compression)
  (ct : option compression) (ms : list member) (w w' : world) :
  Tree.lookup (Tree.parts zp) (root w) = Some (File (Archive ms)) ->
  zip_write zp default file arc ct w = (Ok tt, w') ->
  exists data,
    Tree.lookup (Tree.parts zp) (root w') =
      Some (File (Archive
        (ms ++ [(arc, match ct with Some c => c | None => default end,
                 data)]))).
Proof.
  intros L H.
  destruct (@zip_write_spec _ _ _ _ _ _ _ _ _ L H) as [[_ D] | [[e E] _]];
    [exact D | discriminate].
Qed.

Lemma zip_open_ok (p : pystr) (w w' : world) :
  zip_open p w = (Ok tt, w') ->
  Tree.lookup (Tree.parts p) (root w') = Some (File (Archive [])).
Proof.
  intros H. unfold zip_open in H. apply bind_ok_inv in H.
  destruct H as ([] & wf & _ & H).
  apply on_tree_inv in H. destruct H as [[_ S] | [[e E] _]]; [| discriminate].
  now apply lookup_store in S.
Qed.

Lemma try_finally_ok (A : Type) (body : IO A) (cleanup : IO unit)
  (w w' : world) (a : A) :
  try_finally body cleanup w = (Ok a, w') ->
  exists w1, body w = (Ok a, w1) /\ cleanup w1 = (Ok tt, w').
Proof.
  unfold try_finally. destruct (body w) as [r w1].
  destruct (cleanup w1) as [[[]|e] w2] eqn:Ec; intros H; inversion H; subst.
  exists w1. split; [reflexivity | exact Ec].
Qed.

(** X13: the archive that [_create_epub_zip] completes holds the stored
    entry mimetype followed by exactly one deflated member per file that
    the walk of the scratch directory lists, in walk order, named by its
    path relative to the scratch directory; files named mimetype, in
    whatever directory, are left out. *)
Theorem X13_archive_holds_the_walked_files (temp_dir output_path : pystr)
  (w w' : world) :
  _create_epub_zip temp_dir output_path w = (Ok tt, w') ->
  exists wa tree ms,
    (zip_open output_path ;;
     zip_write output_path ZIP_DEFLATED (temp_dir ++ u "/mimetype")
               (u "mimetype") (Some ZIP_STORED)) w = (Ok tt, wa) /\
    os_walk temp_dir wa = (Ok tree, wa) /\
    Tree.lookup (Tree.parts output_path) (root w') =
      Some (File (Archive ms)) /\
    map member_key ms =
      (u "mimetype", ZIP_STORED)
      :: map (fun p => (relpath p temp_dir, ZIP_DEFLATED)) (walked_files tree).
Proof.
  intros H. unfold _create_epub_zip in H. apply bind_ok_inv in H.
  destruct H as ([] & w1 & H1 & H2).
  pose proof (zip_open_ok _ _ H1) as L1.
  apply try_finally_ok in H2. destruct H2 as (w2 & Hb & Hc).
  apply fault_root in Hc. unfold zip_members in Hb.
  apply bind_ok_inv in Hb. destruct Hb as ([] & wa & Ha & Hb).
  destruct (@zip_write_ok _ _ _ _ _ _ _ _ L1 Ha) as (d & La).
  apply bind_ok_inv in Hb. destruct Hb as (tree & wb & Hw & Hl).
  assert (Ewb : wb = wa).
  { pose proof (os_walk_pure temp_dir wa) as P. rewrite Hw in P. exact P. }
  subst wb.
  set (inner := fun (root0 file : pystr) =>
         if str_eqb file (u "mimetype") then []
         else [(relpath (path_join root0 file) temp_dir, ZIP_DEFLATED)]).
  destruct (@for_each_appends _ (Tree.parts output_path)
              (fun t : pystr * list pystr * list pystr =>
                 let '(root0, _, files) := t in
                 for_each files (fun file =>
                   if str_eqb file (u "mimetype") then ret tt
                   else zip_write output_path ZIP_DEFLATED
                          (path_join root0 file)
                          (relpath (path_join root0 file) temp_dir) None))
              (fun t : pystr * list pystr * list pystr =>
                 let '(root0, _, files) := t in flat_map (inner root0) files))
    with (l := tree) (w := wa) (w' := w2)
         (ms := [(u "mimetype", ZIP_STORED, d)])
    as (new & L2 & K2).
  - intros [[root0 dirs] files] wx wy ms Lx Hx.
    apply (@for_each_appends _ (Tree.parts output_path)
             (fun file =>
                if str_eqb file (u "mimetype") then ret tt
                else zip_write output_path ZIP_DEFLATED
                       (path_join root0 file)
                       (relpath (path_join root0 file) temp_dir) None)
             (inner root0)) with (l := files) (w := wx); auto.
    intros file wp wq ms' Lp Hp. unfold inner.
    destruct (str_eqb file (u "mimetype")).
    + inversion Hp; subst. exists []. now rewrite app_nil_r.
    + destruct (@zip_write_ok _ _ _ _ _ _ _ _ Lp Hp) as (dd & Lq).
      eexists. split; [exact Lq | reflexivity].
  - exact La.
  - exact Hl.
  - exists wa, tree, ((u "mimetype", ZIP_STORED, d) :: new).
    split; [| split; [exact Hw | split]].
    + unfold bind. rewrite H1. exact Ha.
    + rewrite Hc. exact L2.
    + cbn [map]. unfold member_key at 1. cbn [arcname compress_type fst snd].
      f_equal. rewrite K2. unfold walked_files.
      clear. induction tree as [|[[root0 dirs] files] tree IH];
        [reflexivity|].
      cbn [flat_map]. rewrite map_app, IH. f_equal.
      unfold inner. clear. induction files as [|f files IH];
        [reflexivity|].
      cbn [flat_map filter].
      destruct (str_eqb f (u "mimetype")); cbn [negb map app]; now rewrite IH.
Qed.

Lemma X13_archive_holds_the_walked_files_witness :
  let w0 :=
    {| root := Dir [(u "t", Dir [(u "a.xhtml", File (Raw (u "page")));
                                 (u "mimetype",
                                  File (Raw (u "application/epub+zip")));
                                 (u "d", Dir [(u "mimetype",
                                               File (Raw (u "x")));
                                              (u "b.png",
                                               File (Raw (u "img")))])])];
       faults := [] |} in
  exists ms,
    Tree.lookup (Tree.parts (u "out.epub"))
      (root (snd (_create_epub_zip (u "t") (u "out.epub") w0))) =
      Some (File (Archive ms)) /\
    map member_key ms =
      [(u "mimetype", ZIP_STORED); (u "a.xhtml", ZIP_DEFLATED);
       (u "d/b.png", ZIP_DEFLATED)].
Proof.
  intros w0.
  destruct (@X13_archive_holds_the_walked_files (u "t") (u "out.epub") w0
              (snd (_create_epub_zip (u "t") (u "out.epub") w0)))
    as (wa & tree & ms & Ha & Hw & L & K).
  - vm_compute. reflexivity.
  - exists ms. split; [exact L|]. rewrite K.
    assert (E : (Ok tree, wa) =
                os_walk (u "t")
                  (snd ((zip_open (u "out.epub") ;;
                         zip_write (u "out.epub") ZIP_DEFLATED
                           (u "t" ++ u "/mimetype") (u "mimetype")
                           (Some ZIP_STORED)) w0))).
    { rewrite Ha. simpl snd. now rewrite Hw. }
    vm_compute in E. inversion E; subst. vm_compute. reflexivity.
Defined.

(** ** Archive packager: what [generate_epub] leaves alone *)

Lemma split_app_sep (sep : char) (l s : pystr) :
  ~ In sep l -> split sep (l ++ sep :: s) = l :: split sep s.
Proof.
  induction l as [|c l IH]; simpl; intros H.
  - now rewrite N.eqb_refl.
  - destruct (N.eqb_spec c sep) as [->|_]; [tauto|].
    rewrite IH by tauto. reflexivity.
Qed.

Lemma split_pieces_no_sep (sep : char) (s : pystr) :
  Forall (fun piece => ~ In sep piece) (split sep s).
Proof.
  induction s as [|c s IH]; simpl.
  - repeat constructor. intros [].
  - destruct (N.eqb_spec c sep) as [->|Hc].
    + constructor; [intros [] | exact IH].
    + destruct (split sep s) as [|l ls]; [repeat constructor|].
      * intros [E|[]]. congruence.
      * inversion IH; subst. constructor; auto.
        intros [E|HIn]; [congruence | contradiction].
Qed.

Lemma last_in (A : Type) (l : list A) (d : A) : last l d = d \/ In (last l d) l.
Proof.
  induction l as [|x l IH]; [now left|].
  destruct l as [|y l]; [right; now left|].
  change (last (x :: y :: l) d) with (last (y :: l) d).
  destruct IH as [E|H]; [now left | right; now right].
Qed.

(** [Path(p).name] holds no separator. *)
Lemma name_no_sep (p : pystr) : ~ In SEP (name p).
Proof.
  unfold name.
  destruct (last_in (filter (fun c => truthy c && negb (str_eqb c [DOT]))
                            (split SEP p)) []) as [E|H].
  - rewrite E. intros [].
  - apply filter_In in H. destruct H as [H _].
    pose proof (split_pieces_no_sep SEP p) as F.
    rewrite Forall_forall in F. now apply F.
Qed.

Lemma startswith_app_r (q s b : pystr) :
  startswith q s = true -> startswith q (s ++ b) = true.
Proof.
  rewrite !startswith_iff. intros [x ->]. exists (x ++ b).
  now rewrite app_assoc.
Qed.

(** The paths that start with the scratch directory and a separator. *)
Lemma parts_in_scratch (p : pystr) :
  startswith (temp_epub ++ [SEP]) p = true ->
  exists cs, Tree.parts p = temp_epub :: cs.
Proof.
  intros H. apply startswith_iff in H. destruct H as [b ->].
  rewrite <- app_assoc. change ([SEP] ++ b) with (SEP :: b).
  unfold Tree.parts. rewrite split_app_sep.
  - eexists. cbn [filter].
    change (truthy temp_epub && negb (str_eqb temp_epub [DOT])) with true.
    reflexivity.
  - intros H. vm_compute in H. repeat (destruct H as [H|H]; [discriminate|]).
    exact H.
Qed.

Lemma scratch_not_under (c p : pystr) :
  c <> temp_epub -> (exists cs, Tree.parts p = temp_epub :: cs) ->
  not_under c p.
Proof.
  intros Hc [cs E] cs' E'. rewrite E in E'. inversion E'. congruence.
Qed.

Lemma path_join_in_scratch (dst src : pystr) :
  startswith (temp_epub ++ [SEP]) dst = true ->
  startswith (temp_epub ++ [SEP]) (path_join dst (name src)) = true.
Proof.
  intros H. unfold path_join.
  destruct (startswith [SEP] (name src)) eqn:E.
  - apply startswith_iff in E. destruct E as [b E].
    exfalso. apply (name_no_sep src). rewrite E. now left.
  - destruct (negb (truthy dst) || endswith [SEP] dst);
      now apply startswith_app_r.
Qed.

Lemma get_del_other (es : list (pystr * node)) (c c' : pystr) :
  c <> c' -> Tree.get (Tree.del es c) c' = Tree.get es c'.
Proof.
  intros Hc. induction es as [|[k m] es IH]; simpl; [reflexivity|].
  destruct (str_eqb k c) eqn:E; simpl.
  - apply str_eqb_eq in E. subst k.
    apply str_eqb_neq in Hc. now rewrite Hc.
  - destruct (str_eqb k c'); auto.
Qed.

Lemma store_frame (c : pystr) (p : list pystr) (d : fdata) (n n' : node) :
  (forall cs, p <> c :: cs) ->
  Tree.store p d n = Ok n' -> top_entry c n' = top_entry c n.
Proof.
  intros Hp H. destruct n as [|es]; [destruct p; discriminate|].
  destruct p as [|c1 [|c2 cs]]; [discriminate | |].
  - assert (Hne : c1 <> c) by (intros ->; now apply (Hp [])).
    simpl in H. destruct (Tree.get es c1) as [[|]|]; inversion H; subst;
      simpl; now apply get_set_other.
  - assert (Hne : c1 <> c) by (intros ->; now apply (Hp (c2 :: cs))).
    rewrite store_cons2 in H.
    destruct (Tree.get es c1) as [ch|]; [|discriminate].
    destruct (Tree.store (c2 :: cs) d ch) as [ch'|]; inversion H; subst.
    simpl. now apply get_set_other.
Qed.

Lemma mkdirs_frame (c : pystr) (p : list pystr) (n n' : node) :
  (forall cs, p <> c :: cs) ->
  Tree.mkdirs p n = Ok n' -> top_entry c n' = top_entry c n.
Proof.
  intros Hp H. destruct n as [|es]; [destruct p; discriminate|].
  destruct p as [|c1 cs]; simpl in H.
  - now inversion H.
  - assert (Hne : c1 <> c) by (intros ->; now apply (Hp cs)).
    destruct (Tree.mkdirs cs _) as [ch'|]; inversion H; subst.
    simpl. now apply get_set_other.
Qed.

Section Frame.

Variable c : pystr.
Variable v : option node.

Let unchanged (n : node) : Prop := top_entry c n = v.

Lemma makedirs_frame (p : pystr) : not_under c p -> keeps unchanged (makedirs p).
Proof.
  intros Hp. apply keeps_bind; [apply keeps_fault | intros _].
  apply keeps_on_tree. intros n n' H E. unfold unchanged in *.
  now rewrite (@mkdirs_frame c (Tree.parts p) n n' Hp H).
Qed.

Lemma store_keeps_unchanged (p : pystr) (d : fdata) :
  not_under c p -> keeps unchanged (on_tree (Tree.store (Tree.parts p) d)).
Proof.
  intros Hp. apply keeps_on_tree. intros n n' H E. unfold unchanged in *.
  now rewrite (@store_frame c (Tree.parts p) d n n' Hp H).
Qed.

Lemma write_text_frame (p s : pystr) :
  not_under c p -> keeps unchanged (write_text p s).
Proof.
  intros Hp. apply keeps_bind; [apply keeps_fault | intros _].
  now apply store_keeps_unchanged.
Qed.

Lemma zip_open_frame (p : pystr) : not_under c p -> keeps unchanged (zip_open p).
Proof.
  intros Hp. apply keeps_bind; [apply keeps_fault | intros _].
  now apply store_keeps_unchanged.
Qed.

Lemma zip_write_frame (zp : pystr) (default : compression)
  (file arc : pystr) (ct : option compression) :
  not_under c zp -> keeps unchanged (zip_write zp default file arc ct).
Proof.
  intros Hp. apply keeps_bind; [apply keeps_fault | intros _].
  apply keeps_bind; [apply keeps_read, read_data_pure | intros data].
  apply keeps_bind; [apply keeps_read, read_data_pure | intros z].
  destruct z; [apply keeps_raise | now apply store_keeps_unchanged].
Qed.

Lemma copy2_frame (src dst : pystr) :
  not_under c dst -> not_under c (path_join dst (name src)) ->
  keeps unchanged (copy2 src dst).
Proof.
  intros H1 H2. apply keeps_bind; [apply keeps_fault | intros _].
  apply keeps_bind; [apply keeps_read, isdir_pure | intros d].
  apply keeps_bind; [apply keeps_read, read_data_pure | intros data].
  destruct d; now apply store_keeps_unchanged.
Qed.

Hypothesis c_not_scratch : c <> temp_epub.

Lemma in_scratch_not_under (p : pystr) :
  startswith (temp_epub ++ [SEP]) p = true -> not_under c p.
Proof.
  intros H. apply scratch_not_under; [assumption|].
  now apply parts_in_scratch.
Qed.

Lemma copy_into_scratch_frame (src dst : pystr) :
  startswith (temp_epub ++ [SEP]) dst = true ->
  keeps unchanged (copy2 src dst).
Proof.
  intros H. apply copy2_frame; apply in_scratch_not_under; auto.
  now apply path_join_in_scratch.
Qed.

Lemma cleanup_frame : keeps unchanged (_cleanup_temp temp_epub).
Proof.
  apply keeps_bind; [apply keeps_read, path_exists_pure | intros e].
  destruct e; [| apply keeps_ret].
  unfold rmtree. apply keeps_bind; [apply keeps_fault | intros _].
  intros w r w' H. rewrite parts_temp_epub in H.
  destruct (Tree.lookup [temp_epub] (root w)) as [[d|es]|];
    inversion H; subst; auto.
  simpl. unfold unchanged. destruct (root w) as [d|es0]; simpl; auto.
  now rewrite get_del_other by congruence.
Qed.

Variable guess_type : pystr -> option pystr.
Variable today : pystr.

Lemma generate_epub_frame (self : EpubGenerator) (output_path : pystr) :
  not_under c output_path ->
  keeps unchanged (generate_epub guess_type today self output_path).
Proof.
  intros Ho.
  assert (W : forall rest s,
             keeps unchanged (write_text (temp_epub ++ SEP :: rest) s)).
  { intros rest s. apply write_text_frame, in_scratch_not_under.
    apply startswith_iff. exists rest. now rewrite <- app_assoc. }
  assert (M : forall rest,
             keeps unchanged (makedirs (temp_epub ++ SEP :: rest))).
  { intros rest. apply makedirs_frame, in_scratch_not_under.
    apply startswith_iff. exists rest. now rewrite <- app_assoc. }
  assert (C : forall src rest,
             keeps unchanged (copy2 src (temp_epub ++ SEP :: rest))).
  { intros src rest. apply copy_into_scratch_frame.
    apply startswith_iff. exists rest. now rewrite <- app_assoc. }
  unfold generate_epub. apply keeps_bind; [| intros _].
  - unfold make_scratch.
    apply keeps_bind; [| intros _].
    { apply makedirs_frame. intros cs E. rewrite parts_temp_epub in E.
      inversion E. congruence. }
    apply keeps_bind; [apply (M (u "META-INF")) | intros _].
    apply keeps_bind; [apply (M (u "OEBPS")) | intros _].
    apply (M (u "OEBPS/images")).
  - apply keeps_try_finally; [| apply cleanup_frame].
    unfold package.
    apply keeps_bind; [apply (W (u "mimetype")) | intros _].
    apply keeps_bind; [apply (W (u "META-INF/container.xml")) | intros _].
    apply keeps_bind; [| intros _].
    { apply keeps_bind; [apply (W (u "OEBPS/content.opf")) | intros _].
      apply (W (u "OEBPS/cover.xhtml")). }
    apply keeps_bind; [apply (W (u "OEBPS/toc.ncx")) | intros _].
    apply keeps_bind; [apply (W (u "OEBPS/nav.xhtml")) | intros _].
    apply keeps_bind; [| intros _].
    { apply keeps_for_each. intros [i ch].
      apply (W (u "OEBPS/chapter_" ++ str_of_nat (i + 1) ++ u ".xhtml" ++ [])). }
    apply keeps_bind; [| intros _].
    { apply keeps_for_each. intros [i img].
      apply (W (u "OEBPS/image_page_" ++ str_of_nat (i + 1)
                ++ u ".xhtml" ++ [])). }
    apply keeps_bind; [| intros _].
    { unfold _copy_images. apply keeps_bind; [| intros _].
      - destruct (cover_image self) as [cv|]; [| apply keeps_ret].
        apply (C (path cv) (u "OEBPS/images/" ++ filename cv ++ [])).
      - apply keeps_for_each. intros img.
        apply (C (path img) (u "OEBPS/images/" ++ filename img ++ [])). }
    unfold _create_epub_zip.
    apply keeps_bind; [now apply zip_open_frame | intros _].
    apply keeps_try_finally; [| apply keeps_fault].
    apply keeps_bind; [now apply zip_write_frame | intros _].
    apply keeps_bind; [apply keeps_read, os_walk_pure | intros tree].
    apply keeps_for_each. intros [[root0 dirs] files].
    apply keeps_for_each. intros file.
    destruct (str_eqb file (u "mimetype"));
      [apply keeps_ret | now apply zip_write_frame].
Qed.

End Frame.

(** X14: for an output path and image files named by paths that the tree
    resolves as the system does (relative, without a reference to a parent
    directory), [generate_epub] leaves, whatever its outcome, every entry
    of the working directory as it was, other than the scratch directory
    and the entry the output path starts with: the source text and the
    image folder are never modified. *)
Theorem X14_generate_epub_touches_only_scratch_and_output
  (guess_type : pystr -> option pystr) (today : pystr)
  (self : EpubGenerator) (output_path c : pystr) (w : world) :
  local_path output_path ->
  Forall local_image (all_images self) ->
  c <> temp_epub ->
  not_under c output_path ->
  top_entry c
    (root (snd (generate_epub guess_type today self output_path w))) =
  top_entry c (root w).
Proof.
  intros _ _ Hc Ho.
  destruct (generate_epub guess_type today self output_path w) as [r w'] eqn:E.
  exact (@generate_epub_frame c (top_entry c (root w)) Hc guess_type today
           self output_path Ho w r w' E eq_refl).
Qed.


Lemma X14_generate_epub_touches_only_scratch_and_output_witness :
  let g := add_images ascii_lower
             (read_txt_file (__init__ (u "id")) (u "book.txt")
                (u "Title
Chapter 1
body"))
             (u "imgs") (Some [u "a.png"; u "Cover.JPG"]) in
  let pics := Dir [(u "a.png", File (Raw (u "A")));
                   (u "Cover.JPG", File (Raw (u "C")))] in
  let w0 := {| root := Dir [(u "book.txt", File (Raw (u "Title")));
                            (u "imgs", pics);
                            (u "temp_epub", Dir [(u "old", File (Raw (u "x")))])];
               faults := repeat false 12 ++ [true] |} in
  top_entry (u "imgs")
    (root (snd (generate_epub (fun _ => None) (u "2026-01-01") g
                  (u "out/book.epub") w0))) =
  Some pics.
Proof.
  intros g pics w0.
  rewrite (@X14_generate_epub_touches_only_scratch_and_output
             (fun _ => None) (u "2026-01-01") g (u "out/book.epub")
             (u "imgs") w0).
  - reflexivity.
  - split; [reflexivity|]. intros H. vm_compute in H.
    repeat (destruct H as [H|H]; [discriminate|]). exact H.
  - apply Forall_forall. intros img Hin. vm_compute in Hin.
    destruct Hin as [<-|[<-|[]]]; (split; [split; [reflexivity|]|]);
      intros H; vm_compute in H;
      repeat (destruct H as [H|H]; [discriminate|]); exact H.
  - intros E. vm_compute in E. discriminate.
  - intros cs E. vm_compute in E. discriminate.
Defined.

(** ** Archive packager: the book that a successful run leaves *)

Lemma lookup_cons_top (c : pystr) (cs : list pystr) (n : node) :
  Tree.lookup (c :: cs) n =
    match top_entry c n with
    | Some ch => Tree.lookup cs ch
    | None => None
    end.
Proof. destruct n; reflexivity. Qed.

Lemma lookup_two (c1 c2 : pystr) (n : node) :
  Tree.lookup [c1; c2] n = inner_entry c1 c2 n.
Proof.
  unfold inner_entry. rewrite lookup_cons_top.
  destruct (top_entry c1 n) as [ch|]; [| reflexivity].
  rewrite lookup_cons_top. now destruct (top_entry c2 ch).
Qed.

Lemma store_beside (c1 c2 : pystr) (p : list pystr) (d : fdata)
  (n n' : node) :
  beside c1 c2 p -> Tree.store p d n = Ok n' ->
  inner_entry c1 c2 n' = inner_entry c1 c2 n.
Proof.
  intros [Ha Hb] H. destruct n as [|es]; [destruct p; discriminate|].
  destruct p as [|k [|k2 ks]]; [discriminate | |].
  - assert (Hk : k <> c1) by congruence.
    simpl in H. unfold inner_entry.
    destruct (Tree.get es k) as [[|]|]; inversion H; subst;
      cbn [top_entry]; now rewrite get_set_other.
  - rewrite store_cons2 in H.
    destruct (Tree.get es k) as [ch|] eqn:G; [| discriminate].
    destruct (Tree.store (k2 :: ks) d ch) as [ch'|] eqn:S;
      inversion H; subst.
    unfold inner_entry. cbn [top_entry].
    destruct (str_eqb k c1) eqn:E.
    + apply str_eqb_eq in E. subst k. rewrite get_set_same, G.
      apply (@store_frame c2 (k2 :: ks) d ch ch'); [| exact S].
      intros cs E. inversion E; subst. exact (Hb _ eq_refl).
    + rewrite get_set_other; [reflexivity|].
      intros ->. rewrite str_eqb_refl in E. discriminate.
Qed.

Lemma not_under_beside (c1 c2 p : pystr) :
  not_under c1 p -> beside c1 c2 (Tree.parts p).
Proof.
  intros H. split; [apply H | intros cs; apply H].
Qed.

Lemma startswith_join (q dst src : pystr) :
  startswith q dst = true ->
  startswith q (path_join dst (name src)) = true.
Proof.
  intros H. unfold path_join.
  destruct (startswith [SEP] (name src)) eqn:E.
  - apply startswith_iff in E. destruct E as [b E].
    exfalso. apply (name_no_sep src). rewrite E. now left.
  - destruct (negb (truthy dst) || endswith [SEP] dst);
      now apply startswith_app_r.
Qed.

Lemma parts_in_oebps (p : pystr) :
  startswith (temp_epub ++ u "/OEBPS/") p = true ->
  exists cs, Tree.parts p = temp_epub :: u "OEBPS" :: cs.
Proof.
  intros H. apply startswith_iff in H. destruct H as [b ->].
  rewrite <- app_assoc.
  change (u "/OEBPS/" ++ b) with (SEP :: (u "OEBPS" ++ SEP :: b)).
  unfold Tree.parts. rewrite split_app_sep, split_app_sep.
  - eexists. cbn [filter].
    change (truthy temp_epub && negb (str_eqb temp_epub [DOT])) with true.
    change (truthy (u "OEBPS") && negb (str_eqb (u "OEBPS") [DOT]))
      with true.
    reflexivity.
  - intros H. vm_compute in H. repeat (destruct H as [H|H]; [discriminate|]).
    exact H.
  - intros H. vm_compute in H. repeat (destruct H as [H|H]; [discriminate|]).
    exact H.
Qed.

Lemma oebps_beside (p : pystr) :
  startswith (temp_epub ++ u "/OEBPS/") p = true ->
  beside temp_epub (u "mimetype") (Tree.parts p).
Proof.
  intros H. destruct (parts_in_oebps _ H) as [cs ->]. split.
  - discriminate.
  - intros cs' E. inversion E.
Qed.

Lemma write_text_ok (p s : pystr) (w w' : world) :
  write_text p s w = (Ok tt, w') ->
  Tree.lookup (Tree.parts p) (root w') = Some (File (Raw s)).
Proof.
  intros H. unfold write_text in H. apply bind_ok_inv in H.
  destruct H as ([] & wf & _ & H).
  apply on_tree_inv in H. destruct H as [[_ S] | [[e E] _]]; [| discriminate].
  now apply lookup_store in S.
Qed.

Lemma zip_write_data (zp file arc : pystr) (default : compression)
  (ct : option compression) (ms : list member) (w w' : world) :
  Tree.lookup (Tree.parts zp) (root w) = Some (File (Archive ms)) ->
  zip_write zp default file arc ct w = (Ok tt, w') ->
  exists data,
    Tree.lookup (Tree.parts file) (root w) = Some (File data) /\
    Tree.lookup (Tree.parts zp) (root w') =
      Some (File (Archive
        (ms ++ [(arc, match ct with Some c => c | None => default end,
                 data)]))).
Proof.
  intros L H. unfold zip_write in H.
  apply bind_ok_inv in H. destruct H as ([] & w1 & H1 & H2).
  apply fault_root in H1.
  apply bind_ok_inv in H2. destruct H2 as (data & w2 & H3 & H4).
  apply read_data_inv in H3. destruct H3 as [-> Hd].
  specialize (Hd data eq_refl).
  apply bind_ok_inv in H4. destruct H4 as (z & w3 & H5 & H6).
  apply read_data_inv in H5. destruct H5 as [-> Hz].
  specialize (Hz z eq_refl). rewrite H1, L in Hz. inversion Hz; subst z.
  apply on_tree_inv in H6. destruct H6 as [[_ S] | [[e E] _]];
    [| discriminate].
  exists data. split; [now rewrite <- H1 | now apply lookup_store in S].
Qed.

Lemma zip_write_keeps_first (m0 : member) (zp file arc : pystr) :
  keeps (archive_from m0 (Tree.parts zp))
        (zip_write zp ZIP_DEFLATED file arc None).
Proof.
  intros w r w' H (rest & L & F).
  destruct (@zip_write_spec _ _ _ _ _ _ _ _ _ L H) as [[_ [d L']] | [_ E]].
  - exists (rest ++ [(arc, ZIP_DEFLATED, d)]). split; [exact L'|].
    apply Forall_app. split; [exact F | repeat constructor].
  - rewrite E. now exists rest.
Qed.

(** The archive completed by [_create_epub_zip] starts with the content
    that the file mimetype of the scratch directory had when the archive
    was opened. *)
Lemma create_epub_zip_first (temp_dir output_path : pystr) (w w' : world) :
  _create_epub_zip temp_dir output_path w = (Ok tt, w') ->
  exists w1 data,
    zip_open output_path w = (Ok tt, w1) /\
    Tree.lookup (Tree.parts (temp_dir ++ u "/mimetype")) (root w1) =
      Some (File data) /\
    archive_from (u "mimetype", ZIP_STORED, data) (Tree.parts output_path)
                 (root w').
Proof.
  intros H. unfold _create_epub_zip in H. apply bind_ok_inv in H.
  destruct H as ([] & w1 & H1 & H2).
  pose proof (zip_open_ok _ _ H1) as L1.
  apply try_finally_ok in H2. destruct H2 as (w2 & Hb & Hc).
  apply fault_root in Hc. unfold zip_members in Hb.
  apply bind_ok_inv in Hb. destruct Hb as ([] & wa & Ha & Hb).
  destruct (@zip_write_data _ _ _ _ _ _ _ _ L1 Ha) as (d & Ld & La).
  exists w1, d. split; [exact H1 | split; [exact Ld |]].
  unfold archive_from. rewrite Hc.
  refine (_ : archive_from (u "mimetype", ZIP_STORED, d)
                (Tree.parts output_path) (root w2)).
  revert Hb. match goal with |- ?m wa = _ -> _ => set (rest_of := m) end.
  intros Hb.
  assert (K : keeps (archive_from (u "mimetype", ZIP_STORED, d)
                       (Tree.parts output_path)) rest_of).
  { apply keeps_bind; [apply keeps_read, os_walk_pure | intros tree].
    apply keeps_for_each. intros [[root0 dirs] files].
    apply keeps_for_each. intros file.
    destruct (str_eqb file (u "mimetype"));
      [apply keeps_ret | apply zip_write_keeps_first]. }
  apply (K _ _ _ Hb). exists []. split; [exact La | constructor].
Qed.

Lemma bind_keeps_ok (P : node -> Prop) (m k : IO unit) (w w' : world) :
  keeps P m -> P (root w) -> (m ;; k) w = (Ok tt, w') ->
  exists w1, P (root w1) /\ k w1 = (Ok tt, w').
Proof.
  intros Km HP H. apply bind_ok_inv in H.
  destruct H as ([] & w1 & Hm & Hk). exists w1. split; [| exact Hk].
  exact (Km _ _ _ Hm HP).
Qed.

Section Book.

Variable guess_type : pystr -> option pystr.
Variable today : pystr.

Let declared (n : node) : Prop :=
  inner_entry temp_epub (u "mimetype") n =
    Some (File (Raw (u "application/epub+zip"))).

Lemma write_text_beside (p s : pystr) :
  beside temp_epub (u "mimetype") (Tree.parts p) ->
  keeps declared (write_text p s).
Proof.
  intros Hp. apply keeps_bind; [apply keeps_fault | intros _].
  apply keeps_on_tree. intros n n' H E. unfold declared in *.
  now rewrite (@store_beside _ _ _ _ _ _ Hp H).
Qed.

Lemma zip_open_beside (p : pystr) :
  beside temp_epub (u "mimetype") (Tree.parts p) ->
  keeps declared (zip_open p).
Proof.
  intros Hp. apply keeps_bind; [apply keeps_fault | intros _].
  apply keeps_on_tree. intros n n' H E. unfold declared in *.
  now rewrite (@store_beside _ _ _ _ _ _ Hp H).
Qed.

Lemma copy2_beside (src dst : pystr) :
  startswith (temp_epub ++ u "/OEBPS/") dst = true ->
  keeps declared (copy2 src dst).
Proof.
  intros Hd. apply keeps_bind; [apply keeps_fault | intros _].
  apply keeps_bind; [apply keeps_read, isdir_pure | intros d].
  apply keeps_bind; [apply keeps_read, read_data_pure | intros data].
  apply keeps_on_tree. intros n n' H E. unfold declared in *.
  assert (B : beside temp_epub (u "mimetype")
               (Tree.parts (if d then path_join dst (name src) else dst))).
  { apply oebps_beside.
    destruct d; [now apply startswith_join | exact Hd]. }
  now rewrite (@store_beside _ _ _ _ _ _ B H).
Qed.

Lemma in_oebps (rest : pystr) (p : pystr) :
  p = temp_epub ++ u "/OEBPS/" ++ rest ->
  startswith (temp_epub ++ u "/OEBPS/") p = true.
Proof.
  intros ->. apply startswith_iff. exists rest. now rewrite <- app_assoc.
Qed.

(** A successful [package] hands to [_create_epub_zip] a scratch
    directory whose file mimetype holds the declaration text. *)
Lemma package_ok_inv (self : EpubGenerator) (output_path : pystr)
  (w w' : world) :
  package guess_type today self temp_epub output_path w = (Ok tt, w') ->
  exists wz,
    declared (root wz) /\
    _create_epub_zip temp_epub output_path wz = (Ok tt, w').
Proof.
  intros H. unfold package in H.
  apply bind_ok_inv in H. destruct H as ([] & w1 & H1 & H).
  assert (D : declared (root w1)).
  { unfold declared. rewrite <- lookup_two.
    apply (@write_text_ok _ _ _ _ H1). }
  clear H1.
  assert (W : forall rest p s,
             p = temp_epub ++ u "/OEBPS/" ++ rest ->
             keeps declared (write_text p s)).
  { intros rest p s E. apply write_text_beside, oebps_beside.
    now apply in_oebps with (rest := rest). }
  assert (C : forall rest src dst,
             dst = temp_epub ++ u "/OEBPS/" ++ rest ->
             keeps declared (copy2 src dst)).
  { intros rest src dst E. apply copy2_beside.
    now apply in_oebps with (rest := rest). }
  assert (K1 : keeps declared (_create_container_xml temp_epub)).
  { apply write_text_beside.
    split; [intros E | intros cs E]; vm_compute in E; discriminate. }
  destruct (@bind_keeps_ok _ _ _ _ _ K1 D H) as (w2 & D2 & H2). clear H D K1.
  assert (K2 : keeps declared
                 (_create_content_opf guess_type today self temp_epub)).
  { apply keeps_bind; [| intros _].
    - apply (W (u "content.opf")). reflexivity.
    - apply (W (u "cover.xhtml")). reflexivity. }
  destruct (@bind_keeps_ok _ _ _ _ _ K2 D2 H2) as (w3 & D3 & H3). clear H2 D2 K2.
  assert (K3 : keeps declared (_create_toc_ncx self temp_epub)).
  { apply (W (u "toc.ncx")). reflexivity. }
  destruct (@bind_keeps_ok _ _ _ _ _ K3 D3 H3) as (w4 & D4 & H4). clear H3 D3 K3.
  assert (K4 : keeps declared (_create_nav_xhtml self temp_epub)).
  { apply (W (u "nav.xhtml")). reflexivity. }
  destruct (@bind_keeps_ok _ _ _ _ _ K4 D4 H4) as (w5 & D5 & H5). clear H4 D4 K4.
  assert (K5 : keeps declared (_create_chapters_html self temp_epub)).
  { apply keeps_for_each. intros [i ch].
    apply (W (u "chapter_" ++ str_of_nat (i + 1) ++ u ".xhtml")).
    same_text. }
  destruct (@bind_keeps_ok _ _ _ _ _ K5 D5 H5) as (w6 & D6 & H6). clear H5 D5 K5.
  assert (K6 : keeps declared (_create_image_pages self temp_epub)).
  { apply keeps_for_each. intros [i img].
    apply (W (u "image_page_" ++ str_of_nat (i + 1) ++ u ".xhtml")).
    same_text. }
  destruct (@bind_keeps_ok _ _ _ _ _ K6 D6 H6) as (w7 & D7 & H7). clear H6 D6 K6.
  assert (K7 : keeps declared (_copy_images self temp_epub)).
  { unfold _copy_images. apply keeps_bind; [| intros _].
    - destruct (cover_image self) as [cv|]; [| apply keeps_ret].
      apply (C (u "images/" ++ filename cv)).
      generalize (filename cv). intros f. same_text.
    - apply keeps_for_each. intros img.
      apply (C (u "images/" ++ filename img)).
      generalize (filename img). intros f. same_text. }
  destruct (@bind_keeps_ok _ _ _ _ _ K7 D7 H7) as (w8 & D8 & H8).
  exists w8. split; assumption.
Qed.

(** The outcome of a successful run, other than the removal of the scratch
    directory. *)
Lemma generate_epub_archive (self : EpubGenerator) (output_path : pystr)
  (w w' : world) :
  not_under temp_epub output_path ->
  generate_epub guess_type today self output_path w = (Ok tt, w') ->
  archive_from (u "mimetype", ZIP_STORED, Raw (u "application/epub+zip"))
               (Tree.parts output_path) (root w').
Proof.
  intros Ho H. unfold generate_epub in H.
  apply bind_ok_inv in H. destruct H as ([] & w1 & _ & H).
  apply try_finally_ok in H. destruct H as (w2 & Hp & Hc).
  apply package_ok_inv in Hp. destruct Hp as (wz & D & Hz).
  apply create_epub_zip_first in Hz.
  destruct Hz as (wo & data & Hopen & Ld & rest & L & F).
  assert (Do : declared (root wo)).
  { apply (@zip_open_beside output_path
             (not_under_beside (u "mimetype") Ho) _ _ _ Hopen D). }
  unfold declared in Do. rewrite <- lookup_two in Do.
  change (Tree.parts (temp_epub ++ u "/mimetype"))
    with [temp_epub; u "mimetype"] in Ld.
  rewrite Do in Ld. inversion Ld; subst data. clear Ld Do D.
  exists rest. split; [| exact F].
  destruct (Tree.parts output_path) as [|c cs] eqn:Ep.
  - exfalso. unfold zip_open in Hopen. apply bind_ok_inv in Hopen.
    destruct Hopen as ([] & wf & _ & S).
    apply on_tree_inv in S. destruct S as [[_ S] | [[e E] _]];
      [| discriminate].
    rewrite Ep in S. destruct (root wf); discriminate.
  - assert (Hc' : c <> temp_epub).
    { intros ->. now apply (Ho cs). }
    rewrite lookup_cons_top in L |- *.
    now rewrite (@cleanup_frame c (top_entry c (root w2)) Hc' _ _ _ Hc
                   eq_refl).
Qed.


(** X16: when the name of the scratch directory is taken by a regular
    file, [generate_epub] raises before anything is written: the first
    [os.makedirs] fails (or the system call does), the tree is left as it
    was, and the file is not removed, since the [try] is never entered. *)
Theorem X16_scratch_name_taken_by_a_file (self : EpubGenerator)
  (output_path : pystr) (w : world) (d : fdata) :
  top_entry temp_epub (root w) = Some (File d) ->
  exists e w',
    generate_epub guess_type today self output_path w = (Raise e, w') /\
    (e = FileExistsError \/ e = OSError) /\
    root w' = root w.
Proof.
  intros H.
  assert (M : exists e w',
             makedirs temp_epub w = (Raise e, w') /\
             (e = FileExistsError \/ e = OSError) /\ root w' = root w).
  { unfold makedirs, bind. destruct (fault w) as [[[]|e] w1] eqn:F.
    - pose proof (@fault_root _ _ _ F) as R.
      unfold on_tree. cbv beta. rewrite parts_temp_epub, R.
      destruct (root w) as [|es]; [discriminate|].
      cbn [top_entry] in H. cbn [Tree.mkdirs]. rewrite H.
      exists FileExistsError, w1. auto.
    - exists e, w1. split; [reflexivity|]. split.
      + right. unfold fault in F.
        destruct (faults w) as [|[|] rest]; inversion F; reflexivity.
      + exact (@fault_root _ _ _ F). }
  destruct M as (e & w' & M & He & R).
  exists e, w'. split; [| split; assumption].
  unfold generate_epub, make_scratch, bind. now rewrite M.
Qed.

End Book.


Lemma X16_scratch_name_taken_by_a_file_witness :
  let g := read_txt_file (__init__ (u "id")) (u "book.txt")
             (u "Title
Chapter 1
body") in
  let w0 := {| root := Dir [(u "book.txt", File (Raw (u "Title")));
                            (u "temp_epub", File (Raw (u "notes")))];
               faults := [] |} in
  exists e w',
    generate_epub (fun _ => None) (u "2026-01-01") g (u "book.epub") w0 =
      (Raise e, w') /\
    (e = FileExistsError \/ e = OSError) /\
    root w' = root w0.
Proof.
  intros g w0.
  apply (@X16_scratch_name_taken_by_a_file (fun _ => None)
           (u "2026-01-01") g (u "book.epub") w0 (Raw (u "notes"))).
  reflexivity.
Defined.


Lemma X11_chapter_cross_references_witness :
  let g := read_txt_file (__init__ (u "id")) (u "book.txt")
             (u "Title
Chapter 1
body") in
  exists ch,
    nth_error (chapters g) 0 = Some ch /\
    In (itemref (chapter_ident 0)) (spine_items g) /\
    In (page_item (chapter_ident 0) (chapter_file 0))
       (manifest_items (fun _ => None) g) /\
    contains (markup "<li><a href=`" ++ chapter_file 0 ++ markup "`>"
              ++ title ch ++ markup "</a></li>")
             (nav_xhtml g) = true.
Proof.
  intros g.
  assert (E : nth_error (chapters g) 0 = Some (nth 0 (chapters g) {| title := []; content := [] |}))
    by (vm_compute; reflexivity).
  destruct (@X11_chapter_cross_references (fun _ => None) g 0 _ E)
    as (H1 & H2 & _ & H4).
  eexists. split; [exact E|]. split; [exact H1|]. split; [exact H2|].
  exact H4.
Defined.


(** ** Sanitizers: what [_sanitize_content] never leaves *)

Lemma match_div_close_some (s : pystr) :
  startswith (u "</div>") s = true ->
  match_div_close s = Some (u "</section>", 6%nat).
Proof. intros H. unfold match_div_close. now rewrite H. Qed.

Lemma match_div_close_none (s : pystr) :
  startswith (u "</div>") s = false -> match_div_close s = None.
Proof. intros H. unfold match_div_close. now rewrite H. Qed.

(** A text without the opening bracket, found at the head of the result
    of the second substitution, was at the head of its argument: the
    replacement starts with the bracket. *)
Lemma sub_close_head (q s : pystr) :
  ~ In LT q ->
  startswith q (sub_from match_div_close 0 s) = true ->
  startswith q s = true.
Proof.
  revert s. induction q as [|x q IH]; intros s Hq H; [reflexivity|].
  destruct s as [|c s]; [discriminate H|].
  rewrite sub_from_cons in H.
  destruct (startswith (u "</div>") (c :: s)) eqn:E.
  - rewrite (match_div_close_some _ E) in H.
    exfalso. change (u "</section>") with (LT :: u "/section>") in H.
    cbn [app startswith] in H. apply andb_true_iff in H.
    destruct H as [H _]. apply N.eqb_eq in H. apply Hq. now left.
  - rewrite (match_div_close_none _ E) in H.
    cbn [startswith] in H |- *. apply andb_true_iff in H.
    destruct H as [H1 H2]. rewrite H1. cbn [andb].
    apply IH; [| exact H2]. intros G. apply Hq. now right.
Qed.

Lemma contains_skip (p : pystr) (c : char) (s : pystr) :
  startswith p (c :: s) = false -> contains p (c :: s) = contains p s.
Proof.
  intros H.
  change (contains p (c :: s)) with (startswith p (c :: s) || contains p s).
  now rewrite H.
Qed.

Lemma sub_close_clean (s : pystr) (k : nat) :
  contains (u "</div>") (sub_from match_div_close k s) = false.
Proof.
  revert k. induction s as [|c s IH]; intros k.
  - destruct k; reflexivity.
  - destruct k as [|k]; [| rewrite sub_from_skip; apply IH].
    rewrite sub_from_cons.
    destruct (startswith (u "</div>") (c :: s)) eqn:E.
    + rewrite (match_div_close_some _ E).
      specialize (IH 5%nat). cbn [pred].
      revert IH. generalize (sub_from match_div_close 5 s). intros t IH.
      let r := eval vm_compute in (u "</section>") in
      change (u "</section>") with r.
      cbn [app].
      repeat (rewrite contains_skip by (vm_compute; reflexivity)).
      exact IH.
    + rewrite (match_div_close_none _ E).
      change (contains (u "</div>") (c :: sub_from match_div_close 0 s))
        with (startswith (u "</div>") (c :: sub_from match_div_close 0 s)
              || contains (u "</div>") (sub_from match_div_close 0 s)).
      rewrite IH, orb_false_r.
      destruct (startswith (u "</div>")
                  (c :: sub_from match_div_close 0 s)) eqn:G;
        [| reflexivity].
      rewrite <- E. symmetry.
      change (u "</div>") with (LT :: u "/div>") in G |- *.
      cbn [startswith] in G |- *. apply andb_true_iff in G.
      destruct G as [G1 G2]. rewrite G1. cbn [andb].
      apply sub_close_head; [| exact G2].
      intros H. vm_compute in H.
      repeat (destruct H as [H|H]; [discriminate|]). exact H.
Qed.

(** X17: whatever the text, the result of [_sanitize_content] holds no
    closing [div] tag: the replacement creates no new one, since an
    occurrence cannot overlap the inserted text.  So no chapter page holds
    one, whatever the title and the body of the chapter. *)
Theorem X17_no_closing_div_is_left (content0 : pystr) :
  contains (u "</div>") (_sanitize_content content0) = false /\
  forall (self : EpubGenerator) (i : nat) (ch : chapter),
    contains (u "</div>") (chapter_html self i ch) = false.
Proof.
  split.
  - unfold _sanitize_content, re_sub. apply sub_close_clean.
  - intros self i ch. unfold chapter_html, _sanitize_content, re_sub.
    apply sub_close_clean.
Qed.


(** ** Archive packager: the parts of the book *)

Lemma store_other_file (p : list pystr) :
  forall (cs : list pystr) (d x : fdata) (n n' : node),
    p <> cs -> Tree.store p d n = Ok n' ->
    Tree.lookup cs n = Some (File x) -> Tree.lookup cs n' = Some (File x).
Proof.
  induction p as [|k p IH]; intros cs d x n n' Hne S L.
  - destruct n; discriminate.
  - destruct n as [|es]; [discriminate|].
    destruct cs as [|c cs]; [discriminate|].
    rewrite lookup_cons_top in L |- *. cbn [top_entry] in L.
    destruct p as [|k2 ks].
    + simpl in S.
      destruct (str_eqb k c) eqn:E.
      * apply str_eqb_eq in E. subst c.
        destruct (Tree.get es k) as [[y|]|] eqn:G; try discriminate.
        destruct cs as [|c2 cs]; [congruence | discriminate].
      * assert (Hk : k <> c).
        { intros ->. rewrite str_eqb_refl in E. discriminate. }
        destruct (Tree.get es k) as [[y|]|]; inversion S; subst;
          cbn [top_entry]; now rewrite get_set_other.
    + rewrite store_cons2 in S.
      destruct (Tree.get es k) as [ch|] eqn:G; [| discriminate].
      destruct (Tree.store (k2 :: ks) d ch) as [ch'|] eqn:S';
        inversion S; subst.
      cbn [top_entry].
      destruct (str_eqb k c) eqn:E.
      * apply str_eqb_eq in E. subst c. rewrite get_set_same.
        rewrite G in L.
        apply (IH cs d x ch ch'); [congruence | exact S' | exact L].
      * assert (Hk : k <> c).
        { intros ->. rewrite str_eqb_refl in E. discriminate. }
        now rewrite get_set_other.
Qed.

Section FileKept.

Variable cs : list pystr.
Variable x : fdata.

Let held (n : node) : Prop := Tree.lookup cs n = Some (File x).

Lemma store_keeps_held (p : pystr) (d : fdata) :
  Tree.parts p <> cs -> keeps held (on_tree (Tree.store (Tree.parts p) d)).
Proof.
  intros Hp. apply keeps_on_tree. intros n n' S L.
  exact (@store_other_file _ _ _ _ _ _ Hp S L).
Qed.

Lemma write_text_keeps_held (p s : pystr) :
  Tree.parts p <> cs -> keeps held (write_text p s).
Proof.
  intros Hp. apply keeps_bind; [apply keeps_fault | intros _].
  now apply store_keeps_held.
Qed.

Lemma zip_open_keeps_held (p : pystr) :
  Tree.parts p <> cs -> keeps held (zip_open p).
Proof.
  intros Hp. apply keeps_bind; [apply keeps_fault | intros _].
  now apply store_keeps_held.
Qed.

Lemma zip_write_keeps_held (zp : pystr) (default : compression)
  (file arc : pystr) (ct : option compression) :
  Tree.parts zp <> cs -> keeps held (zip_write zp default file arc ct).
Proof.
  intros Hp. apply keeps_bind; [apply keeps_fault | intros _].
  apply keeps_bind; [apply keeps_read, read_data_pure | intros data].
  apply keeps_bind; [apply keeps_read, read_data_pure | intros z].
  destruct z; [apply keeps_raise | now apply store_keeps_held].
Qed.

Lemma copy2_keeps_held (src dst : pystr) :
  Tree.parts dst <> cs -> Tree.parts (path_join dst (name src)) <> cs ->
  keeps held (copy2 src dst).
Proof.
  intros H1 H2. apply keeps_bind; [apply keeps_fault | intros _].
  apply keeps_bind; [apply keeps_read, isdir_pure | intros d].
  apply keeps_bind; [apply keeps_read, read_data_pure | intros data].
  destruct d; now apply store_keeps_held.
Qed.

End FileKept.

Lemma keeps_for_each_in (P : node -> Prop) (A : Type) (l : list A)
  (f : A -> IO unit) :
  (forall y, In y l -> keeps P (f y)) -> keeps P (for_each l f).
Proof.
  induction l as [|y l IH]; intros Hf; cbn [for_each].
  - apply keeps_ret.
  - apply keeps_bind; [apply Hf; now left | intros _].
    apply IH. intros z Hz. apply Hf. now right.
Qed.

(** What a loop leaves when it ends normally: the step at [x0]
    establishes [Q] where the invariant [I] holds, and no step of the
    loop breaks either. *)
Lemma for_each_establishes (I Q : node -> Prop) (A : Type)
  (f : A -> IO unit) (x0 : A) (l : list A) :
  (forall w w', I (root w) -> f x0 w = (Ok tt, w') -> Q (root w')) ->
  (forall y, In y l -> keeps I (f y)) ->
  (forall y, In y l -> keeps Q (f y)) ->
  In x0 l ->
  forall w w', I (root w) -> for_each l f w = (Ok tt, w') -> Q (root w').
Proof.
  intros He. induction l as [|y l IH]; intros KI KQ Hin w w' HI H;
    [destruct Hin|].
  cbn [for_each] in H. apply bind_ok_inv in H.
  destruct H as ([] & w1 & H1 & H2).
  destruct Hin as [->|Hin].
  - assert (Q1 : Q (root w1)) by exact (He _ _ HI H1).
    assert (K : keeps Q (for_each l f)).
    { apply keeps_for_each_in. intros z Hz. apply KQ. now right. }
    exact (K _ _ _ H2 Q1).
  - apply (IH (fun z Hz => KI z (or_intror Hz))
              (fun z Hz => KQ z (or_intror Hz)) Hin w1 w'); [| exact H2].
    exact (KI y (or_introl eq_refl) _ _ _ H1 HI).
Qed.

(** *** Names and paths *)

Lemma split_no_sep (sep : char) (s : pystr) :
  ~ In sep s -> split sep s = [s].
Proof.
  induction s as [|c s IH]; intros H; [reflexivity|].
  cbn [split]. destruct (N.eqb_spec c sep) as [->|_].
  - exfalso. apply H. now left.
  - rewrite IH; [reflexivity|]. intros G. apply H. now right.
Qed.

Lemma plain_kept (f : pystr) :
  plain_name f -> truthy f && negb (str_eqb f [DOT]) = true.
Proof.
  intros (_ & H1 & H2). destruct f as [|c f]; [congruence|].
  cbn [truthy andb]. destruct (str_eqb (c :: f) [DOT]) eqn:E;
    [| reflexivity].
  apply str_eqb_eq in E. congruence.
Qed.

Lemma parts_plain (f : pystr) : plain_name f -> Tree.parts f = [f].
Proof.
  intros H. unfold Tree.parts. rewrite split_no_sep by apply H.
  cbn [filter]. now rewrite plain_kept.
Qed.

Lemma parts_app_sep (a b : pystr) :
  plain_name a -> Tree.parts (a ++ SEP :: b) = a :: Tree.parts b.
Proof.
  intros H. unfold Tree.parts. rewrite split_app_sep by apply H.
  cbn [filter]. now rewrite plain_kept.
Qed.

Lemma plain_temp_epub : plain_name temp_epub.
Proof.
  split; [| split; discriminate].
  intros H. vm_compute in H. repeat (destruct H as [H|H]; [discriminate|]).
  exact H.
Qed.

Lemma parts_scratch_file (dir f : pystr) :
  plain_name dir -> plain_name f ->
  Tree.parts (temp_epub ++ SEP :: dir ++ SEP :: f) = [temp_epub; dir; f].
Proof.
  intros Hd Hf.
  rewrite (parts_app_sep _ plain_temp_epub), (parts_app_sep _ Hd).
  now rewrite (parts_plain Hf).
Qed.

Lemma endswith_plain (a f : pystr) :
  plain_name f -> endswith [SEP] (a ++ f) = false.
Proof.
  intros (Hs & Hn & _). unfold endswith. rewrite rev_app_distr.
  destruct (rev f) as [|y r] eqn:E.
  - exfalso. apply Hn. apply (f_equal (@rev _)) in E.
    now rewrite rev_involutive in E.
  - change (startswith (rev [SEP]) ((y :: r) ++ rev a))
      with ((SEP =? y) && true).
    destruct (N.eqb_spec SEP y) as [Ey|_]; [| reflexivity].
    exfalso. apply Hs. apply in_rev. rewrite E, Ey. now left.
Qed.

Lemma path_join_plain (a f : pystr) :
  truthy a = true -> endswith [SEP] a = false -> plain_name f ->
  path_join a f = a ++ SEP :: f.
Proof.
  intros Ha He (Hs & Hn & _). unfold path_join.
  destruct f as [|c f]; [congruence|].
  cbn [startswith].
  destruct (N.eqb_spec SEP c) as [Ec|_].
  - exfalso. apply Hs. left. now symmetry.
  - cbn [andb]. now rewrite Ha, He.
Qed.

Lemma scratch_file_path (dir f : pystr) :
  plain_name dir -> plain_name f ->
  path_join (path_join temp_epub dir) f = temp_epub ++ SEP :: dir ++ SEP :: f.
Proof.
  intros Hd Hf.
  rewrite (@path_join_plain temp_epub dir eq_refl eq_refl Hd).
  rewrite path_join_plain; [now rewrite <- app_assoc | | | exact Hf].
  - reflexivity.
  - change (temp_epub ++ SEP :: dir) with ((temp_epub ++ [SEP]) ++ dir).
    now apply endswith_plain.
Qed.

Lemma scratch_file_relpath (dir f : pystr) :
  plain_name dir -> plain_name f ->
  relpath (path_join (path_join temp_epub dir) f) temp_epub =
    dir ++ SEP :: f.
Proof.
  intros Hd Hf. unfold relpath.
  rewrite (scratch_file_path Hd Hf), (parts_scratch_file Hd Hf).
  rewrite parts_temp_epub. cbn [rel_parts]. rewrite str_eqb_refl.
  reflexivity.
Qed.

Lemma digits_range (fuel : nat) :
  forall (n : N) (acc : pystr),
    Forall (fun c => 48 <= c < 58) acc ->
    Forall (fun c => 48 <= c < 58) (digits fuel n acc).
Proof.
  induction fuel as [|k IH]; intros n acc H; [exact H|].
  cbn [digits].
  assert (D : Forall (fun c => 48 <= c < 58) ((48 + n mod 10) :: acc)).
  { constructor; [| exact H].
    pose proof (N.mod_upper_bound n 10) as B.
    set (m := n mod 10) in *. clearbody m. lia. }
  destruct (n <? 10); [exact D | now apply IH].
Qed.

Lemma str_of_nat_no_sep (n : nat) : ~ In SEP (str_of_nat n).
Proof.
  intros H. pose proof (@digits_range (S n) (N.of_nat n) [] (Forall_nil _)) as F.
  rewrite Forall_forall in F. specialize (F _ H). unfold SEP in F. lia.
Qed.

Lemma numbered_name_plain (pre suf : pystr) (n : nat) :
  ~ In SEP pre -> ~ In SEP suf -> (2 <= List.length pre)%nat ->
  plain_name (pre ++ str_of_nat n ++ suf).
Proof.
  intros Hp Hs Hl. split; [| split].
  - rewrite !in_app_iff. intros [H|[H|H]]; auto.
    now apply (str_of_nat_no_sep n).
  - destruct pre as [|a [|b pre]]; simpl in Hl; try lia. discriminate.
  - destruct pre as [|a [|b pre]]; simpl in Hl; try lia. discriminate.
Qed.

Lemma chapter_file_plain (i : nat) : plain_name (chapter_file i).
Proof.
  unfold chapter_file, chapter_ident. rewrite <- app_assoc.
  apply numbered_name_plain.
  - intros H. vm_compute in H.
    repeat (destruct H as [H|H]; [discriminate|]). exact H.
  - intros H. vm_compute in H.
    repeat (destruct H as [H|H]; [discriminate|]). exact H.
  - vm_compute. lia.
Qed.

Lemma image_page_file_plain (i : nat) : plain_name (image_page_file i).
Proof.
  unfold image_page_file, image_page_ident. rewrite <- app_assoc.
  apply numbered_name_plain.
  - intros H. vm_compute in H.
    repeat (destruct H as [H|H]; [discriminate|]). exact H.
  - intros H. vm_compute in H.
    repeat (destruct H as [H|H]; [discriminate|]). exact H.
  - vm_compute. lia.
Qed.

Lemma plain_literal (f : pystr) :
  forallb (fun c => negb (c =? SEP)) f && truthy f
  && negb (str_eqb f [DOT]) = true ->
  plain_name f.
Proof.
  intros H. apply andb_true_iff in H. destruct H as [H H3].
  apply andb_true_iff in H. destruct H as [H1 H2].
  split; [| split].
  - intros G. rewrite forallb_forall in H1. specialize (H1 _ G).
    now rewrite N.eqb_refl in H1.
  - intros ->. discriminate.
  - intros ->. discriminate.
Qed.

Lemma chapter_file_inj (i j : nat) : chapter_file i = chapter_file j -> i = j.
Proof.
  unfold chapter_file, chapter_ident. intros E.
  apply app_inv_tail in E. apply app_inv_head in E.
  apply str_of_nat_inj in E. lia.
Qed.

Lemma image_page_file_inj (i j : nat) :
  image_page_file i = image_page_file j -> i = j.
Proof.
  unfold image_page_file, image_page_ident. intros E.
  apply app_inv_tail in E. apply app_inv_head in E.
  apply str_of_nat_inj in E. lia.
Qed.

Lemma enumerate_from_nth (A : Type) (l : list A) (a j : nat) (x : A) :
  In (j, x) (combine (seq a (List.length l)) l) ->
  exists k, j = (a + k)%nat /\ nth_error l k = Some x.
Proof.
  revert a. induction l as [|y l IH]; intros a; [intros []|].
  cbn [List.length seq combine]. intros [E|H].
  - inversion E; subst. exists 0%nat. split; [lia | reflexivity].
  - destruct (IH _ H) as (k & -> & Hk). exists (S k). split; [lia | exact Hk].
Qed.

Lemma enumerate_nth (A : Type) (l : list A) (j : nat) (x : A) :
  In (j, x) (enumerate l) -> nth_error l j = Some x.
Proof.
  intros H. destruct (@enumerate_from_nth _ l 0 j x H) as (k & -> & Hk).
  exact Hk.
Qed.


(** *** The walk lists the files of the scratch directory *)

Lemma get_in (es : list (pystr * node)) (c : pystr) (ch : node) :
  Tree.get es c = Some ch -> In (c, ch) es.
Proof.
  induction es as [|[k m] es IH]; simpl; [discriminate|].
  destruct (str_eqb k c) eqn:E.
  - intros H. inversion H; subst. apply str_eqb_eq in E. subst. now left.
  - intros H. right. now apply IH.
Qed.

Lemma get_file_listed (es : list (pystr * node)) (f : pystr) (d : fdata) :
  Tree.get es f = Some (File d) -> In f (Tree.file_names es).
Proof.
  intros H. apply get_in in H. unfold Tree.file_names. apply in_flat_map.
  exists (f, File d). split; [exact H | now left].
Qed.

Lemma walk_child (top nm : pystr) (ch : node) (es : list (pystr * node))
  (t : pystr * list pystr * list pystr) :
  In (nm, ch) es -> In t (Tree.walk (path_join top nm) ch) ->
  In t (Tree.walk top (Dir es)).
Proof.
  intros H Ht. cbn [Tree.walk]. right.
  induction es as [|[k m] es IH]; [destruct H|].
  apply in_or_app. destruct H as [E|H].
  - inversion E; subst. now left.
  - right. now apply IH.
Qed.

Lemma walk_lists_file (top dir f : pystr) (d : fdata) (n : node) :
  Tree.lookup [dir; f] n = Some (File d) ->
  exists dirs files,
    In (path_join top dir, dirs, files) (Tree.walk top n) /\ In f files.
Proof.
  rewrite lookup_two. unfold inner_entry.
  destruct n as [|es]; [discriminate|]. cbn [top_entry].
  destruct (Tree.get es dir) as [[|es2]|] eqn:G; try discriminate.
  cbn [top_entry]. intros G2.
  exists (Tree.dir_names es2), (Tree.file_names es2). split.
  - apply walk_child with (nm := dir) (ch := Dir es2); [now apply get_in|].
    cbn [Tree.walk]. now left.
  - now apply get_file_listed with d.
Qed.

Lemma keeps_and (P Q : node -> Prop) (A : Type) (m : IO A) :
  keeps P m -> keeps Q m -> keeps (fun n => P n /\ Q n) m.
Proof.
  intros HP HQ w r w' H [p q]. split; [exact (HP _ _ _ H p) | exact (HQ _ _ _ H q)].
Qed.

(** *** A file of the scratch directory becomes a member *)

Section Member.

Variables out dir f : pystr.
Variable d : fdata.

Hypothesis out_outside : not_under temp_epub out.
Hypothesis dir_plain : plain_name dir.
Hypothesis f_plain : plain_name f.
Hypothesis f_not_mimetype : f <> u "mimetype".

Let held (n : node) : Prop :=
  Tree.lookup [temp_epub; dir; f] n = Some (File d).

Let opened (n : node) : Prop :=
  exists ms, Tree.lookup (Tree.parts out) n = Some (File (Archive ms)).

Let has (n : node) : Prop :=
  exists ms,
    Tree.lookup (Tree.parts out) n = Some (File (Archive ms)) /\
    In (dir ++ SEP :: f, ZIP_DEFLATED, d) ms.

Lemma out_elsewhere : Tree.parts out <> [temp_epub; dir; f].
Proof. apply out_outside. Qed.

Lemma zip_write_keeps_opened (default : compression) (file arc : pystr)
  (ct : option compression) :
  keeps opened (zip_write out default file arc ct).
Proof.
  intros w r w' H [ms L].
  destruct (@zip_write_spec _ _ _ _ _ _ _ _ _ L H) as [[_ [x L']] | [_ E]].
  - eexists. exact L'.
  - rewrite E. now exists ms.
Qed.

Lemma zip_write_keeps_has (default : compression) (file arc : pystr)
  (ct : option compression) :
  keeps has (zip_write out default file arc ct).
Proof.
  intros w r w' H (ms & L & M).
  destruct (@zip_write_spec _ _ _ _ _ _ _ _ _ L H) as [[_ [x L']] | [_ E]].
  - eexists. split; [exact L'|]. apply in_or_app. now left.
  - rewrite E. now exists ms.
Qed.

Lemma zip_write_adds (w w' : world) :
  held (root w) -> opened (root w) ->
  zip_write out ZIP_DEFLATED (path_join (path_join temp_epub dir) f)
            (relpath (path_join (path_join temp_epub dir) f) temp_epub)
            None w = (Ok tt, w') ->
  has (root w').
Proof.
  intros Hh [ms L] H.
  destruct (@zip_write_data _ _ _ _ _ _ _ _ L H) as (x & Lx & L').
  rewrite (scratch_file_path dir_plain f_plain) in Lx.
  rewrite (parts_scratch_file dir_plain f_plain) in Lx.
  unfold held in Hh. rewrite Hh in Lx. inversion Lx; subst x.
  rewrite (scratch_file_relpath dir_plain f_plain) in L'.
  eexists. split; [exact L'|]. apply in_or_app. right. now left.
Qed.

Lemma create_epub_zip_member (w w' : world) :
  held (root w) ->
  _create_epub_zip temp_epub out w = (Ok tt, w') ->
  has (root w').
Proof.
  intros Hh H. unfold _create_epub_zip in H. apply bind_ok_inv in H.
  destruct H as ([] & w1 & H1 & H2).
  pose proof (zip_open_ok _ _ H1) as L1.
  assert (Hh1 : held (root w1)).
  { exact (@zip_open_keeps_held _ _ out out_elsewhere _ _ _ H1 Hh). }
  apply try_finally_ok in H2. destruct H2 as (w2 & Hb & Hc).
  apply fault_root in Hc. unfold zip_members in Hb.
  apply bind_ok_inv in Hb. destruct Hb as ([] & wa & Ha & Hb).
  assert (Ia : held (root wa) /\ opened (root wa)).
  { split.
    - exact (@zip_write_keeps_held _ _ out _ _ _ _ out_elsewhere _ _ _ Ha
               Hh1).
    - destruct (@zip_write_ok _ _ _ _ _ _ _ _ L1 Ha) as (d0 & La).
      eexists. exact La. }
  apply bind_ok_inv in Hb. destruct Hb as (tree & wb & Hw & Hl).
  assert (Ewb : wb = wa).
  { pose proof (os_walk_pure temp_epub wa) as P. rewrite Hw in P. exact P. }
  subst wb.
  assert (T : exists dirs files,
             In (path_join temp_epub dir, dirs, files) tree /\ In f files).
  { unfold os_walk in Hw. rewrite parts_temp_epub in Hw.
    destruct Ia as [Hf _]. unfold held in Hf.
    rewrite lookup_cons_top in Hf. rewrite lookup_cons_top in Hw.
    destruct (top_entry temp_epub (root wa)) as [n|]; [| discriminate].
    cbn [Tree.lookup] in Hw. inversion Hw; subst tree.
    now apply walk_lists_file with d. }
  destruct T as (dirs & files & Ht & Hf).
  assert (KI : forall file arc,
             keeps (fun n => held n /\ opened n)
                   (zip_write out ZIP_DEFLATED file arc None)).
  { intros file arc. apply keeps_and.
    - apply zip_write_keeps_held, out_elsewhere.
    - apply zip_write_keeps_opened. }
  unfold has. rewrite Hc.
  refine (@for_each_establishes (fun n => held n /\ opened n) has _ _
            (path_join temp_epub dir, dirs, files) tree _ _ _ Ht wa w2 Ia Hl).
  - intros wx wy Ix Hx. cbv beta iota in Hx.
    refine (@for_each_establishes (fun n => held n /\ opened n) has _ _
              f files _ _ _ Hf wx wy Ix Hx).
    + intros wp wq [Ip1 Ip2] Hp. cbv beta in Hp.
      pose proof f_not_mimetype as Nm. apply str_eqb_neq in Nm.
      rewrite Nm in Hp.
      exact (@zip_write_adds wp wq Ip1 Ip2 Hp).
    + intros file _.
      destruct (str_eqb file (u "mimetype")); [apply keeps_ret | apply KI].
    + intros file _.
      destruct (str_eqb file (u "mimetype"));
        [apply keeps_ret | apply zip_write_keeps_has].
  - intros [[r0 ds] fs] _. apply keeps_for_each. intros file.
    destruct (str_eqb file (u "mimetype")); [apply keeps_ret | apply KI].
  - intros [[r0 ds] fs] _. apply keeps_for_each. intros file.
    destruct (str_eqb file (u "mimetype"));
      [apply keeps_ret | apply zip_write_keeps_has].
Qed.

End Member.


(** *** The parts that [package] writes *)

Lemma plain_oebps : plain_name (u "OEBPS").
Proof. apply plain_literal. vm_compute. reflexivity. Qed.

Lemma plain_meta_inf : plain_name (u "META-INF").
Proof. apply plain_literal. vm_compute. reflexivity. Qed.

Lemma plain_images : plain_name (u "images").
Proof. apply plain_literal. vm_compute. reflexivity. Qed.

Lemma parts_in_images (p : pystr) :
  startswith (temp_epub ++ u "/OEBPS/images/") p = true ->
  exists cs, Tree.parts p = temp_epub :: u "OEBPS" :: u "images" :: cs.
Proof.
  intros H. apply startswith_iff in H. destruct H as [b ->].
  rewrite <- app_assoc.
  change (u "/OEBPS/images/" ++ b)
    with (SEP :: (u "OEBPS" ++ SEP :: (u "images" ++ SEP :: b))).
  rewrite (parts_app_sep _ plain_temp_epub), (parts_app_sep _ plain_oebps),
    (parts_app_sep _ plain_images).
  eexists. reflexivity.
Qed.

Lemma cleanup_keeps_output (out : pystr) (x : fdata) (w w' : world)
  (r : result unit) :
  not_under temp_epub out ->
  Tree.lookup (Tree.parts out) (root w) = Some (File x) ->
  _cleanup_temp temp_epub w = (r, w') ->
  Tree.lookup (Tree.parts out) (root w') = Some (File x).
Proof.
  intros Ho L H. destruct (Tree.parts out) as [|c cs] eqn:Ep.
  - cbn [Tree.lookup] in L. inversion L as [E].
    unfold _cleanup_temp, bind, path_exists in H.
    rewrite parts_temp_epub, E in H. cbn [Tree.lookup] in H.
    inversion H; subst. cbn [Tree.lookup]. now rewrite E.
  - assert (Hc : c <> temp_epub).
    { intros ->. now apply (Ho cs). }
    rewrite lookup_cons_top in L |- *.
    now rewrite (@cleanup_frame c (top_entry c (root w)) Hc _ _ _ H eq_refl).
Qed.

Section Parts.

Variable guess_type : pystr -> option pystr.
Variable today : pystr.
Variable self : EpubGenerator.

Lemma part_shape (f s : pystr) :
  In (f, s) (oebps_parts guess_type today self) ->
  (firstn 3 f = u "con" /\
   f = u "content.opf" /\ s = content_opf guess_type today self) \/
  (firstn 3 f = u "cov" /\ f = u "cover.xhtml" /\ s = cover_html self) \/
  (firstn 3 f = u "toc" /\ f = u "toc.ncx" /\ s = toc_ncx self) \/
  (firstn 3 f = u "nav" /\ f = u "nav.xhtml" /\ s = nav_xhtml self) \/
  (firstn 3 f = u "cha" /\
   exists j c, f = chapter_file j /\ s = chapter_html self j c /\
               nth_error (chapters self) j = Some c) \/
  (firstn 3 f = u "ima" /\
   exists j img, f = image_page_file j /\ s = image_html j img /\
                 nth_error (images self) j = Some img).
Proof.
  unfold oebps_parts. rewrite !in_app_iff. cbn [In].
  intros [[E|[E|[E|[E|[]]]]] | [H|H]].
  - injection E as <- <-. left. now repeat split.
  - injection E as <- <-. right. left. now repeat split.
  - injection E as <- <-. do 2 right. left. now repeat split.
  - injection E as <- <-. do 3 right. left. now repeat split.
  - apply in_map_iff in H. destruct H as ([j c] & E & H).
    cbn [fst snd] in E. injection E as <- <-. do 4 right. left. split.
    + unfold chapter_file, chapter_ident.
      generalize (str_of_nat (j + 1)). intros t. vm_compute. reflexivity.
    + exists j, c. repeat split. now apply enumerate_nth.
  - apply in_map_iff in H. destruct H as ([j img] & E & H).
    cbn [fst snd] in E. injection E as <- <-. do 5 right. split.
    + unfold image_page_file, image_page_ident.
      generalize (str_of_nat (j + 1)). intros t. vm_compute. reflexivity.
    + exists j, img. repeat split. now apply enumerate_nth.
Qed.

Ltac other_shape K1 K2 :=
  exfalso; rewrite K1 in K2; vm_compute in K2; discriminate K2.

(** No two parts share a file name. *)
Lemma part_functional (f s s' : pystr) :
  In (f, s) (oebps_parts guess_type today self) ->
  In (f, s') (oebps_parts guess_type today self) -> s = s'.
Proof.
  intros H1 H2. apply part_shape in H1. apply part_shape in H2.
  destruct H1 as [[K1 R1]|[[K1 R1]|[[K1 R1]|[[K1 R1]|[[K1 R1]|[K1 R1]]]]]];
    destruct H2 as [[K2 R2]|[[K2 R2]|[[K2 R2]|[[K2 R2]|[[K2 R2]|[K2 R2]]]]]];
    try (other_shape K1 K2).
  - destruct R1 as [_ ->]. now destruct R2 as [_ ->].
  - destruct R1 as [_ ->]. now destruct R2 as [_ ->].
  - destruct R1 as [_ ->]. now destruct R2 as [_ ->].
  - destruct R1 as [_ ->]. now destruct R2 as [_ ->].
  - destruct R1 as (j & c & E1 & -> & N1).
    destruct R2 as (j' & c' & E2 & -> & N2).
    rewrite E1 in E2. apply chapter_file_inj in E2. subst j'.
    rewrite N1 in N2. now inversion N2.
  - destruct R1 as (j & c & E1 & -> & N1).
    destruct R2 as (j' & c' & E2 & -> & N2).
    rewrite E1 in E2. apply image_page_file_inj in E2. subst j'.
    rewrite N1 in N2. now inversion N2.
Qed.

Lemma part_name (f s : pystr) :
  In (f, s) (oebps_parts guess_type today self) ->
  plain_name f /\ f <> u "mimetype" /\ f <> u "images".
Proof.
  intros H. apply part_shape in H.
  assert (G : forall k, firstn 3 f = k -> k <> u "mim" -> f <> u "mimetype").
  { intros k K Hk E. apply Hk. rewrite <- K, E. reflexivity. }
  destruct H as [[K R]|[[K R]|[[K R]|[[K R]|[[K R]|[K R]]]]]].
  - split; [| split].
    + destruct R as [-> _]. apply plain_literal. vm_compute. reflexivity.
    + apply (G _ K). intros E. vm_compute in E. discriminate E.
    + destruct R as [-> _]. intros E. vm_compute in E. discriminate E.
  - split; [| split].
    + destruct R as [-> _]. apply plain_literal. vm_compute. reflexivity.
    + apply (G _ K). intros E. vm_compute in E. discriminate E.
    + destruct R as [-> _]. intros E. vm_compute in E. discriminate E.
  - split; [| split].
    + destruct R as [-> _]. apply plain_literal. vm_compute. reflexivity.
    + apply (G _ K). intros E. vm_compute in E. discriminate E.
    + destruct R as [-> _]. intros E. vm_compute in E. discriminate E.
  - split; [| split].
    + destruct R as [-> _]. apply plain_literal. vm_compute. reflexivity.
    + apply (G _ K). intros E. vm_compute in E. discriminate E.
    + destruct R as [-> _]. intros E. vm_compute in E. discriminate E.
  - split; [| split].
    + destruct R as (j & c & -> & _). apply chapter_file_plain.
    + apply (G _ K). intros E. vm_compute in E. discriminate E.
    + intros E. apply (f_equal (firstn 3)) in E. rewrite K in E.
      vm_compute in E. discriminate E.
  - split; [| split].
    + destruct R as (j & c & -> & _). apply image_page_file_plain.
    + apply (G _ K). intros E. vm_compute in E. discriminate E.
    + destruct R as (j & c & -> & _).
      unfold image_page_file, image_page_ident.
      generalize (str_of_nat (j + 1)). intros t E.
      apply (f_equal (firstn 6)) in E. vm_compute in E. discriminate E.
Qed.

Section OnePart.

Variables f0 s0 : pystr.
Hypothesis part0 : In (f0, s0) (oebps_parts guess_type today self).

Let held (n : node) : Prop :=
  Tree.lookup [temp_epub; u "OEBPS"; f0] n = Some (File (Raw s0)).

Lemma write_part (f s : pystr) (w w' : world) :
  In (f, s) (oebps_parts guess_type today self) ->
  write_text (temp_epub ++ SEP :: u "OEBPS" ++ SEP :: f) s w = (Ok tt, w') ->
  (f, s) = (f0, s0) \/ held (root w) ->
  held (root w').
Proof.
  intros Hin H D.
  pose proof (@part_name f s Hin) as (Pf & _ & _).
  destruct (str_eqb f f0) eqn:E.
  - apply str_eqb_eq in E. subst f.
    assert (Es : s = s0) by exact (@part_functional f0 s s0 Hin part0).
    subst s. apply write_text_ok in H.
    now rewrite (parts_scratch_file plain_oebps Pf) in H.
  - apply str_eqb_neq in E. destruct D as [D|D]; [congruence|].
    refine (@write_text_keeps_held _ _ _ _ _ _ _ _ H D).
    rewrite (parts_scratch_file plain_oebps Pf). congruence.
Qed.

Lemma loop_parts (B : Type) (l : list B) (g : B -> IO unit)
  (nm tx : B -> pystr) :
  (forall y, In y l ->
     In (nm y, tx y) (oebps_parts guess_type today self) /\
     g y = write_text (temp_epub ++ SEP :: u "OEBPS" ++ SEP :: nm y) (tx y)) ->
  forall w w',
    for_each l g w = (Ok tt, w') ->
    In (f0, s0) (map (fun y => (nm y, tx y)) l) \/ held (root w) ->
    held (root w').
Proof.
  induction l as [|y l IH]; intros Hl w w' H D.
  - inversion H; subst. destruct D as [[]|D]. exact D.
  - cbn [for_each] in H. apply bind_ok_inv in H.
    destruct H as ([] & w1 & H1 & H2).
    destruct (Hl y (or_introl eq_refl)) as [Hy Ey]. rewrite Ey in H1.
    apply (IH (fun z Hz => Hl z (or_intror Hz)) w1 w' H2).
    destruct D as [[D|D]|D].
    + right. apply (@write_part (nm y) (tx y) w w1 Hy H1). left. exact D.
    + left. exact D.
    + right. apply (@write_part (nm y) (tx y) w w1 Hy H1). right. exact D.
Qed.

Lemma copy_keeps_part (src dst : pystr) :
  startswith (temp_epub ++ u "/OEBPS/images/") dst = true ->
  keeps held (copy2 src dst).
Proof.
  intros Hd.
  assert (N : forall p, startswith (temp_epub ++ u "/OEBPS/images/") p = true ->
                        Tree.parts p <> [temp_epub; u "OEBPS"; f0]).
  { intros p Hp. destruct (parts_in_images _ Hp) as [cs ->].
    intros E. injection E as E _.
    destruct (@part_name f0 s0 part0) as (_ & _ & Hi). now apply Hi. }
  apply copy2_keeps_held; apply N; [exact Hd | now apply startswith_join].
Qed.

(** A successful [package] hands the part to [_create_epub_zip]. *)
Lemma package_leaves_part (out : pystr) (w w' : world) :
  package guess_type today self temp_epub out w = (Ok tt, w') ->
  exists wz,
    held (root wz) /\ _create_epub_zip temp_epub out wz = (Ok tt, w').
Proof.
  intros H. unfold package in H.
  apply bind_ok_inv in H. destruct H as ([] & w1 & _ & H).
  apply bind_ok_inv in H. destruct H as ([] & w2 & _ & H).
  apply bind_ok_inv in H. destruct H as ([] & w3 & H3 & H).
  unfold _create_content_opf in H3.
  apply bind_ok_inv in H3. destruct H3 as ([] & w2' & H3a & H3b).
  apply bind_ok_inv in H. destruct H as ([] & w4 & H4 & H).
  apply bind_ok_inv in H. destruct H as ([] & w5 & H5 & H).
  apply bind_ok_inv in H. destruct H as ([] & w6 & H6 & H).
  apply bind_ok_inv in H. destruct H as ([] & w7 & H7 & H).
  apply bind_ok_inv in H. destruct H as ([] & w8 & H8 & H).
  exists w8. split; [| exact H].
  pose proof part0 as D. unfold oebps_parts in D.
  rewrite !in_app_iff in D. cbn [In] in D.
  assert (P : forall x, In x [ (u "content.opf", content_opf guess_type today self);
                               (u "cover.xhtml", cover_html self);
                               (u "toc.ncx", toc_ncx self);
                               (u "nav.xhtml", nav_xhtml self) ] ->
                        In x (oebps_parts guess_type today self)).
  { intros x Hx. unfold oebps_parts. apply in_or_app. now left. }
  assert (A1 : (u "content.opf", content_opf guess_type today self) = (f0, s0)
               -> held (root w2')).
  { intros E. refine (@write_part _ _ _ _ _ H3a _); [| now left].
    apply P. cbn [In]. tauto. }
  assert (A2 : (u "content.opf", content_opf guess_type today self) = (f0, s0)
               \/ (u "cover.xhtml", cover_html self) = (f0, s0)
               -> held (root w3)).
  { intros E. refine (@write_part _ _ _ _ _ H3b _).
    - apply P. cbn [In]. tauto.
    - destruct E as [E|E]; [right; exact (A1 E) | left; exact E]. }
  assert (A3 : (u "content.opf", content_opf guess_type today self) = (f0, s0)
               \/ (u "cover.xhtml", cover_html self) = (f0, s0)
               \/ (u "toc.ncx", toc_ncx self) = (f0, s0)
               -> held (root w4)).
  { intros E. refine (@write_part _ _ _ _ _ H4 _).
    - apply P. cbn [In]. tauto.
    - destruct E as [E|[E|E]];
        [right; apply A2; tauto | right; apply A2; tauto | left; exact E]. }
  assert (A4 : (u "content.opf", content_opf guess_type today self) = (f0, s0)
               \/ (u "cover.xhtml", cover_html self) = (f0, s0)
               \/ (u "toc.ncx", toc_ncx self) = (f0, s0)
               \/ (u "nav.xhtml", nav_xhtml self) = (f0, s0)
               -> held (root w5)).
  { intros E. refine (@write_part _ _ _ _ _ H5 _).
    - apply P. cbn [In]. tauto.
    - destruct E as [E|[E|[E|E]]];
        [right; apply A3; tauto | right; apply A3; tauto
         | right; apply A3; tauto | left; exact E]. }
  assert (A5 : In (f0, s0)
                 (map (fun p : nat * chapter =>
                         (chapter_file (fst p),
                          chapter_html self (fst p) (snd p)))
                      (enumerate (chapters self)))
               \/ held (root w5) -> held (root w6)).
  { refine (@loop_parts _ (enumerate (chapters self)) _
              (fun p => chapter_file (fst p))
              (fun p => chapter_html self (fst p) (snd p)) _ w5 w6 H6).
    intros [j c] Hy. cbn [fst snd]. split.
    - unfold oebps_parts. apply in_or_app. right. apply in_or_app. left.
      apply in_map_iff. exists (j, c). now split.
    - f_equal; unfold chapter_file, chapter_ident; same_text. }
  assert (A6 : In (f0, s0)
                 (map (fun p : nat * image =>
                         (image_page_file (fst p),
                          image_html (fst p) (snd p)))
                      (enumerate (images self)))
               \/ held (root w6) -> held (root w7)).
  { refine (@loop_parts _ (enumerate (images self)) _
              (fun p => image_page_file (fst p))
              (fun p => image_html (fst p) (snd p)) _ w6 w7 H7).
    intros [j img] Hy. cbn [fst snd]. split.
    - unfold oebps_parts. apply in_or_app. right. apply in_or_app. right.
      apply in_map_iff. exists (j, img). now split.
    - f_equal; unfold image_page_file, image_page_ident; same_text. }
  assert (K7 : keeps held (_copy_images self temp_epub)).
  { assert (C : forall rest src dst,
               dst = temp_epub ++ u "/OEBPS/images/" ++ rest ->
               keeps held (copy2 src dst)).
    { intros rest src dst ->. apply copy_keeps_part.
      apply startswith_iff. exists rest. now rewrite <- app_assoc. }
    unfold _copy_images. apply keeps_bind; [| intros _].
    - destruct (cover_image self) as [cv|]; [| apply keeps_ret].
      apply (C (filename cv)).
      generalize (filename cv). intros t. same_text.
    - apply keeps_for_each. intros img.
      apply (C (filename img)).
      generalize (filename img). intros t. same_text. }
  apply (K7 _ _ _ H8). apply A6.
  destruct D as [[D|[D|[D|[D|[]]]]] | [D|D]].
  - right. apply A5. right. apply A4. tauto.
  - right. apply A5. right. apply A4. tauto.
  - right. apply A5. right. apply A4. tauto.
  - right. apply A5. right. apply A4. tauto.
  - right. apply A5. left. exact D.
  - left. exact D.
Qed.

End OnePart.

Let in_book (n : node) : Prop :=
  Tree.lookup [temp_epub; u "META-INF"; u "container.xml"] n =
    Some (File (Raw container_content)).

Lemma package_leaves_container (out : pystr) (w w' : world) :
  package guess_type today self temp_epub out w = (Ok tt, w') ->
  exists wz,
    in_book (root wz) /\ _create_epub_zip temp_epub out wz = (Ok tt, w').
Proof.
  intros H. unfold package in H.
  apply bind_ok_inv in H. destruct H as ([] & w1 & _ & H).
  apply bind_ok_inv in H. destruct H as ([] & w2 & H2 & H).
  assert (D : in_book (root w2)).
  { unfold in_book. apply write_text_ok in H2. exact H2. }
  clear H2.
  assert (N : forall p, startswith (temp_epub ++ u "/OEBPS/") p = true ->
                        Tree.parts p <>
                          [temp_epub; u "META-INF"; u "container.xml"]).
  { intros p Hp. destruct (parts_in_oebps _ Hp) as [cs ->].
    intros E. injection E as E _. vm_compute in E. discriminate E. }
  assert (W : forall rest p s,
             p = temp_epub ++ u "/OEBPS/" ++ rest ->
             keeps in_book (write_text p s)).
  { intros rest p s E. apply write_text_keeps_held, N.
    now apply in_oebps with (rest := rest). }
  assert (C : forall rest src dst,
             dst = temp_epub ++ u "/OEBPS/" ++ rest ->
             keeps in_book (copy2 src dst)).
  { intros rest src dst E.
    assert (Hd : startswith (temp_epub ++ u "/OEBPS/") dst = true)
      by now apply in_oebps with (rest := rest).
    apply copy2_keeps_held; apply N; [exact Hd | now apply startswith_join]. }
  assert (K2 : keeps in_book
                 (_create_content_opf guess_type today self temp_epub)).
  { apply keeps_bind; [| intros _].
    - apply (W (u "content.opf")). reflexivity.
    - apply (W (u "cover.xhtml")). reflexivity. }
  destruct (@bind_keeps_ok _ _ _ _ _ K2 D H) as (w3 & D3 & H3).
  clear H D K2.
  assert (K3 : keeps in_book (_create_toc_ncx self temp_epub)).
  { apply (W (u "toc.ncx")). reflexivity. }
  destruct (@bind_keeps_ok _ _ _ _ _ K3 D3 H3) as (w4 & D4 & H4).
  clear H3 D3 K3.
  assert (K4 : keeps in_book (_create_nav_xhtml self temp_epub)).
  { apply (W (u "nav.xhtml")). reflexivity. }
  destruct (@bind_keeps_ok _ _ _ _ _ K4 D4 H4) as (w5 & D5 & H5).
  clear H4 D4 K4.
  assert (K5 : keeps in_book (_create_chapters_html self temp_epub)).
  { apply keeps_for_each. intros [i ch].
    apply (W (u "chapter_" ++ str_of_nat (i + 1) ++ u ".xhtml")).
    same_text. }
  destruct (@bind_keeps_ok _ _ _ _ _ K5 D5 H5) as (w6 & D6 & H6).
  clear H5 D5 K5.
  assert (K6 : keeps in_book (_create_image_pages self temp_epub)).
  { apply keeps_for_each. intros [i img].
    apply (W (u "image_page_" ++ str_of_nat (i + 1) ++ u ".xhtml")).
    same_text. }
  destruct (@bind_keeps_ok _ _ _ _ _ K6 D6 H6) as (w7 & D7 & H7).
  clear H6 D6 K6.
  assert (K7 : keeps in_book (_copy_images self temp_epub)).
  { unfold _copy_images. apply keeps_bind; [| intros _].
    - destruct (cover_image self) as [cv|]; [| apply keeps_ret].
      apply (C (u "images/" ++ filename cv)).
      generalize (filename cv). intros t. same_text.
    - apply keeps_for_each. intros img.
      apply (C (u "images/" ++ filename img)).
      generalize (filename img). intros t. same_text. }
  destruct (@bind_keeps_ok _ _ _ _ _ K7 D7 H7) as (w8 & D8 & H8).
  exists w8. split; assumption.
Qed.


End Parts.


